(** * eJuuz main script: a shallow embedding of [script.js] and its properties

    The development follows the layout of the script: configuration
    constants, the utility layer, the widget state manager with its DOM
    reflection, validation, the chat submission flow on top of a small
    timer loop, the active-section tracker and the listener life cycle.

    Modelling conventions.
    - A JavaScript string is a [string]; each [ascii] stands for one code
      unit in the range 0..255.  [trim], [toLowerCase] and the class [\s]
      are the ECMAScript ones restricted to that range.
    - A DOM node is a record of the attributes, classes and properties that
      the script reads or writes; [option] stands for a selector that may
      miss ([null]).
    - Timers live in a queue with a virtual clock in milliseconds.
    - A JavaScript number is a rational that a double holds; products and
      sums are rounded as IEEE 754 binary64 does, to nearest, ties to
      even. *)

From Stdlib Require Import ZArith QArith Qround Qabs List Bool String Ascii Lia Lqa.
Import ListNotations.

Local Open Scope string_scope.
Local Open Scope Z_scope.

(* ================================================================== *)
(** * 1. Configuration and constants *)
(* ================================================================== *)

Module CONFIG.
Definition DEBOUNCE_DELAY : Z := 100.
Definition THROTTLE_DELAY : Z := 200.
Definition RESIZE_DEBOUNCE : Z := 150.
Definition SCROLL_THRESHOLD : Z := 80.
Definition MOBILE_BREAKPOINT : Z := 768.
Definition TABLET_BREAKPOINT : Z := 1024.
Definition CHAT_AUTO_CLOSE : Z := 30000.
Definition CHAT_MIN_RESPONSE_TIME : Z := 1000.
Definition CHAT_MAX_RESPONSE_TIME : Z := 3000.
Definition SMOOTH_SCROLL_ENABLED : bool := true.

End CONFIG.

(* ================================================================== *)
(** * JavaScript strings *)
(* ================================================================== *)

Module JsString.

(** [WhiteSpace] and [LineTerminator] code units below 256: TAB, LF, VT,
    FF, CR, SP and NBSP.  This is the set matched by [\s] and stripped by
    [String.prototype.trim]. *)
Definition isWhiteSpace (c : ascii) : bool :=
  let n := N_of_ascii c in
  ((n =? 9) || (n =? 10) || (n =? 11) || (n =? 12) || (n =? 13)
   || (n =? 32) || (n =? 160))%N.

Fixpoint trimStart (s : string) : string :=
  match s with
  | EmptyString => EmptyString
  | String c s' => if isWhiteSpace c then trimStart s' else s
  end.

Fixpoint trimEnd (s : string) : string :=
  match s with
  | EmptyString => EmptyString
  | String c s' =>
      match trimEnd s' with
      | EmptyString => if isWhiteSpace c then EmptyString else String c EmptyString
      | t => String c t
      end
  end.

Definition trim (s : string) : string := trimEnd (trimStart s).

(** Simple case mapping of the code units below 256: A-Z and the Latin-1
    capitals (all of U+00C0..U+00DE but the multiplication sign). *)
Definition lowerChar (c : ascii) : ascii :=
  let n := N_of_ascii c in
  if (((65 <=? n) && (n <=? 90))
      || ((192 <=? n) && (n <=? 222) && negb (n =? 215)))%N
  then ascii_of_N (n + 32) else c.

Fixpoint toLowerCase (s : string) : string :=
  match s with
  | EmptyString => EmptyString
  | String c s' => String (lowerChar c) (toLowerCase s')
  end.

Definition startsWith (s p : string) : bool := String.prefix p s.

(** [s.substring(1)] *)
Definition substring1 (s : string) : string :=
  match s with
  | EmptyString => EmptyString
  | String _ s' => s'
  end.

(** Truthiness of a string value: every string but the empty one. *)
Definition truthy (s : string) : bool :=
  match s with EmptyString => false | _ => true end.

Definition ofBool (b : bool) : string := if b then "true" else "false".

End JsString.

(* ================================================================== *)
(** * Numbers *)
(* ================================================================== *)

(** The arithmetic of ECMAScript numbers on the finite values: the exact
    result is rounded to the nearest double, to the one with an even
    significand when two are equally near.  The numbers of the script stay
    far below 2^1024, where a double overflows. *)
Module Number.

(** 2^e *)
Definition pow2 (e : Z) : Q :=
  if 0 <=? e then inject_Z (2 ^ e) else / inject_Z (2 ^ (- e)).

(** The binary exponent of a positive number: 2^(ilog2 x) <= x < 2 * 2^(ilog2 x) *)
Definition ilog2 (x : Q) : Z :=
  if Qle_bool 1 x then Z.log2 (Qfloor x)
  else - Z.log2_up (Qceiling (/ x)).

(** The nearest integer, the even one of two that are equally near. *)
Definition nearestEven (q : Q) : Z :=
  let f := Qfloor q in
  match (q - inject_Z f ?= 1 # 2)%Q with
  | Lt => f
  | Gt => f + 1
  | Eq => if Z.even f then f else f + 1
  end.

(** The distance between neighbouring doubles around [x]: 53 significant
    bits, and 2^-1074 for the subnormal ones. *)
Definition ulp (x : Q) : Q := pow2 (Z.max (ilog2 x - 52) (-1074)).

Definition round (x : Q) : Q :=
  match (x ?= 0)%Q with
  | Eq => 0%Q
  | Gt => (inject_Z (nearestEven (x / ulp x)) * ulp x)%Q
  | Lt => (- (inject_Z (nearestEven (- x / ulp (- x))) * ulp (- x)))%Q
  end.

(** [a * b] and [a + b] *)
Definition mul (a b : Q) : Q := round (a * b).
Definition add (a b : Q) : Q := round (a + b).

End Number.

(* ================================================================== *)
(** * Regular expressions *)
(* ================================================================== *)

Module RegExp.

(** The fragment of the regular-expression language the script uses:
    character classes, concatenation and [+]; [Void] and [Alt] are there
    for the derivatives. *)
Inductive regex : Type :=
| Void
| Eps
| Cls (p : ascii -> bool)
| Cat (r1 r2 : regex)
| Alt (r1 r2 : regex)
| Star (r : regex).

Definition Plus (r : regex) : regex := Cat r (Star r).
Definition Chr (a : ascii) : regex := Cls (Ascii.eqb a).

(** Declarative semantics: the words of a regular expression. *)
Inductive Matches : regex -> list ascii -> Prop :=
| MEps : Matches Eps []
| MCls p c : p c = true -> Matches (Cls p) [c]
| MCat r1 r2 s1 s2 :
    Matches r1 s1 -> Matches r2 s2 -> Matches (Cat r1 r2) (s1 ++ s2)
| MAltL r1 r2 s : Matches r1 s -> Matches (Alt r1 r2) s
| MAltR r1 r2 s : Matches r2 s -> Matches (Alt r1 r2) s
| MStarNil r : Matches (Star r) []
| MStarApp r s1 s2 :
    Matches r s1 -> Matches (Star r) s2 -> Matches (Star r) (s1 ++ s2).

Fixpoint nullable (r : regex) : bool :=
  match r with
  | Void => false
  | Eps => true
  | Cls _ => false
  | Cat r1 r2 => nullable r1 && nullable r2
  | Alt r1 r2 => nullable r1 || nullable r2
  | Star _ => true
  end.

Fixpoint deriv (c : ascii) (r : regex) : regex :=
  match r with
  | Void => Void
  | Eps => Void
  | Cls p => if p c then Eps else Void
  | Cat r1 r2 =>
      if nullable r1
      then Alt (Cat (deriv c r1) r2) (deriv c r2)
      else Cat (deriv c r1) r2
  | Alt r1 r2 => Alt (deriv c r1) (deriv c r2)
  | Star r1 => Cat (deriv c r1) (Star r1)
  end.

Fixpoint matchb (r : regex) (s : list ascii) : bool :=
  match s with
  | [] => nullable r
  | c :: s' => matchb (deriv c r) s'
  end.

(** [re.test(s)] for a pattern anchored by [^] and [$] and without flags:
    the whole string has to match. *)
Definition test (re : regex) (s : string) : bool :=
  matchb re (list_ascii_of_string s).

(** Every class of [r] gives the same answer on [c] and on [f c]. *)
Fixpoint classes_stable (f : ascii -> ascii) (r : regex) : Prop :=
  match r with
  | Void | Eps => True
  | Cls p => forall c, p (f c) = p c
  | Cat r1 r2 | Alt r1 r2 => classes_stable f r1 /\ classes_stable f r2
  | Star r1 => classes_stable f r1
  end.

End RegExp.

(* ================================================================== *)
(** * 2. Utility functions *)
(* ================================================================== *)

Inductive DeviceType : Type := mobile | tablet | desktop.

Definition DeviceType_eqb (a b : DeviceType) : bool :=
  match a, b with
  | mobile, mobile | tablet, tablet | desktop, desktop => true
  | _, _ => false
  end.

Module utils.
Import JsString RegExp.

(** [[^\s@]] *)
Definition notSpaceAt (c : ascii) : bool :=
  negb (isWhiteSpace c || Ascii.eqb c "@").

(** [/^[^\s@]+@[^\s@]+\.[^\s@]+$/] *)
Definition re : regex :=
  Cat (Plus (Cls notSpaceAt))
    (Cat (Chr "@")
       (Cat (Plus (Cls notSpaceAt))
          (Cat (Chr ".") (Plus (Cls notSpaceAt))))).

Definition validateEmail (email : string) : bool :=
  test re (toLowerCase email).

(** [getDeviceType] reads [window.innerWidth]. *)
Definition getDeviceType (innerWidth : Z) : DeviceType :=
  let width := innerWidth in
  if width <? CONFIG.MOBILE_BREAKPOINT then mobile
  else if width <? CONFIG.TABLET_BREAKPOINT then tablet
  else desktop.

(** ** More of the utility layer *)

(** [\d] *)
Definition isDigit (c : ascii) : bool :=
  let n := N_of_ascii c in ((48 <=? n) && (n <=? 57))%N.

(** [\d{n}] at the start of [s]: the digits it takes and what follows. *)
Fixpoint digits (n : nat) (s : string) : option (string * string) :=
  match n with
  | O => Some (EmptyString, s)
  | S n' =>
      match s with
      | EmptyString => None
      | String c s' =>
          if isDigit c then
            match digits n' s' with
            | Some (d, rest) => Some (String c d, rest)
            | None => None
            end
          else None
      end
  end.

(** [(\d{2})(\d{3})(\d{3})(\d{4})] at the start of [s]: the four groups and
    what follows. *)
Definition phoneGroups (s : string)
  : option (string * string * string * string * string) :=
  match digits 2 s with
  | Some (g1, r1) =>
      match digits 3 r1 with
      | Some (g2, r2) =>
          match digits 3 r2 with
          | Some (g3, r3) =>
              match digits 4 r3 with
              | Some (g4, rest) => Some (g1, g2, g3, g4, rest)
              | None => None
              end
          | None => None
          end
      | None => None
      end
  | None => None
  end.

(** [phone.replace(/(\d{2})(\d{3})(\d{3})(\d{4})/, '+$1 $2 $3 $4')]: the
    pattern has no [g] flag, so only the leftmost match is replaced. *)
Fixpoint formatPhoneNumber (phone : string) : string :=
  match phoneGroups phone with
  | Some (g1, g2, g3, g4, rest) =>
      "+" ++ g1 ++ " " ++ g2 ++ " " ++ g3 ++ " " ++ g4 ++ rest
  | None =>
      match phone with
      | EmptyString => EmptyString
      | String c s' => String c (formatPhoneNumber s')
      end
  end.

(** The digits of a string, in order. *)
Fixpoint keepDigits (s : string) : string :=
  match s with
  | EmptyString => EmptyString
  | String c s' => if isDigit c then String c (keepDigits s') else keepDigits s'
  end.

(** [element.getBoundingClientRect()] *)
Record DOMRect : Type := mkRect {
  rect_top : Q;
  rect_bottom : Q;
  rect_left : Q;
  rect_right : Q
}.

Record Viewport : Type := mkViewport {
  vp_innerWidth : Z;
  vp_innerHeight : Z
}.

(** [isInViewport(element, offset)]; [None] is a missing element. *)
Definition isInViewport (element : option DOMRect) (offset : Q)
    (window : Viewport) : bool :=
  match element with
  | None => false
  | Some rect =>
      Qle_bool (rect_top rect) (inject_Z (vp_innerHeight window) - offset)
      && Qle_bool offset (rect_bottom rect)
      && Qle_bool (rect_left rect) (inject_Z (vp_innerWidth window) - offset)
      && Qle_bool offset (rect_right rect)
  end.

(** *** [throttle] and [debounce]

    The wrapped function is abstract: what is recorded is when it is invoked
    and with which arguments.  A wrapper is driven by calls at given times
    and by its own timers. *)
Inductive WrapperEvent (A : Type) : Type :=
| Invoke (t : Z) (args : A)           (* the wrapper is called at time [t] *)
| Timeout.                            (* its pending timer that is due first fires *)
Arguments Invoke {A} t args.
Arguments Timeout {A}.

(** The closure of [throttle(func, limit)]: the flag, the pending timers
    that will reset it, and the invocations of [func] so far. *)
Record Throttled (A : Type) : Type := mkThrottled {
  inThrottle : bool;
  th_timers : list Z;                   (* due times *)
  th_now : Z;
  th_invocations : list (Z * A)
}.
Arguments mkThrottled {A}.
Arguments inThrottle {A}.
Arguments th_timers {A}.
Arguments th_now {A}.
Arguments th_invocations {A}.

Definition throttle {A : Type} : Throttled A := mkThrottled false [] 0 [].

(** The smallest due time and the other timers, oldest first among equals. *)
Fixpoint popEarliest (ts : list Z) : option (Z * list Z) :=
  match ts with
  | [] => None
  | t :: ts' =>
      match popEarliest ts' with
      | Some (m, rest) => if m <? t then Some (m, t :: rest) else Some (t, ts')
      | None => Some (t, [])
      end
  end.

(** One event on the closure of [throttle]; [None]: not a schedule of the
    event loop (time runs backwards, or a due timer has been skipped). *)
Definition throttle_step {A : Type} (limit : Z) (e : WrapperEvent A)
    (st : Throttled A) : option (Throttled A) :=
  match e with
  | Invoke t args =>
      if (th_now st <=? t) && forallb (fun d => t <=? d) (th_timers st) then
        if negb (inThrottle st) then
          Some (mkThrottled true (th_timers st ++ [t + limit])%list t
                  (th_invocations st ++ [(t, args)])%list)
        else Some (mkThrottled (inThrottle st) (th_timers st) t
                     (th_invocations st))
      else None
  | Timeout =>
      match popEarliest (th_timers st) with
      | Some (d, rest) =>
          if th_now st <=? d
          then Some (mkThrottled false rest d (th_invocations st))
          else None
      | None => None
      end
  end.

Fixpoint throttle_run {A : Type} (limit : Z) (evs : list (WrapperEvent A))
    (st : Throttled A) : option (Throttled A) :=
  match evs with
  | [] => Some st
  | e :: evs' =>
      match throttle_step limit e st with
      | Some st' => throttle_run limit evs' st'
      | None => None
      end
  end.

(** The closure of [debounce(func, wait)]: the variable [timeout], the
    pending timers with the arguments their [later] holds, and the
    invocations of [func] so far. *)
Record Debounced (A : Type) : Type := mkDebounced {
  db_timeout : option nat;
  db_timers : list (nat * Z * A);       (* id, due time, arguments *)
  db_next : nat;
  db_now : Z;
  db_invocations : list (Z * A)
}.
Arguments mkDebounced {A}.
Arguments db_timeout {A}.
Arguments db_timers {A}.
Arguments db_next {A}.
Arguments db_now {A}.
Arguments db_invocations {A}.

Definition debounce {A : Type} : Debounced A := mkDebounced None [] 0 0 [].

(** [clearTimeout(timeout)] *)
Definition clearTimeout {A : Type} (timeout : option nat)
    (ts : list (nat * Z * A)) : list (nat * Z * A) :=
  match timeout with
  | None => ts
  | Some id => filter (fun x => negb (Nat.eqb (fst (fst x)) id)) ts
  end.

(** The pending timer that is due first, oldest first among equals, and
    the others. *)
Fixpoint popTimer {A : Type} (ts : list (nat * Z * A))
  : option ((nat * Z * A) * list (nat * Z * A)) :=
  match ts with
  | [] => None
  | t :: ts' =>
      match popTimer ts' with
      | Some (m, rest) =>
          if snd (fst m) <? snd (fst t) then Some (m, t :: rest)
          else Some (t, ts')
      | None => Some (t, [])
      end
  end.

Definition debounce_step {A : Type} (wait : Z) (e : WrapperEvent A)
    (st : Debounced A) : option (Debounced A) :=
  match e with
  | Invoke t args =>
      if (db_now st <=? t)
         && forallb (fun x => t <=? snd (fst x)) (db_timers st)
      then
        (* clearTimeout(timeout); timeout = setTimeout(later, wait) *)
        let ts := clearTimeout (db_timeout st) (db_timers st) in
        Some (mkDebounced (Some (db_next st))
                (ts ++ [(db_next st, t + wait, args)])%list
                (S (db_next st)) t (db_invocations st))
      else None
  | Timeout =>
      match popTimer (db_timers st) with
      | Some ((id, d, args), rest) =>
          if db_now st <=? d then
            (* later: clearTimeout(timeout); func(...args) *)
            Some (mkDebounced (db_timeout st)
                    (clearTimeout (db_timeout st) rest)
                    (db_next st) d
                    (db_invocations st ++ [(d, args)])%list)
          else None
      | None => None
      end
  end.

Fixpoint debounce_run {A : Type} (wait : Z) (evs : list (WrapperEvent A))
    (st : Debounced A) : option (Debounced A) :=
  match evs with
  | [] => Some st
  | e :: evs' =>
      match debounce_step wait e st with
      | Some st' => debounce_run wait evs' st'
      | None => None
      end
  end.

End utils.

(* ================================================================== *)
(** * 3. Core application: state, cached elements, document, timers *)
(* ================================================================== *)

(** [this.state] *)
Record State : Type := mkState {
  isNavOpen : bool;
  isChatOpen : bool;
  currentSection : string;
  scrollPosition : Z;
  deviceType : DeviceType
}.

(** The nodes of [this.elements], each with what the script touches. *)
Record NavEl : Type := mkNav {
  nav_mobile_active : bool              (* class "mobile-active" *)
}.

Record NavToggleEl : Type := mkNavToggle {
  navToggle_active : bool;              (* class "active" *)
  navToggle_aria_expanded : option string
}.

Record NavLinkEl : Type := mkNavLink {
  link_href : option string;
  link_active : bool;                   (* class "active" *)
  link_aria_current : option string
}.

Record HeaderEl : Type := mkHeader {
  header_offsetHeight : Z
}.

Record ChatToggleEl : Type := mkChatToggle {
  chatToggle_aria_expanded : option string
}.

Record ChatPanelEl : Type := mkChatPanel {
  chatPanel_aria_hidden : option string
}.

Inductive FieldTag : Type := input | textarea.

(** A named control of a form: its current value and the default value
    that [form.reset()] restores. *)
Record FormField : Type := mkField {
  field_tag : FieldTag;
  field_name : string;
  field_value : string;
  field_default : string
}.

Record ButtonEl : Type := mkButton {
  button_innerHTML : string;
  button_originalText : option string;  (* dataset.originalText *)
  button_disabled : bool;
  button_aria_busy : option string
}.

(** A form: its [input] and [textarea] controls, its submit button, and
    the other names under which [form[name]] finds one of its elements: the
    ids of its listed elements and the names of those that are no field. *)
Record FormEl : Type := mkForm {
  form_fields : list FormField;
  form_submit : option ButtonEl;        (* button[type="submit"] *)
  form_others : list string
}.

Record ChatStatusEl : Type := mkChatStatus {
  status_textContent : string;
  status_className : string;
  status_role : option string;
  status_aria_live : option string
}.

Record ChatMessageEl : Type := mkChatMessage {
  message_className : string;
  message_textContent : string
}.

Record SectionEl : Type := mkSection {
  section_id : string;
  section_offsetTop : Z;
  section_offsetHeight : Z
}.

Record Elements : Type := mkElements {
  nav : option NavEl;
  navToggle : option NavToggleEl;
  navList : bool;                       (* only its presence is used *)
  navLinks : list NavLinkEl;
  header : option HeaderEl;
  chatToggle : option ChatToggleEl;
  chatPanel : option ChatPanelEl;
  chatClose : bool;                     (* only its presence is used *)
  chatForm : option FormEl;
  chatStatus : option ChatStatusEl;
  chatMessages : option (list ChatMessageEl);   (* its children *)
  sections : list SectionEl
}.

Inductive Focusable : Type := FNavToggle | FChatToggle | FChatFirstInput.

(** What the script touches outside of the cached nodes. *)
Record Document : Type := mkDocument {
  body_overflow : string;               (* document.body.style.overflow *)
  body_announcements : list (nat * string);   (* live regions, by node *)
  nextNode : nat;
  activeElement : option Focusable
}.

(** How a promise is settled. *)
Inductive Settlement : Type :=
| Fulfilled
| Rejected (reason : string).

Record Promise : Type := mkPromise {
  promise_delay : Q;                    (* settles after that many ms *)
  promise_settlement : Settlement
}.

Inductive Callback : Type :=
| CbResumeChatSubmit (s : Settlement)   (* handleChatSubmit after [await] *)
| CbAutoCloseChat
| CbClearChatStatus
| CbFocusFirstInput
| CbRemoveAnnouncement (node : nat).

Record Timer : Type := mkTimer {
  tid : nat;
  due : Z;
  callback : Callback
}.

Record World : Type := mkWorld {
  state : State;
  elements : Elements;
  document : Document;
  console : list string;                (* console.error *)
  now : Z;
  timers : list Timer;
  nextTimer : nat
}.

(** A form control as [validateField] sees it. *)
Record FieldEl : Type := mkFieldEl {
  fe_value : string;
  fe_required : bool;                   (* hasAttribute('required') *)
  fe_type : string;
  fe_minLength : option Z;              (* [None]: no such property;
                                           -1: no minlength attribute *)
  fe_error : bool;                      (* class "error" *)
  fe_aria_invalid : option string
}.

(** [new FormData(form)]: the (name, value) entries in tree order. *)
Definition FormData : Type := list (string * string).

(** Where a click landed, as far as [contains] can tell. *)
Record EventTarget : Type := mkTarget {
  inNavList : bool;
  inNavToggle : bool;
  inChatPanel : bool;
  inChatToggle : bool
}.

(** What reaches the application from outside; [random] is the value
    [Math.random()] returns if the handler asks for one. *)
Inductive Input : Type :=
| NavToggleClick
| ChatToggleClick
| ChatCloseClick
| EscapeKeyDown
| DocumentClick (target : EventTarget)
| ChatFormSubmit (random : Q)
| CallOpenChat
| CallCloseChat
| CallOpenNav
| CallCloseNav.

(** One turn of the event loop: the timer [id] fires, or an input is
    dispatched at time [t]. *)
Inductive Event : Type :=
| Fire (id : nat)
| At (t : Z) (i : Input).

Module eJuuzApp.
Import JsString.

(** ** Field updates *)

Definition set_isNavOpen (b : bool) (s : State) : State :=
  mkState b (isChatOpen s) (currentSection s) (scrollPosition s) (deviceType s).
Definition set_isChatOpen (b : bool) (s : State) : State :=
  mkState (isNavOpen s) b (currentSection s) (scrollPosition s) (deviceType s).
Definition set_currentSection (c : string) (s : State) : State :=
  mkState (isNavOpen s) (isChatOpen s) c (scrollPosition s) (deviceType s).

Definition with_state (f : State -> State) (w : World) : World :=
  mkWorld (f (state w)) (elements w) (document w) (console w)
          (now w) (timers w) (nextTimer w).
Definition with_elements (f : Elements -> Elements) (w : World) : World :=
  mkWorld (state w) (f (elements w)) (document w) (console w)
          (now w) (timers w) (nextTimer w).
Definition with_document (f : Document -> Document) (w : World) : World :=
  mkWorld (state w) (elements w) (f (document w)) (console w)
          (now w) (timers w) (nextTimer w).

Definition set_nav (v : option NavEl) (e : Elements) : Elements :=
  mkElements v (navToggle e) (navList e) (navLinks e) (header e)
    (chatToggle e) (chatPanel e) (chatClose e) (chatForm e) (chatStatus e)
    (chatMessages e) (sections e).
Definition set_navToggle (v : option NavToggleEl) (e : Elements) : Elements :=
  mkElements (nav e) v (navList e) (navLinks e) (header e)
    (chatToggle e) (chatPanel e) (chatClose e) (chatForm e) (chatStatus e)
    (chatMessages e) (sections e).
Definition set_navLinks (v : list NavLinkEl) (e : Elements) : Elements :=
  mkElements (nav e) (navToggle e) (navList e) v (header e)
    (chatToggle e) (chatPanel e) (chatClose e) (chatForm e) (chatStatus e)
    (chatMessages e) (sections e).
Definition set_chatToggle (v : option ChatToggleEl) (e : Elements) : Elements :=
  mkElements (nav e) (navToggle e) (navList e) (navLinks e) (header e)
    v (chatPanel e) (chatClose e) (chatForm e) (chatStatus e)
    (chatMessages e) (sections e).
Definition set_chatPanel (v : option ChatPanelEl) (e : Elements) : Elements :=
  mkElements (nav e) (navToggle e) (navList e) (navLinks e) (header e)
    (chatToggle e) v (chatClose e) (chatForm e) (chatStatus e)
    (chatMessages e) (sections e).
Definition set_chatForm (v : option FormEl) (e : Elements) : Elements :=
  mkElements (nav e) (navToggle e) (navList e) (navLinks e) (header e)
    (chatToggle e) (chatPanel e) (chatClose e) v (chatStatus e)
    (chatMessages e) (sections e).
Definition set_chatStatus (v : option ChatStatusEl) (e : Elements) : Elements :=
  mkElements (nav e) (navToggle e) (navList e) (navLinks e) (header e)
    (chatToggle e) (chatPanel e) (chatClose e) (chatForm e) v
    (chatMessages e) (sections e).
Definition set_chatMessages (v : option (list ChatMessageEl)) (e : Elements)
  : Elements :=
  mkElements (nav e) (navToggle e) (navList e) (navLinks e) (header e)
    (chatToggle e) (chatPanel e) (chatClose e) (chatForm e) (chatStatus e)
    v (sections e).

Definition set_body_overflow (v : string) (d : Document) : Document :=
  mkDocument v (body_announcements d) (nextNode d) (activeElement d).
Definition set_activeElement (v : option Focusable) (d : Document) : Document :=
  mkDocument (body_overflow d) (body_announcements d) (nextNode d) v.

Definition console_error (msg : string) (w : World) : World :=
  mkWorld (state w) (elements w) (document w) (console w ++ [msg])%list
          (now w) (timers w) (nextTimer w).

(** ** Timers *)

(** [setTimeout(cb, delay)]: the timer is due [delay] ms from now. *)
Definition setTimeout (cb : Callback) (delay : Z) (w : World) : World :=
  mkWorld (state w) (elements w) (document w) (console w) (now w)
          (timers w ++ [mkTimer (nextTimer w) (now w + delay) cb])%list
          (S (nextTimer w)).

(** The timeout argument is converted to an integer: truncated, and a
    negative one counts as 0. *)
Definition timeoutOfNumber (q : Q) : Z := Z.max 0 (Qfloor q).

(** [await p] inside [handleChatSubmit]: the rest of the handler runs
    when [p] settles. *)
Definition awaitChatSubmit (p : Promise) (w : World) : World :=
  setTimeout (CbResumeChatSubmit (promise_settlement p))
             (timeoutOfNumber (promise_delay p)) w.

(** ** 5. State management *)

Definition updateNavState (w : World) : World :=
  match nav (elements w), navToggle (elements w) with
  | Some _, Some _ =>
      let open := isNavOpen (state w) in
      let w := with_elements (set_nav (Some (mkNav open))) w in
      let w := with_elements
                 (set_navToggle (Some (mkNavToggle open (Some (ofBool open))))) w in
      if DeviceType_eqb (deviceType (state w)) mobile
      then with_document (set_body_overflow (if open then "hidden" else "")) w
      else w
  | _, _ => w
  end.

Definition updateChatState (w : World) : World :=
  match chatPanel (elements w), chatToggle (elements w) with
  | Some _, Some _ =>
      let open := isChatOpen (state w) in
      let w := with_elements
                 (set_chatPanel (Some (mkChatPanel (Some (ofBool (negb open)))))) w in
      with_elements
        (set_chatToggle (Some (mkChatToggle (Some (ofBool open))))) w
  | _, _ => w
  end.

(** ** 6. UI helpers *)

Definition showChatStatus (message type : string) (w : World) : World :=
  match chatStatus (elements w) with
  | None => w
  | Some _ =>
      with_elements
        (set_chatStatus
           (Some (mkChatStatus message ("chat-status status-" ++ type)
                    (Some "status") (Some "polite")))) w
  end.

Definition clearChatStatus (w : World) : World :=
  match chatStatus (elements w) with
  | None => w
  | Some st =>
      with_elements
        (set_chatStatus
           (Some (mkChatStatus "" "chat-status"
                    (status_role st) (status_aria_live st)))) w
  end.

Definition addChatMessage (message sender : string) (w : World) : World :=
  match chatMessages (elements w) with
  | None => w
  | Some children =>
      let messageEl := mkChatMessage ("chat-message chat-message-" ++ sender)
                                     message in
      with_elements (set_chatMessages (Some (children ++ [messageEl])%list)) w
  end.

Definition announceStateChange (message : string) (w : World) : World :=
  let d := document w in
  let node := nextNode d in
  let w := with_document
             (fun d => mkDocument (body_overflow d)
                         (body_announcements d ++ [(node, message)])%list
                         (S (nextNode d)) (activeElement d)) w in
  setTimeout (CbRemoveAnnouncement node) 1000 w.

Definition removeAnnouncement (node : nat) (w : World) : World :=
  with_document
    (fun d => mkDocument (body_overflow d)
                (filter (fun a => negb (Nat.eqb (fst a) node))
                        (body_announcements d))
                (nextNode d) (activeElement d)) w.

Definition focus (target : Focusable) (w : World) : World :=
  with_document (set_activeElement (Some target)) w.

Definition quote : string := String (ascii_of_N 34) EmptyString.

Definition setButtonLoading (button : option ButtonEl) (isLoading : bool)
  : option ButtonEl :=
  match button with
  | None => None
  | Some b =>
      if isLoading then
        Some (mkButton
                ("<span class=" ++ quote ++ "loading-spinner-small" ++ quote
                 ++ "></span> Loading...")
                (Some (button_innerHTML b)) true (Some "true"))
      else
        let original :=
          match button_originalText b with
          | Some t => if truthy t then t else button_innerHTML b
          | None => button_innerHTML b
          end in
        Some (mkButton original (button_originalText b) false None)
  end.

(** [form.reset()] *)
Definition reset (form : FormEl) : FormEl :=
  mkForm (map (fun f => mkField (field_tag f) (field_name f)
                          (field_default f) (field_default f))
              (form_fields form))
         (form_submit form) (form_others form).

(** ** 12. Public methods *)

Definition openNav (w : World) : World :=
  updateNavState (with_state (set_isNavOpen true) w).

Definition closeNav (w : World) : World :=
  updateNavState (with_state (set_isNavOpen false) w).

Definition openChat (w : World) : World :=
  updateChatState (with_state (set_isChatOpen true) w).

Definition closeChat (w : World) : World :=
  updateChatState (with_state (set_isChatOpen false) w).

(** ** 7. Validation *)

Definition FormData_of (form : FormEl) : FormData :=
  map (fun f => (field_name f, field_value f)) (form_fields form).

(** [formData.get(name)]: the first value under that name, or [null]. *)
Fixpoint FormData_get (name : string) (formData : FormData) : option string :=
  match formData with
  | [] => None
  | (n, v) :: rest =>
      if String.eqb n name then Some v else FormData_get name rest
  end.

(** [formData.get(key)?.toString().trim()] *)
Definition getTrimmed (key : string) (formData : FormData) : option string :=
  option_map trim (FormData_get key formData).

(** [!v || v.length < n] for a value that may be [undefined] *)
Definition missingOrShorter (v : option string) (n : nat) : bool :=
  match v with
  | None => true
  | Some s => negb (truthy s) || (String.length s <? n)%nat
  end.

(** [!v || !utils.validateEmail(v)] *)
Definition missingOrNotEmail (v : option string) : bool :=
  match v with
  | None => true
  | Some s => negb (truthy s) || negb (utils.validateEmail s)
  end.

Definition validateChatForm (formData : FormData) : bool :=
  let name := getTrimmed "chat-name" formData in
  let email := getTrimmed "chat-email" formData in
  let message := getTrimmed "chat-message" formData in
  if missingOrShorter name 2 then false
  else if missingOrNotEmail email then false
  else if missingOrShorter message 10 then false
  else true.

(** [field.minLength && value.length < field.minLength] *)
Definition belowMinLength (minLength : option Z) (value : string) : bool :=
  match minLength with
  | None => false
  | Some m => negb (m =? 0) && (Z.of_nat (String.length value) <? m)
  end.

Definition validateField (field : FieldEl) : bool * FieldEl :=
  let value := trim (fe_value field) in
  let isValid := true in
  let isValid :=
    if fe_required field && negb (truthy value) then false else isValid in
  let isValid :=
    if String.eqb (fe_type field) "email" && truthy value
       && negb (utils.validateEmail value)
    then false else isValid in
  let isValid :=
    if belowMinLength (fe_minLength field) value then false else isValid in
  (isValid,
   mkFieldEl (fe_value field) (fe_required field) (fe_type field)
     (fe_minLength field) (negb isValid) (Some (ofBool (negb isValid)))).

(** ** 11. Active section *)

(** [distance < minDistance], where [None] is [Infinity] *)
Definition belowMin (distance : Z) (minDistance : option Z) : bool :=
  match minDistance with
  | None => true
  | Some m => distance <? m
  end.

(** The body of [this.elements.sections.forEach]; the accumulator is
    [(currentActive, minDistance)]. *)
Definition scanSection (scrollPosition : Z)
    (acc : option string * option Z) (section : SectionEl)
  : option string * option Z :=
  let sectionTop := section_offsetTop section in
  let sectionBottom := sectionTop + section_offsetHeight section in
  if (scrollPosition >=? sectionTop) && (scrollPosition <=? sectionBottom)
  then
    let distance := Z.abs (scrollPosition - sectionTop) in
    if belowMin distance (snd acc)
    then (Some (section_id section), Some distance)
    else acc
  else acc.

Definition scanSections (scrollPosition : Z) (secs : list SectionEl)
  : option string * option Z :=
  fold_left (scanSection scrollPosition) secs (None, None).

(** [sectionId === currentActive] *)
Definition isCurrent (sectionId : string) (currentActive : option string)
  : bool :=
  match currentActive with
  | None => false
  | Some a => String.eqb sectionId a
  end.

(** The body of [this.elements.navLinks.forEach]. *)
Definition markLink (currentActive : option string) (link : NavLinkEl)
  : NavLinkEl :=
  match link_href link with
  | Some href =>
      if truthy href && startsWith href "#" then
        let sectionId := substring1 href in
        if isCurrent sectionId currentActive
        then mkNavLink (link_href link) true (Some "page")
        else mkNavLink (link_href link) false None
      else link
  | None => link
  end.

(** [this.elements.header?.offsetHeight || 0] *)
Definition headerHeight (w : World) : Z :=
  match header (elements w) with
  | None => 0
  | Some h => if header_offsetHeight h =? 0 then 0 else header_offsetHeight h
  end.

(** [currentActive || 'home'] *)
Definition orHome (currentActive : option string) : string :=
  match currentActive with
  | None => "home"
  | Some a => if truthy a then a else "home"
  end.

Definition updateActiveNavLink (w : World) : World :=
  match navLinks (elements w) with
  | [] => w
  | _ :: _ =>
      let scrollPosition :=
        scrollPosition (state w) + headerHeight w + 100 in
      let currentActive :=
        fst (scanSections scrollPosition (sections (elements w))) in
      let w := with_elements
                 (fun e => set_navLinks (map (markLink currentActive)
                                             (navLinks e)) e) w in
      with_state (set_currentSection (orHome currentActive)) w
  end.

(** ** 4. Event handlers *)

Definition handleNavToggle (w : World) : World :=
  let w := with_state (fun s => set_isNavOpen (negb (isNavOpen s)) s) w in
  let w := updateNavState w in
  announceStateChange
    ("Navigation menu " ++ (if isNavOpen (state w) then "opened" else "closed"))
    w.

Definition handleChatToggle (w : World) : World :=
  let w := with_state (fun s => set_isChatOpen (negb (isChatOpen s)) s) w in
  let w := updateChatState w in
  let w :=
    match chatForm (elements w) with
    | Some _ =>
        if isChatOpen (state w) then setTimeout CbFocusFirstInput 100 w else w
    | None => w
    end in
  announceStateChange
    ("Support chat " ++ (if isChatOpen (state w) then "opened" else "closed")) w.

(** [this.elements.chatToggle?.focus()] *)
Definition focusChatToggle (w : World) : World :=
  match chatToggle (elements w) with
  | Some _ => focus FChatToggle w
  | None => w
  end.

(** [this.elements.navToggle?.focus()] *)
Definition focusNavToggle (w : World) : World :=
  match navToggle (elements w) with
  | Some _ => focus FNavToggle w
  | None => w
  end.

Definition handleChatClose (w : World) : World :=
  let w := with_state (set_isChatOpen false) w in
  let w := updateChatState w in
  focusChatToggle w.

(** [handleKeyDown] for [e.key === 'Escape']; the focus trap on Tab only
    moves the focus inside the panel and is left out. *)
Definition handleKeyDownEscape (w : World) : World :=
  let w :=
    if isNavOpen (state w) then
      focusNavToggle (updateNavState (with_state (set_isNavOpen false) w))
    else w in
  if isChatOpen (state w) then
    focusChatToggle (updateChatState (with_state (set_isChatOpen false) w))
  else w.

Definition handleClickOutside (target : EventTarget) (w : World) : World :=
  let outside {A} (el : option A) (inside : bool) : bool :=
    match el with Some _ => negb inside | None => true end in
  let w :=
    if isNavOpen (state w) && navList (elements w)
       && negb (inNavList target)
       && outside (navToggle (elements w)) (inNavToggle target)
    then updateNavState (with_state (set_isNavOpen false) w)
    else w in
  if isChatOpen (state w)
     && match chatPanel (elements w) with
        | Some _ => negb (inChatPanel target)
        | None => false
        end
     && outside (chatToggle (elements w)) (inChatToggle target)
  then updateChatState (with_state (set_isChatOpen false) w)
  else w.

(** [simulateApiCall], with [random] for what [Math.random()] returns: the
    executor only ever calls [resolve]. *)
Definition simulateApiCall (random : Q) : Promise :=
  let delay :=
    Number.add
      (Number.mul random
         (inject_Z (CONFIG.CHAT_MAX_RESPONSE_TIME
                    - CONFIG.CHAT_MIN_RESPONSE_TIME)))
      (inject_Z CONFIG.CHAT_MIN_RESPONSE_TIME) in
  mkPromise delay Fulfilled.

Definition update_chatForm (f : FormEl -> FormEl) (w : World) : World :=
  with_elements (fun e => set_chatForm (option_map f (chatForm e)) e) w.

(** [utils.setButtonLoading(submitButton, isLoading)] on the button of the
    chat form *)
Definition setSubmitLoading (isLoading : bool) (w : World) : World :=
  update_chatForm
    (fun form => mkForm (form_fields form)
                   (setButtonLoading (form_submit form) isLoading)
                   (form_others form)) w.

(** [handleChatSubmit] up to its [await]. *)
Definition handleChatSubmit (random : Q) (w : World) : World :=
  match chatForm (elements w) with
  | None => w
  | Some form =>
      let formData := FormData_of form in
      if negb (validateChatForm formData) then
        showChatStatus "Please fill in all required fields correctly." "error" w
      else
        let w := setSubmitLoading true w in
        let w := showChatStatus "Sending your message..." "sending" w in
        awaitChatSubmit (simulateApiCall random) w
  end.

(** [form.reset] is the method of the form only if none of its elements
    goes by the name or the id "reset": the named elements of a form come
    before the properties of its prototype, and what [form.reset] then
    yields is an element, which cannot be called. *)
Definition resetShadowed (form : FormEl) : bool :=
  existsb (String.eqb "reset")
          (map field_name (form_fields form) ++ form_others form)%list.

(** [form.reset()] on the chat form throws a [TypeError]. *)
Definition shadowed (w : World) : bool :=
  match chatForm (elements w) with
  | Some form => resetShadowed form
  | None => false
  end.

(** The catch clause of [handleChatSubmit]. *)
Definition catchChatSubmit (w : World) : World :=
  let w := console_error "Chat submission error:" w in
  showChatStatus "Sorry, something went wrong. Please try again." "error" w.

(** [handleChatSubmit] from its [await] on: [try] continues on a
    fulfilled promise, up to a call that throws; [catch] runs on a rejected
    promise and on what the rest of [try] throws; then [finally]. *)
Definition resumeChatSubmit (s : Settlement) (w : World) : World :=
  let w :=
    match s with
    | Fulfilled =>
        let w := showChatStatus
                   "Thank you! Our team will respond within 24 hours."
                   "success" w in
        if shadowed w then catchChatSubmit w
        else
          let w := update_chatForm reset w in
          let w := addChatMessage
                     "Your message has been received. We'll get back to you soon!"
                     "bot" w in
          setTimeout CbAutoCloseChat CONFIG.CHAT_AUTO_CLOSE w
    | Rejected _ => catchChatSubmit w
    end in
  let w := setSubmitLoading false w in
  setTimeout CbClearChatStatus 5000 w.

(** ** The timer loop *)

Definition hasInput (form : FormEl) : bool :=
  existsb (fun f => match field_tag f with input => true | textarea => false end)
          (form_fields form).

Definition runCallback (cb : Callback) (w : World) : World :=
  match cb with
  | CbResumeChatSubmit s => resumeChatSubmit s w
  | CbAutoCloseChat => updateChatState (with_state (set_isChatOpen false) w)
  | CbClearChatStatus => clearChatStatus w
  | CbFocusFirstInput =>
      match chatForm (elements w) with
      | Some form => if hasInput form then focus FChatFirstInput w else w
      | None => w
      end
  | CbRemoveAnnouncement node => removeAnnouncement node w
  end.

(** A listener only runs if [setupEventListeners] found its element. *)
Definition dispatch (i : Input) (w : World) : World :=
  match i with
  | NavToggleClick =>
      match navToggle (elements w) with
      | Some _ => handleNavToggle w
      | None => w
      end
  | ChatToggleClick =>
      match chatToggle (elements w) with
      | Some _ => handleChatToggle w
      | None => w
      end
  | ChatCloseClick =>
      if chatClose (elements w) then handleChatClose w else w
  | EscapeKeyDown => handleKeyDownEscape w
  | DocumentClick target => handleClickOutside target w
  | ChatFormSubmit random =>
      match chatForm (elements w) with
      | Some _ => handleChatSubmit random w
      | None => w
      end
  | CallOpenChat => openChat w
  | CallCloseChat => closeChat w
  | CallOpenNav => openNav w
  | CallCloseNav => closeNav w
  end.

(** The pending timer that is due first; among equals, the older one. *)
Fixpoint earliest (ts : list Timer) : option Timer :=
  match ts with
  | [] => None
  | t :: ts' =>
      match earliest ts' with
      | Some t' => if due t' <? due t then Some t' else Some t
      | None => Some t
      end
  end.

Definition removeTimer (id : nat) (ts : list Timer) : list Timer :=
  filter (fun t => negb (Nat.eqb (tid t) id)) ts.

Definition at_time (t : Z) (ts : list Timer) (w : World) : World :=
  mkWorld (state w) (elements w) (document w) (console w) t ts (nextTimer w).

(** A timer fires when the clock reaches its due time and no other timer
    is due before it; an input is dispatched at a time no pending timer
    has been waiting for.  [None]: the schedule is not one of the loop. *)
Definition step (e : Event) (w : World) : option World :=
  match e with
  | Fire id =>
      match earliest (timers w) with
      | Some t =>
          if Nat.eqb (tid t) id && (now w <=? due t)
          then Some (runCallback (callback t)
                       (at_time (due t) (removeTimer id (timers w)) w))
          else None
      | None => None
      end
  | At t i =>
      if (now w <=? t) && forallb (fun tm => t <=? due tm) (timers w)
      then Some (dispatch i (at_time t (timers w) w))
      else None
  end.

Fixpoint run (evs : list Event) (w : World) : option World :=
  match evs with
  | [] => Some w
  | e :: evs' =>
      match step e w with
      | Some w' => run evs' w'
      | None => None
      end
  end.

(** ** Scrolling, navigation links, resizing, form validation *)

Definition set_scrollPosition (v : Z) (s : State) : State :=
  mkState (isNavOpen s) (isChatOpen s) (currentSection s) v (deviceType s).
Definition set_deviceType (v : DeviceType) (s : State) : State :=
  mkState (isNavOpen s) (isChatOpen s) (currentSection s) (scrollPosition s) v.

(** What [window.scrollTo] is asked for. *)
Record ScrollRequest : Type := mkScroll {
  scroll_top : Z;
  scroll_smooth : bool
}.

(** [scrollToSection(sectionId)]; [getElementById] gives the [offsetTop] of
    the element of the document with that id, if there is one. *)
Definition scrollToSection (getElementById : string -> option Z)
    (prefersReducedMotion : bool) (sectionId : string) (w : World)
  : World * option ScrollRequest :=
  match getElementById sectionId with
  | None => (w, None)
  | Some sectionOffsetTop =>
      let offsetTop := sectionOffsetTop - headerHeight w - 20 in
      let request :=
        if CONFIG.SMOOTH_SCROLL_ENABLED && negb prefersReducedMotion
        then mkScroll offsetTop true
        else mkScroll offsetTop false in
      (with_state (set_currentSection sectionId) w, Some request)
  end.

(** [target?.startsWith('#')] *)
Definition isHashLink (target : option string) : bool :=
  match target with
  | Some href => startsWith href "#"
  | None => false
  end.

(** [handleNavLinkClick(e)] for a link whose [href] attribute is [target];
    the last component says whether [e.preventDefault()] was called. *)
Definition handleNavLinkClick (getElementById : string -> option Z)
    (prefersReducedMotion : bool) (target : option string) (w : World)
  : World * option ScrollRequest * bool :=
  let w :=
    if DeviceType_eqb (deviceType (state w)) mobile && isHashLink target
    then updateNavState (with_state (set_isNavOpen false) w)
    else w in
  match target with
  | Some href =>
      if startsWith href "#" then
        let sectionId := substring1 href in
        (scrollToSection getElementById prefersReducedMotion sectionId w, true)
      else ((w, None), false)
  | None => ((w, None), false)
  end.

(** The root element, as far as [updateUIStates] goes. *)
Record HtmlEl : Type := mkHtml {
  html_touch : bool;                    (* class "touch" *)
  html_no_touch : bool;                 (* class "no-touch" *)
  html_orientation : option string      (* data-orientation *)
}.

Record WindowEnv : Type := mkWindow {
  win_innerWidth : Z;
  win_innerHeight : Z;
  win_isTouch : bool    (* 'ontouchstart' in window, or touch points > 0 *)
}.

Definition updateTouchSupport (win : WindowEnv) (html : HtmlEl) : HtmlEl :=
  let isTouch := win_isTouch win in
  mkHtml isTouch (negb isTouch) (html_orientation html).

Definition updateOrientation (win : WindowEnv) (html : HtmlEl) : HtmlEl :=
  let orientation :=
    if win_innerWidth win >? win_innerHeight win
    then "landscape" else "portrait" in
  mkHtml (html_touch html) (html_no_touch html) (Some orientation).

Definition updateUIStates (win : WindowEnv) (html : HtmlEl) : HtmlEl :=
  updateOrientation win (updateTouchSupport win html).

Definition handleResize (win : WindowEnv) (w : World) (html : HtmlEl)
  : World * HtmlEl :=
  let newDeviceType := utils.getDeviceType (win_innerWidth win) in
  let w :=
    if negb (DeviceType_eqb newDeviceType (deviceType (state w))) then
      let w := with_state (set_deviceType newDeviceType) w in
      if negb (DeviceType_eqb newDeviceType mobile) && isNavOpen (state w)
      then updateNavState (with_state (set_isNavOpen false) w)
      else w
    else w in
  (w, updateUIStates win html).

(** [validateForm(form)] on the controls of the form, in tree order: the
    verdict, and the controls as [validateField] leaves them. *)
Definition validateForm (form : list FieldEl) : bool * list FieldEl :=
  fold_left
    (fun acc field =>
       if fe_required field then
         let result := validateField field in
         ((if negb (fst result) then false else fst acc),
          (snd acc ++ [snd result])%list)
       else (fst acc, (snd acc ++ [field])%list))
    form (true, []).

End eJuuzApp.

(* ================================================================== *)
(** * Listener life cycle: construction, [initApp] and [destroy] *)
(* ================================================================== *)

(** The wiring only depends on which nodes the selectors find and on what
    the browser supports. *)
Record Page : Type := mkPage {
  page_navToggle : bool;
  page_navLinks : nat;                  (* how many '#nav-list a' *)
  page_chatToggle : bool;
  page_chatClose : bool;
  page_chatForm : option nat;           (* its 'input, textarea' count *)
  page_newsletterForm : bool;
  page_forms : list string;             (* 'form:not(.chat-form)', by id *)
  page_IntersectionObserver : bool;     (* 'IntersectionObserver' in window *)
  page_nativeLazyLoading : bool;        (* 'loading' in HTMLImageElement.prototype *)
  page_serviceWorkerHttps : bool;
  page_pushState : bool;
  page_connection : bool                (* navigator.connection *)
}.

Inductive Target : Type :=
| TNavToggle
| TNavLink (i : nat)
| TChatToggle
| TChatClose
| TChatForm
| TChatInput (i : nat)
| TNewsletterForm
| TForm (i : nat)
| TBackToTop
| TWindow
| TDocument
| TConnection.

(** A function object: its identity and the application code it runs. *)
Record Handler : Type := mkHandler {
  h_id : nat;
  h_code : string
}.

Record Listener : Type := mkListener {
  l_target : Target;
  l_type : string;
  l_handler : Handler
}.

(** An entry of [this.observers]: an object with a [disconnect] method, or a
    [{ media, handler }] pair. *)
Inductive Observer : Type :=
| IntersectionObs (id : nat)
| MediaObs (media : string) (handler : Handler).

(** The application instance, as far as teardown is concerned. *)
Record App : Type := mkApp {
  eventListeners : list Listener;
  observers : list Observer
}.

Record Browser : Type := mkBrowser {
  listeners : list Listener;            (* attached, over all targets *)
  mediaListeners : list (string * Handler);
  observing : list nat;                 (* connected intersection observers *)
  backToTopAttached : bool;
  historyPatched : bool;
  nextObject : nat;
  window_eJuuzApp : option App
}.

Module Lifecycle.

Definition Target_eqb (a b : Target) : bool :=
  match a, b with
  | TNavToggle, TNavToggle | TChatToggle, TChatToggle
  | TChatClose, TChatClose | TChatForm, TChatForm
  | TNewsletterForm, TNewsletterForm | TBackToTop, TBackToTop
  | TWindow, TWindow | TDocument, TDocument
  | TConnection, TConnection => true
  | TNavLink i, TNavLink j | TChatInput i, TChatInput j
  | TForm i, TForm j => Nat.eqb i j
  | _, _ => false
  end.

(** Two listeners are the same registration: same target, same type,
    same function object. *)
Definition sameListener (a b : Listener) : bool :=
  Target_eqb (l_target a) (l_target b)
  && String.eqb (l_type a) (l_type b)
  && Nat.eqb (h_id (l_handler a)) (h_id (l_handler b)).

(** The instance under construction together with the browser. *)
Record Build : Type := mkBuild {
  browser : Browser;
  this : App
}.

Definition addEventListener (l : Listener) (b : Browser) : Browser :=
  mkBrowser (listeners b ++ [l])%list (mediaListeners b) (observing b)
    (backToTopAttached b) (historyPatched b) (nextObject b)
    (window_eJuuzApp b).

Definition removeEventListener (l : Listener) (b : Browser) : Browser :=
  mkBrowser (filter (fun x => negb (sameListener x l)) (listeners b))
    (mediaListeners b) (observing b)
    (backToTopAttached b) (historyPatched b) (nextObject b)
    (window_eJuuzApp b).

Definition allocate (b : Browser) : nat * Browser :=
  (nextObject b,
   mkBrowser (listeners b) (mediaListeners b) (observing b)
     (backToTopAttached b) (historyPatched b) (S (nextObject b))
     (window_eJuuzApp b)).

(** [const handler = ...; target.addEventListener(type, handler);] and,
    when [record], [this.eventListeners.push({ element, type, handler })]. *)
Definition listen (record : bool) (target : Target) (type code : string)
    (c : Build) : Build :=
  let (id, b) := allocate (browser c) in
  let l := mkListener target type (mkHandler id code) in
  mkBuild (addEventListener l b)
    (if record
     then mkApp (eventListeners (this c) ++ [l])%list (observers (this c))
     else this c).

Definition when (cond : bool) (f : Build -> Build) (c : Build) : Build :=
  if cond then f c else c.

(** [items.forEach((item, i) => ...)] over [n] items *)
Definition forEach (n : nat) (f : nat -> Build -> Build) (c : Build) : Build :=
  fold_left (fun c i => f i c) (seq 0 n) c.

Definition wireChatForm (inputs : nat) (c : Build) : Build :=
  let c := listen true TChatForm "submit" "handleChatSubmit" c in
  forEach inputs
    (fun i c =>
       let c := listen true (TChatInput i) "blur" "validateField" c in
       listen true (TChatInput i) "input" "clearFieldError" c) c.

Fixpoint wireForms (i : nat) (ids : list string) (c : Build) : Build :=
  match ids with
  | [] => c
  | formId :: rest =>
      let c :=
        if String.eqb formId "signup-form" || String.eqb formId "login-form"
        then c
        else listen true (TForm i) "submit" "handleFormSubmit" c in
      wireForms (S i) rest c
  end.

Definition setupEventListeners (p : Page) (c : Build) : Build :=
  let c := when (page_navToggle p)
             (listen true TNavToggle "click" "handleNavToggle") c in
  let c := forEach (page_navLinks p)
             (fun i => listen true (TNavLink i) "click" "handleNavLinkClick") c in
  let c := when (page_chatToggle p)
             (listen true TChatToggle "click" "handleChatToggle") c in
  let c := when (page_chatClose p)
             (listen true TChatClose "click" "handleChatClose") c in
  let c := match page_chatForm p with
           | Some inputs => wireChatForm inputs c
           | None => c
           end in
  let c := when (page_newsletterForm p)
             (listen true TNewsletterForm "submit" "handleNewsletterSubmit") c in
  let c := wireForms 0 (page_forms p) c in
  (* cacheElements creates the back-to-top button when there is none *)
  let c := listen true TBackToTop "click" "scrollToTop" c in
  let c := listen true TWindow "scroll" "handleScroll" c in
  let c := listen true TWindow "resize" "handleResize" c in
  let c := listen true TWindow "load" "handlePageLoad" c in
  let c := listen true TDocument "keydown" "handleKeyDown" c in
  let c := listen true TDocument "click" "handleClickOutside" c in
  listen true TDocument "visibilitychange" "handleVisibilityChange" c.

(** [new IntersectionObserver(...)] that starts observing; [record]:
    [this.observers.push(observer)]. *)
Definition observe (record : bool) (c : Build) : Build :=
  let (id, b) := allocate (browser c) in
  mkBuild
    (mkBrowser (listeners b) (mediaListeners b) (observing b ++ [id])%list
       (backToTopAttached b) (historyPatched b) (nextObject b)
       (window_eJuuzApp b))
    (if record
     then mkApp (eventListeners (this c))
                (observers (this c) ++ [IntersectionObs id])%list
     else this c).

Definition initIntersectionObserver (p : Page) (c : Build) : Build :=
  when (page_IntersectionObserver p) (observe true) c.

Definition initServiceWorker (p : Page) (c : Build) : Build :=
  when (page_serviceWorkerHttps p)
    (listen false TWindow "load" "navigator.serviceWorker.register") c.

Definition initModules (p : Page) (c : Build) : Build :=
  let c := initIntersectionObserver p c in
  (* initSmoothScrolling, initAnimations and initAnalytics wire nothing *)
  initServiceWorker p c.

(** [media.addListener(handler); this.observers.push({ media, handler })] *)
Definition watchMedia (media code : string) (c : Build) : Build :=
  let (id, b) := allocate (browser c) in
  let h := mkHandler id code in
  mkBuild
    (mkBrowser (listeners b) (mediaListeners b ++ [(media, h)])%list
       (observing b) (backToTopAttached b) (historyPatched b)
       (nextObject b) (window_eJuuzApp b))
    (mkApp (eventListeners (this c))
           (observers (this c) ++ [MediaObs media h])%list).

Definition observeSystemPreferences (c : Build) : Build :=
  let c := watchMedia "(prefers-color-scheme: dark)" "updateColorScheme" c in
  watchMedia "(prefers-reduced-motion: reduce)" "updateMotionPreference" c.

Definition patchHistory (c : Build) : Build :=
  let b := browser c in
  mkBuild
    (mkBrowser (listeners b) (mediaListeners b) (observing b)
       (backToTopAttached b) true (nextObject b) (window_eJuuzApp b))
    (this c).

Definition observeNavigationState (p : Page) (c : Build) : Build :=
  when (page_pushState p)
    (fun c =>
       let c := patchHistory c in
       let c := listen true TWindow "popstate" "dispatch locationchange" c in
       listen true TWindow "locationchange" "updateActiveNavLink" c) c.

(** The toast that [updateNetworkStatus] may show is a transient node and
    stays outside of this model. *)
Definition observeNetworkStatus (p : Page) (c : Build) : Build :=
  when (page_connection p)
    (listen false TConnection "change" "updateNetworkStatus") c.

Definition setupObservers (p : Page) (c : Build) : Build :=
  let c := observeSystemPreferences c in
  let c := observeNavigationState p c in
  observeNetworkStatus p c.

(** One [noop] function under two event types. *)
Definition setupPassiveEventListeners (c : Build) : Build :=
  let (id, b) := allocate (browser c) in
  let noop := mkHandler id "noop" in
  let b := addEventListener (mkListener TDocument "touchstart" noop) b in
  let b := addEventListener (mkListener TDocument "touchmove" noop) b in
  mkBuild b (this c).

Definition setupLazyLoadFallback (p : Page) (c : Build) : Build :=
  when (page_IntersectionObserver p) (observe false) c.

Definition setupLazyLoading (p : Page) (c : Build) : Build :=
  if page_nativeLazyLoading p then c else setupLazyLoadFallback p c.

Definition optimizePerformance (p : Page) (c : Build) : Build :=
  let c := setupPassiveEventListeners c in
  (* preloadCriticalResources wires nothing; LAZY_LOAD_ENABLED is true *)
  setupLazyLoading p c.

(** [new eJuuzApp()]: [cacheElements] leaves a back-to-top button in the
    document, then the listeners and observers are set up in the order of
    [init]. *)
Definition construct (p : Page) (b : Browser) : Build :=
  let b := mkBrowser (listeners b) (mediaListeners b) (observing b)
             true (historyPatched b) (nextObject b) (window_eJuuzApp b) in
  let c := mkBuild b (mkApp [] []) in
  let c := setupEventListeners p c in
  let c := initModules p c in
  let c := setupObservers p c in
  optimizePerformance p c.

Definition set_window_eJuuzApp (a : option App) (b : Browser) : Browser :=
  mkBrowser (listeners b) (mediaListeners b) (observing b)
    (backToTopAttached b) (historyPatched b) (nextObject b) a.

(** [initApp]: the guarded construction, then the two global handlers. *)
Definition initApp (p : Page) (b : Browser) : Browser :=
  let b :=
    match window_eJuuzApp b with
    | Some _ => b
    | None =>
        let c := construct p b in
        set_window_eJuuzApp (Some (this c)) (browser c)
    end in
  let c := mkBuild b (mkApp [] []) in
  let c := listen false TWindow "error" "window.eJuuzApp.handleError" c in
  let c := listen false TWindow "unhandledrejection"
             "window.eJuuzApp.handleError" c in
  browser c.

(** The body of [this.observers.forEach] in [destroy]. *)
Definition stopObserver (o : Observer) (b : Browser) : Browser :=
  match o with
  | IntersectionObs id =>
      mkBrowser (listeners b) (mediaListeners b)
        (filter (fun x => negb (Nat.eqb x id)) (observing b))
        (backToTopAttached b) (historyPatched b) (nextObject b)
        (window_eJuuzApp b)
  | MediaObs media handler =>
      mkBrowser (listeners b)
        (filter (fun x => negb (String.eqb (fst x) media
                                && Nat.eqb (h_id (snd x)) (h_id handler)))
                (mediaListeners b))
        (observing b)
        (backToTopAttached b) (historyPatched b) (nextObject b)
        (window_eJuuzApp b)
  end.

(** [window.eJuuzApp.destroy()]; without an instance there is nothing to
    call. *)
Definition destroy (b : Browser) : Browser :=
  match window_eJuuzApp b with
  | None => b
  | Some a =>
      let b := fold_left (fun b l => removeEventListener l b)
                         (eventListeners a) b in
      let b := fold_left (fun b o => stopObserver o b) (observers a) b in
      let b := mkBrowser (listeners b) (mediaListeners b) (observing b)
                 false (historyPatched b) (nextObject b)
                 (window_eJuuzApp b) in
      set_window_eJuuzApp (Some (mkApp [] [])) b
  end.

(** The handlers an event of [type] dispatched at [target] invokes. *)
Definition invoked (target : Target) (type : string) (b : Browser)
  : list Handler :=
  map l_handler
    (filter (fun l => Target_eqb (l_target l) target
                      && String.eqb (l_type l) type)
            (listeners b)).

Definition wired (target : Target) (b : Browser) : Prop :=
  exists l, In l (listeners b) /\ l_target l = target.

(** A browser that has loaded the page and run nothing yet. *)
Definition pristine : Browser := mkBrowser [] [] [] false false 0 None.

End Lifecycle.

(* ================================================================== *)
(** * The specification's wording, and sample data *)
(* ================================================================== *)

(** Statements of the specification that are compared with the code. *)
Module Spec.
Import JsString RegExp eJuuzApp Lifecycle.

(** The minimum length a field declares, if any: the property reads -1
    without a [minlength] attribute. *)
Definition declaredMinLength (field : FieldEl) : option Z :=
  match fe_minLength field with
  | Some m => if m <? 0 then None else Some m
  | None => None
  end.

(** "A field is valid iff (not required, or non-empty) AND (not
    type-email, or matches a simple local@domain.tld pattern) AND (no
    minimum length, or trimmed length >= minimum)." *)
Definition fieldValid (field : FieldEl) : Prop :=
  (fe_required field = false \/ trim (fe_value field) <> "")
  /\ (fe_type field <> "email"
      \/ Matches utils.re (list_ascii_of_string (fe_value field)))
  /\ match declaredMinLength field with
     | None => True
     | Some m => m <= Z.of_nat (String.length (trim (fe_value field)))
     end.

(** The vertical extent of a section, both edges included. *)
Definition contains (p : Z) (s : SectionEl) : Prop :=
  section_offsetTop s <= p <= section_offsetTop s + section_offsetHeight s.

(** [s] is a section around [p] whose top edge is nearest to [p]. *)
Definition nearestAround (secs : list SectionEl) (p : Z) (s : SectionEl)
  : Prop :=
  In s secs /\ contains p s
  /\ forall s', In s' secs -> contains p s' ->
                Z.abs (p - section_offsetTop s)
                <= Z.abs (p - section_offsetTop s').

(** The point the tracker looks at. *)
Definition trackedPoint (w : World) : Z :=
  scrollPosition (state w) + headerHeight w + 100.

(** The extent of a section as the examples of the specification write
    it, "home [0,500)": the lower edge is left out. *)
Definition within (p : Z) (s : SectionEl) : Prop :=
  section_offsetTop s <= p < section_offsetTop s + section_offsetHeight s.

(** "Selects the section whose vertical extent contains the point,
    tie-broken by minimal distance from the section's top edge; "home"
    when no section's extent contains the point." *)
Definition tracks (w w' : World) : Prop :=
  let secs := sections (elements w) in
  let p := trackedPoint w in
  (exists s, In s secs /\ within p s
             /\ (forall s', In s' secs -> within p s' ->
                            Z.abs (p - section_offsetTop s)
                            <= Z.abs (p - section_offsetTop s'))
             /\ currentSection (state w') = section_id s)
  \/ ((forall s, In s secs -> ~ within p s)
      /\ currentSection (state w') = "home").

(** "Surfaces an inline error status and returns without invoking the
    simulated transport, leaving the form contents and chat transcript
    unchanged." *)
Definition rejectedInline (w w' : World) : Prop :=
  (exists st, chatStatus (elements w') = Some st
              /\ status_className st = "chat-status status-error")
  /\ timers w' = timers w
  /\ chatForm (elements w') = chatForm (elements w)
  /\ chatMessages (elements w') = chatMessages (elements w).

(** "For every submission that reaches the Sending state, the Failure
    branch (the catch clause of handleChatSubmit) is unreachable": whatever
    happens after a submission that passes validation, the catch clause
    logs nothing. *)
Definition catchUnreachable (w : World) : Prop :=
  forall random form,
    chatForm (elements w) = Some form ->
    validateChatForm (FormData_of form) = true ->
    forall evs w',
      run evs (handleChatSubmit random w) = Some w' -> console w' = console w.

(** "[openNav(); closeNav()] restores [isNavOpen] to its pre-call value
    and removes the scroll-lock style exactly when device type is
    mobile." *)
Definition navRoundTrip (w : World) : Prop :=
  let w' := closeNav (openNav w) in
  isNavOpen (state w') = isNavOpen (state w)
  /\ (deviceType (state w) = mobile -> body_overflow (document w') = "")
  /\ (deviceType (state w) <> mobile ->
      body_overflow (document w') = body_overflow (document w)).

(** "No further event dispatched at previously-wired elements invokes
    application code." *)
Definition noListenerOutlives (before after : Browser) : Prop :=
  forall target type,
    wired target before -> invoked target type after = [].

(** What [destroy] does for the entries it finds in the two lists of the
    instance [a]. *)
Definition recordedDetached (a : App) (after : Browser) : Prop :=
  (forall l, In l (eventListeners a) -> ~ In l (listeners after))
  /\ (forall o, In o (observers a) ->
                match o with
                | IntersectionObs id => ~ In id (observing after)
                | MediaObs media h => ~ In (media, h) (mediaListeners after)
                end).

(** The teardown property as a whole. *)
Definition teardown (before : Browser) : Prop :=
  let after := destroy before in
  match window_eJuuzApp before, window_eJuuzApp after with
  | Some a, Some a' =>
      eventListeners a' = [] /\ recordedDetached a after
      /\ noListenerOutlives before after
  | _, _ => False
  end.

End Spec.

Module Sample.
Import eJuuzApp.

Definition chatPayload (name email message : string) : FormData :=
  [("chat-name", name); ("chat-email", email); ("chat-message", message)].

Definition chatFormOf (name email message : string) : FormEl :=
  mkForm [mkField input "chat-name" name "";
          mkField input "chat-email" email "";
          mkField textarea "chat-message" message ""]
         (Some (mkButton "Send" None false None)) [].

(** home [0,500], about [500,1200], contact [1200,2000] *)
Definition threeSections : list SectionEl :=
  [mkSection "home" 0 500; mkSection "about" 500 700;
   mkSection "contact" 1200 800].

Definition threeLinks : list NavLinkEl :=
  [mkNavLink (Some "#home") false None;
   mkNavLink (Some "#about") false None;
   mkNavLink (Some "#contact") false None].

Definition elementsWith (links : list NavLinkEl) (form : FormEl) : Elements :=
  mkElements (Some (mkNav false)) (Some (mkNavToggle false None)) true
    links None
    (Some (mkChatToggle None)) (Some (mkChatPanel None)) true
    (Some form) (Some (mkChatStatus "" "chat-status" None None))
    (Some []) threeSections.

(** The application right after construction, on a page that has all the
    widgets. *)
Definition worldWith (device : DeviceType) (scroll : Z)
    (links : list NavLinkEl) (form : FormEl) : World :=
  mkWorld (mkState false false "home" scroll device)
    (elementsWith links form)
    (mkDocument "" [] 0 None) [] 0 [] 0.

Definition validForm : FormEl :=
  chatFormOf "Al" "al@example.com" "0123456789".

Definition invalidForm : FormEl :=
  chatFormOf "Al" "not-an-email" "0123456789".

Definition world : World := worldWith mobile 0 threeLinks validForm.

Definition worldInvalid : World := worldWith mobile 0 threeLinks invalidForm.

(** An e-mail field that is optional and left empty. *)
Definition emptyOptionalEmail : FieldEl :=
  mkFieldEl "" false "email" (Some (-1)) false None.

(** Scrolled to 500 on a page whose '#nav-list a' selector finds nothing. *)
Definition worldWithoutLinks : World := worldWith desktop 500 [] validForm.

(** Scrolled to 1900: the point 2000 is the lower edge of "contact". *)
Definition worldAtLowerEdge : World :=
  worldWith desktop 1900 threeLinks validForm.

(** A page with one section, whose [id] attribute is empty. *)
Definition worldEmptyId : World :=
  mkWorld (mkState false false "about" 0 desktop)
    (mkElements None None false threeLinks None None None false None None
       None [mkSection "" 0 500])
    (mkDocument "" [] 0 None) [] 0 [] 0.

(** The sample page without a [.chat-status] node, the form filled in
    wrongly. *)
Definition worldNoStatus : World :=
  mkWorld (mkState false false "home" 0 mobile)
    (mkElements (Some (mkNav false)) (Some (mkNavToggle false None)) true
       threeLinks None
       (Some (mkChatToggle None)) (Some (mkChatPanel None)) true
       (Some invalidForm) None (Some []) threeSections)
    (mkDocument "" [] 0 None) [] 0 [] 0.

(** The sample form with a reset button whose [id] is "reset". *)
Definition shadowedForm : FormEl :=
  mkForm (form_fields validForm) (form_submit validForm) ["reset"].

Definition worldShadowed : World := worldWith mobile 0 threeLinks shadowedForm.

(** The menu is open on a phone. *)
Definition worldNavOpen : World := openNav world.

(** The panel is opened, the form is sent with [Math.random()] = 1/2, and
    the focus and announcement timers of the toggle fire. *)
Definition upToTransport : list Event :=
  [At 0 ChatToggleClick; At 50 (ChatFormSubmit (1 # 2)); Fire 0; Fire 1].

(** The world in which the transport timer (id 2, due at 2050) has just
    been taken out of the queue and the handler is about to resume. *)
Definition beforeSuccess : World :=
  match run upToTransport world with
  | Some w => at_time 2050 (removeTimer 2 (timers w)) w
  | None => world
  end.

(** After the success the status line is cleared, then the user closes
    the panel and opens it again. *)
Definition closeAndReopen : list Event :=
  [Fire 4; At 8000 ChatCloseClick; At 9000 ChatToggleClick; Fire 5; Fire 6].

Definition orElse (r : option World) (w : World) : World :=
  match r with Some w' => w' | None => w end.

(** The form with the reset button is sent with [Math.random()] = 1/2 and
    answered at 2000. *)
Definition caught : World :=
  orElse (run [Fire 0] (handleChatSubmit (1 # 2) worldShadowed)) worldShadowed.

(** The panel is open again, with the auto-close timer still pending. *)
Definition reopened : World :=
  orElse (run closeAndReopen (resumeChatSubmit Fulfilled beforeSuccess))
         world.

(** The auto-close timer (id 3) has fired. *)
Definition autoClosed : World := orElse (step (Fire 3) reopened) world.

(** The sample page once both widgets have been closed through the public
    methods, so that the markup shows the state. *)
Definition settledWorld : World := closeNav (closeChat world).

Definition toggles : list Event :=
  [At 0 ChatToggleClick; At 5 NavToggleClick; Fire 0; At 200 EscapeKeyDown].

Definition afterToggles : World := orElse (run toggles settledWorld) world.

(** A phone in portrait that is turned into a wide window. *)
Definition wideWindow : WindowEnv := mkWindow 1280 720 false.

Definition freshHtml : HtmlEl := mkHtml false false None.

Definition emptyPage : Page :=
  mkPage false 0 false false None false [] false false false false false.

Definition fullPage : Page :=
  mkPage true 3 true true (Some 3%nat) true ["contact-form"; "login-form"]
    true false true true true.

(** The browser after [initApp] on the page with all the widgets, and the
    instance it holds. *)
Definition booted : Browser := Lifecycle.initApp fullPage Lifecycle.pristine.

Definition instance : App :=
  match window_eJuuzApp booted with
  | Some a => a
  | None => mkApp [] []
  end.

End Sample.

(** Invariants the proofs go through. *)
Module Inv.
Import eJuuzApp.

(** The accumulator of the section scan after the sections [seen]. *)
Definition scanned (p : Z) (seen : list SectionEl)
    (acc : option string * option Z) : Prop :=
  match acc with
  | (None, None) => forall s, In s seen -> ~ Spec.contains p s
  | (Some id, Some d) =>
      exists s, Spec.nearestAround seen p s
                /\ id = section_id s
                /\ d = Z.abs (p - section_offsetTop s)
  | _ => False
  end.

(** The catch clause of [handleChatSubmit] runs on such a callback. *)
Definition rejecting (cb : Callback) : bool :=
  match cb with
  | CbResumeChatSubmit (Rejected _) => true
  | _ => false
  end.

(** What the loop maintains: timer ids are below [nextTimer], and no
    pending timer rejects a promise.  It holds with no timer pending, and
    every turn of the loop keeps it. *)
Definition wellFormed (w : World) : Prop :=
  Forall (fun t => (tid t < nextTimer w)%nat
                   /\ rejecting (callback t) = false)
         (timers w).

(** The part of the world the loop works on. *)
Definition loop (w : World) : list string * Z * list Timer * nat :=
  (console w, now w, timers w, nextTimer w).

(** From [w] to [w'] nothing was logged, the clock stood still and
    timers were only added, with fresh ids and no rejection. *)
Definition grows (w w' : World) : Prop :=
  console w' = console w /\ now w' = now w
  /\ (nextTimer w <= nextTimer w')%nat
  /\ exists added,
      timers w' = (timers w ++ added)%list
      /\ Forall (fun t => (nextTimer w <= tid t < nextTimer w')%nat
                          /\ rejecting (callback t) = false) added.

(** The timer [tm] is the only one that may carry its id. *)
Definition owns (tm : Timer) (w : World) : Prop :=
  (tid tm < nextTimer w)%nat
  /\ forall t, In t (timers w) -> tid t = tid tm -> t = tm.

End Inv.

(** Notions the further properties are stated with. *)
Module Facts.
Import eJuuzApp.

(** Consecutive times are at least [limit] apart. *)
Fixpoint spaced (limit : Z) (ts : list Z) : Prop :=
  match ts with
  | [] => True
  | t1 :: rest =>
      match rest with
      | [] => True
      | t2 :: _ => t1 + limit <= t2 /\ spaced limit rest
      end
  end.

(** What a debounced function is expected to do on a schedule: a timeout
    passes on the most recent call, [wait] ms after it; a call that is
    followed by another call before its timeout is never passed on. *)
Fixpoint settled {A : Type} (wait : Z) (pending : option (Z * A))
    (evs : list (utils.WrapperEvent A)) : list (Z * A) :=
  match evs with
  | [] => []
  | utils.Invoke t args :: evs' => settled wait (Some (t, args)) evs'
  | utils.Timeout :: evs' =>
      match pending with
      | Some (t, args) => (t + wait, args) :: settled wait None evs'
      | None => settled wait None evs'
      end
  end.

Definition isInvoke {A : Type} (e : utils.WrapperEvent A) : Prop :=
  match e with utils.Invoke _ _ => True | utils.Timeout => False end.

(** When the function was last invoked. *)
Fixpoint lastTime {A : Type} (l : list (Z * A)) : option Z :=
  match l with
  | [] => None
  | (t, _) :: rest =>
      match rest with
      | [] => Some t
      | _ :: _ => lastTime rest
      end
  end.

(** What the closure of [throttle] maintains: while the flag is up, one
    timer is pending, due [limit] after the last invocation; while it is
    down, no timer is pending and the last invocation is [limit] ago. *)
Definition throttleInv {A : Type} (limit : Z) (st : utils.Throttled A)
  : Prop :=
  spaced limit (map fst (utils.th_invocations st))
  /\ if utils.inThrottle st
     then exists t, lastTime (utils.th_invocations st) = Some t
                    /\ utils.th_timers st = [t + limit]
                    /\ utils.th_now st <= t + limit
     else utils.th_timers st = []
          /\ forall t, lastTime (utils.th_invocations st) = Some t ->
                       t + limit <= utils.th_now st.

(** What the closure of [debounce] maintains: the only pending timer is
    the one of the most recent call. *)
Definition debounceInv {A : Type} (wait : Z) (pending : option (Z * A))
    (st : utils.Debounced A) : Prop :=
  match pending with
  | Some (t, args) =>
      exists id, utils.db_timeout st = Some id
                 /\ utils.db_timers st = [(id, t + wait, args)]
  | None => utils.db_timers st = []
  end.

(** The call a timeout would pass on after the events [evs]. *)
Fixpoint pendingCall {A : Type} (pending : option (Z * A))
    (evs : list (utils.WrapperEvent A)) : option (Z * A) :=
  match evs with
  | [] => pending
  | utils.Invoke t args :: evs' => pendingCall (Some (t, args)) evs'
  | utils.Timeout :: evs' => pendingCall None evs'
  end.

(** What the markup of a widget has to agree with. *)
Definition chatView (w : World)
  : bool * option ChatPanelEl * option ChatToggleEl :=
  (isChatOpen (state w), chatPanel (elements w), chatToggle (elements w)).

Definition navView (w : World)
  : bool * DeviceType * option NavEl * option NavToggleEl * string :=
  (isNavOpen (state w), deviceType (state w), nav (elements w),
   navToggle (elements w), body_overflow (document w)).

Definition chatShown (v : bool * option ChatPanelEl * option ChatToggleEl)
  : Prop :=
  match v with
  | (open, Some panel, Some toggle) =>
      chatPanel_aria_hidden panel = Some (JsString.ofBool (negb open))
      /\ chatToggle_aria_expanded toggle = Some (JsString.ofBool open)
  | _ => False
  end.

Definition navShown
    (v : bool * DeviceType * option NavEl * option NavToggleEl * string)
  : Prop :=
  match v with
  | (open, device, Some n, Some toggle, overflow) =>
      nav_mobile_active n = open
      /\ navToggle_active toggle = open
      /\ navToggle_aria_expanded toggle = Some (JsString.ofBool open)
      /\ (device = mobile -> overflow = if open then "hidden" else "")
  | _ => False
  end.

(** The chat panel and its toggle are both on the page, and they show
    [isChatOpen]. *)
Definition chatReconciled (w : World) : Prop := chatShown (chatView w).

(** The nav and its toggle are both on the page, and they show
    [isNavOpen], and so does the scroll lock of the body on a phone. *)
Definition navReconciled (w : World) : Prop := navShown (navView w).

(** Each widget that is reconciled in [w] is reconciled in [w']. *)
Definition stays (w w' : World) : Prop :=
  (chatReconciled w -> chatReconciled w')
  /\ (navReconciled w -> navReconciled w').

(** What [updateChatState] and [updateNavState] do to the views. *)
Definition syncChat (v : bool * option ChatPanelEl * option ChatToggleEl)
  : bool * option ChatPanelEl * option ChatToggleEl :=
  match v with
  | (open, Some _, Some _) =>
      (open, Some (mkChatPanel (Some (JsString.ofBool (negb open)))),
       Some (mkChatToggle (Some (JsString.ofBool open))))
  | _ => v
  end.

Definition syncNav
    (v : bool * DeviceType * option NavEl * option NavToggleEl * string)
  : bool * DeviceType * option NavEl * option NavToggleEl * string :=
  match v with
  | (open, device, Some _, Some _, overflow) =>
      (open, device, Some (mkNav open),
       Some (mkNavToggle open (Some (JsString.ofBool open))),
       if DeviceType_eqb device mobile
       then (if open then "hidden" else "") else overflow)
  | _ => v
  end.

(** What an assignment to [isChatOpen] or [isNavOpen] does to them. *)
Definition chatOpenTo (f : bool -> bool)
    (v : bool * option ChatPanelEl * option ChatToggleEl)
  : bool * option ChatPanelEl * option ChatToggleEl :=
  match v with (open, panel, toggle) => (f open, panel, toggle) end.

Definition navOpenTo (f : bool -> bool)
    (v : bool * DeviceType * option NavEl * option NavToggleEl * string)
  : bool * DeviceType * option NavEl * option NavToggleEl * string :=
  match v with
  | (open, device, n, toggle, overflow) => (f open, device, n, toggle, overflow)
  end.

(** Whether a click at [target] closes the menu, and the chat. *)
Definition closesNav (target : EventTarget) (w : World) : bool :=
  isNavOpen (state w) && navList (elements w) && negb (inNavList target)
  && match navToggle (elements w) with
     | Some _ => negb (inNavToggle target)
     | None => true
     end.

Definition closesChat (target : EventTarget) (w : World) : bool :=
  isChatOpen (state w)
  && match chatPanel (elements w) with
     | Some _ => negb (inChatPanel target)
     | None => false
     end
  && match chatToggle (elements w) with
     | Some _ => negb (inChatToggle target)
     | None => true
     end.

(** The live regions that [announceStateChange] has put into the document,
    and the ones a pending timer is going to remove. *)
Definition live (w : World) : list nat :=
  map fst (body_announcements (document w)).

Definition removing (t : Timer) : list nat :=
  match callback t with
  | CbRemoveAnnouncement node => [node]
  | _ => []
  end.

Definition waiting (w : World) : list nat := flat_map removing (timers w).

(** The part of the world the announcements depend on. *)
Definition liveView (w : World)
  : list (nat * string) * nat * list Timer * nat * Z :=
  (body_announcements (document w), nextNode (document w), timers w,
   nextTimer w, now w).

(** Every live region of the document has its removal pending, and the
    other way round; the removal is due within a second; nodes and timer
    ids are not used twice. *)
Definition tidy (w : World) : Prop :=
  live w = waiting w
  /\ NoDup (live w)
  /\ Forall (fun n => (n < nextNode (document w))%nat) (live w)
  /\ NoDup (map tid (timers w))
  /\ Forall (fun t => (tid t < nextTimer w)%nat) (timers w)
  /\ Forall (fun t => removing t <> [] -> now w <= due t <= now w + 1000)
            (timers w).

End Facts.

(** Book-keeping for the wiring: which registrations the instance has on
    record, and which ones it has not. *)
Module Wiring.
Import Lifecycle.

(** What a registration is to the page: where, for what, running what. *)
Definition triple (l : Listener) : Target * string * string :=
  (l_target l, l_type l, h_code (l_handler l)).

(** [removeEventListener] with an entry of [a.eventListeners] would detach
    [x]. *)
Definition recorded (a : App) (x : Listener) : bool :=
  existsb (sameListener x) (eventListeners a).

(** [a.observers] holds the intersection observer [id]. *)
Definition recordedObserver (a : App) (id : nat) : bool :=
  existsb (fun o => match o with
                    | IntersectionObs j => Nat.eqb id j
                    | MediaObs _ _ => false
                    end)
          (observers a).

Definition unrecorded (c : Build) : list Listener :=
  filter (fun x => negb (recorded (this c) x)) (listeners (browser c)).

Definition unrecordedObservers (c : Build) : list nat :=
  filter (fun id => negb (recordedObserver (this c) id))
         (observing (browser c)).

(** Function objects and observers made so far are older than the next
    one, and every media-query listener is on record. *)
Definition fresh (c : Build) : Prop :=
  let n := nextObject (browser c) in
  Forall (fun l => (h_id (l_handler l) < n)%nat) (listeners (browser c))
  /\ Forall (fun l => (h_id (l_handler l) < n)%nat) (eventListeners (this c))
  /\ Forall (fun id => (id < n)%nat) (observing (browser c))
  /\ Forall (fun o => match o with
                      | IntersectionObs id => (id < n)%nat
                      | MediaObs _ _ => True
                      end) (observers (this c))
  /\ (forall m h, In (m, h) (mediaListeners (browser c)) ->
                  In (MediaObs m h) (observers (this c))).

(** A step of the construction leaves [ls] and [os] more off the record and
    patches the history when [patch]. *)
Definition adds (f : Build -> Build) (ls : list (Target * string * string))
    (os : nat) (patch : bool) : Prop :=
  forall c, fresh c ->
    fresh (f c)
    /\ map triple (unrecorded (f c)) = (map triple (unrecorded c) ++ ls)%list
    /\ List.length (unrecordedObservers (f c))
       = (List.length (unrecordedObservers c) + os)%nat
    /\ window_eJuuzApp (browser (f c)) = window_eJuuzApp (browser c)
    /\ backToTopAttached (browser (f c)) = backToTopAttached (browser c)
    /\ historyPatched (browser (f c)) = historyPatched (browser c) || patch.

(** [c] is a later stage of [c0] with nothing more off the record. *)
Definition keeps (c0 c : Build) : Prop :=
  fresh c
  /\ map triple (unrecorded c) = map triple (unrecorded c0)
  /\ List.length (unrecordedObservers c) = List.length (unrecordedObservers c0)
  /\ window_eJuuzApp (browser c) = window_eJuuzApp (browser c0)
  /\ backToTopAttached (browser c) = backToTopAttached (browser c0)
  /\ historyPatched (browser c) = historyPatched (browser c0).

(** The registrations no list of the instance knows, in the order in which
    [initApp] makes them. *)
Definition leaked (p : Page) : list (Target * string * string) :=
  ((if page_serviceWorkerHttps p
    then [(TWindow, "load", "navigator.serviceWorker.register")] else [])
   ++ (if page_connection p
       then [(TConnection, "change", "updateNetworkStatus")] else [])
   ++ [(TDocument, "touchstart", "noop"); (TDocument, "touchmove", "noop");
       (TWindow, "error", "window.eJuuzApp.handleError");
       (TWindow, "unhandledrejection", "window.eJuuzApp.handleError")])%list.

End Wiring.

(** * Toasts

    [showToast] and the callbacks it leaves behind, on the part of the page
    they touch: the [.toast-message] nodes of the document, the queue of
    animation-frame callbacks and the pending timeouts.  A node that has
    been removed is never put back and its classes are never read again, so
    only the nodes in the document are kept. *)
Module Toast.

Record ToastEl : Type := mkToast {
  toast_node : nat;                     (* which node it is *)
  toast_className : string;
  toast_content : string;               (* inside [.toast-content] *)
  toast_show : bool                     (* class "show" *)
}.

(** What a timeout runs: [hideToast], or [() => toast.remove()]. *)
Inductive Task : Type :=
| HideToast (node : nat)
| RemoveToast (node : nat).

Record Body : Type := mkBody {
  toasts : list ToastEl;                (* in tree order *)
  frames : list nat;                    (* requestAnimationFrame: add "show" *)
  timeouts : list (Z * Task);           (* due time, callback *)
  clock : Z;
  nextToast : nat
}.

(** [toast.classList.add('show')], [toast.classList.remove('show')] *)
Definition setShow (node : nat) (v : bool) (ts : list ToastEl)
  : list ToastEl :=
  map (fun x => if Nat.eqb (toast_node x) node
                then mkToast (toast_node x) (toast_className x)
                       (toast_content x) v
                else x) ts.

(** [toast.remove()] *)
Definition removeNode (node : nat) (ts : list ToastEl) : list ToastEl :=
  filter (fun x => negb (Nat.eqb (toast_node x) node)) ts.

Definition showToast (message type : string) (b : Body) : Body :=
  (* utils.$('.toast-message') is the first one in tree order *)
  let remaining := match toasts b with
                   | [] => []
                   | existingToast :: rest => rest
                   end in
  let node := nextToast b in
  let toast := mkToast node ("toast-message toast-" ++ type) message false in
  (* document.body.appendChild(toast): last in tree order *)
  mkBody (remaining ++ [toast])%list
         (frames b ++ [node])%list
         (timeouts b ++ [(clock b + 5000, HideToast node)])%list
         (clock b) (S node).

Definition hideToast (node : nat) (b : Body) : Body :=
  mkBody (setShow node false (toasts b)) (frames b)
         (timeouts b ++ [(clock b + 300, RemoveToast node)])%list
         (clock b) (nextToast b).

Definition runTask (task : Task) (b : Body) : Body :=
  match task with
  | HideToast node => hideToast node b
  | RemoveToast node =>
      mkBody (removeNode node (toasts b)) (frames b) (timeouts b) (clock b)
             (nextToast b)
  end.

(** The callbacks of one animation frame, in the order of their requests. *)
Definition runFrames (b : Body) : Body :=
  mkBody (fold_left (fun ts node => setShow node true ts) (frames b)
                    (toasts b))
         [] (timeouts b) (clock b) (nextToast b).

Inductive ToastEvent : Type :=
| Show (t : Z) (message type : string)  (* a call of [showToast] *)
| CloseClick (t : Z) (node : nat)       (* on [.toast-close] of a toast *)
| AnimationFrame (t : Z)
| TimerDue (i : nat).                   (* the [i]-th pending timeout fires *)

(** Nothing is overdue at [t]. *)
Definition idle (t : Z) (b : Body) : bool :=
  (clock b <=? t) && forallb (fun x => t <=? fst x) (timeouts b).

Definition at_clock (t : Z) (b : Body) : Body :=
  mkBody (toasts b) (frames b) (timeouts b) t (nextToast b).

Definition dropTimeout (i : nat) (b : Body) : Body :=
  mkBody (toasts b) (frames b)
         (firstn i (timeouts b) ++ skipn (S i) (timeouts b))%list
         (clock b) (nextToast b).

(** A timeout fires at its due time, when none is due before it; a close
    button can only be clicked on a toast of the document.  [None]: not a
    schedule of the event loop. *)
Definition step (e : ToastEvent) (b : Body) : option Body :=
  match e with
  | Show t message type =>
      if idle t b then Some (showToast message type (at_clock t b)) else None
  | CloseClick t node =>
      if idle t b && existsb (fun x => Nat.eqb (toast_node x) node) (toasts b)
      then Some (hideToast node (at_clock t b)) else None
  | AnimationFrame t =>
      if idle t b then Some (runFrames (at_clock t b)) else None
  | TimerDue i =>
      match nth_error (timeouts b) i with
      | Some (due, task) =>
          if idle due b
          then Some (runTask task (at_clock due (dropTimeout i b)))
          else None
      | None => None
      end
  end.

Fixpoint run (evs : list ToastEvent) (b : Body) : option Body :=
  match evs with
  | [] => Some b
  | e :: evs' =>
      match step e b with
      | Some b' => run evs' b'
      | None => None
      end
  end.

(** The arguments of the last call of [showToast] in [evs], [c] if there is
    none. *)
Definition lastShown (c : option (string * string)) (evs : list ToastEvent)
  : option (string * string) :=
  fold_left (fun c e => match e with
                        | Show _ message type => Some (message, type)
                        | _ => c
                        end) evs c.

(** Neither a call of [showToast] nor a click. *)
Definition passive (e : ToastEvent) : bool :=
  match e with
  | AnimationFrame _ | TimerDue _ => true
  | Show _ _ _ | CloseClick _ _ => false
  end.

Definition attached (node : nat) (b : Body) : Prop :=
  In node (map toast_node (toasts b)).

Definition taskNode (task : Task) : nat :=
  match task with HideToast n | RemoveToast n => n end.

(** No pending timeout is about a node that does not exist yet. *)
Definition older (b : Body) : Prop :=
  Forall (fun x => (taskNode (snd x) < nextToast b)%nat) (timeouts b).

(** At most one toast, and it says what the call [c] said. *)
Definition single (c : option (string * string)) (b : Body) : Prop :=
  (List.length (toasts b) <= 1)%nat
  /\ forall message type, c = Some (message, type) ->
       forall x, In x (toasts b) ->
                 toast_content x = message
                 /\ toast_className x = "toast-message toast-" ++ type.

(** The clock has not passed a pending timeout. *)
Definition punctual (b : Body) : Prop :=
  Forall (fun x => clock b <= fst x) (timeouts b).

(** The toast [node], shown at [t], with nothing but its own timers at
    work: its [hideToast] is due 5000 ms after [t] and its removal 300 ms
    later; while it is in the document one of the two is pending. *)
Definition lingering (node : nat) (t : Z) (b : Body) : Prop :=
  punctual b
  /\ (forall due task, In (due, task) (timeouts b) ->
        taskNode task = node ->
        (task = HideToast node /\ due = t + 5000)
        \/ (task = RemoveToast node /\ due = t + 5300))
  /\ (attached node b \/ t + 5300 <= clock b)
  /\ (attached node b ->
      exists due task, In (due, task) (timeouts b) /\ taskNode task = node).

(** An empty page at time 0. *)
Definition blank : Body := mkBody [] [] [] 0 0.

(** Two calls one second apart, an animation frame in between, and the
    first toast's [hideToast] firing at 5000. *)
Definition twoCalls : list ToastEvent :=
  [Show 0 "Saved" "success"; AnimationFrame 16; Show 1000 "Failed" "error";
   TimerDue 0%nat].

Definition afterTwoCalls : Body :=
  match run twoCalls blank with Some b => b | None => blank end.

Definition shown : Body := showToast "Saved" "success" blank.

(** One animation frame, then [hideToast] at 5000. *)
Definition hidden : Body :=
  match run [AnimationFrame 16; TimerDue 0%nat] shown with
  | Some b => b
  | None => blank
  end.

End Toast.

(** * Scrolling

    What the scroll handler does to nodes outside of [this.elements]'
    part of the world above: the classes it toggles and the lazy
    images. *)
Module Pages.
Import JsString eJuuzApp.

Record LazyImg : Type := mkImg {
  img_rect : utils.DOMRect;             (* getBoundingClientRect() *)
  img_loaded : bool                     (* class "loaded" *)
}.

Record ScrollChrome : Type := mkChrome {
  header_scrolled : bool;               (* class "scrolled" of the header *)
  backToTop_visible : bool;             (* class "visible" of #back-to-top *)
  lazyImages : list LazyImg             (* img[loading="lazy"] *)
}.

(** [lazyLoadImages]: the selector leaves out the images that carry the
    class already. *)
Definition lazyLoadImages (window : utils.Viewport) (imgs : list LazyImg)
  : list LazyImg :=
  map (fun img =>
         if negb (img_loaded img)
            && utils.isInViewport (Some (img_rect img)) 200 window
         then mkImg (img_rect img) true
         else img) imgs.

(** [window.pageYOffset || document.documentElement.scrollTop] *)
Definition scrollTopOf (pageYOffset documentScrollTop : Z) : Z :=
  if pageYOffset =? 0 then documentScrollTop else pageYOffset.

(** [handleScroll]; the back-to-top button exists since [cacheElements],
    and [CONFIG.LAZY_LOAD_ENABLED] is true. *)
Definition handleScroll (pageYOffset documentScrollTop : Z)
    (window : utils.Viewport) (w : World) (c : ScrollChrome)
  : World * ScrollChrome :=
  let scrollTop := scrollTopOf pageYOffset documentScrollTop in
  let w := with_state (set_scrollPosition scrollTop) w in
  let scrolled :=
    match header (elements w) with
    | Some _ => scrollTop >? CONFIG.SCROLL_THRESHOLD
    | None => header_scrolled c
    end in
  let visible := scrollTop >? 300 in
  let w := updateActiveNavLink w in
  (w, mkChrome scrolled visible (lazyLoadImages window (lazyImages c))).

(** A phone window and two lazy images, one of them in view. *)
Definition phone : utils.Viewport := utils.mkViewport 390 844.

Definition gallery : ScrollChrome :=
  mkChrome false false
    [mkImg (utils.mkRect 300 500 20 370) false;
     mkImg (utils.mkRect 1200 1400 20 370) false].

End Pages.

(* ================================================================== *)
(** * Properties *)
(* ================================================================== *)

Import JsString RegExp.

(** ** The matcher decides the declarative semantics *)

Section MatcherCorrect.

Lemma nullable_nil (r : regex) : nullable r = true -> Matches r [].
Proof.
  induction r; simpl; intros H; try discriminate.
  - constructor.
  - apply andb_prop in H as [H1 H2].
    change (@nil ascii) with (@nil ascii ++ [])%list.
    constructor; auto.
  - apply orb_prop in H as [H | H]; [apply MAltL | apply MAltR]; auto.
  - constructor.
Qed.

Lemma nil_nullable (r : regex) (s : list ascii) :
  Matches r s -> s = [] -> nullable r = true.
Proof.
  induction 1; intros E; simpl; try discriminate; auto.
  - apply app_eq_nil in E as [E1 E2].
    rewrite IHMatches1, IHMatches2; auto.
  - rewrite IHMatches; auto.
  - rewrite IHMatches; auto using orb_true_r.
Qed.

Lemma deriv_sound (c : ascii) (r : regex) :
  forall s, Matches (deriv c r) s -> Matches r (c :: s).
Proof.
  induction r; simpl; intros s H.
  - inversion H.
  - inversion H.
  - destruct (p c) eqn:Hp; inversion H; subst. now constructor.
  - destruct (nullable r1) eqn:Hn.
    + inversion H; subst.
      * match goal with
        | M : Matches (Cat _ _) _ |- _ => inversion M; subst
        end.
        change (c :: (s1 ++ s2)%list) with ((c :: s1) ++ s2)%list.
        constructor; auto.
      * change (c :: s) with ([] ++ c :: s)%list.
        constructor; auto using nullable_nil.
    + inversion H; subst.
      change (c :: (s1 ++ s2)%list) with ((c :: s1) ++ s2)%list.
      constructor; auto.
  - inversion H; subst; [apply MAltL | apply MAltR]; auto.
  - inversion H; subst.
    change (c :: (s1 ++ s2)%list) with ((c :: s1) ++ s2)%list.
    constructor; auto.
Qed.

Lemma deriv_complete (r : regex) (w : list ascii) :
  Matches r w -> forall c s, w = c :: s -> Matches (deriv c r) s.
Proof.
  induction 1; intros a t E; simpl; try discriminate.
  - injection E as -> <-. rewrite H. constructor.
  - destruct s1 as [|b s1'].
    + simpl in E. subst s2.
      rewrite (nil_nullable _ _ H eq_refl).
      apply MAltR. auto.
    + simpl in E. injection E as -> <-.
      destruct (nullable r1).
      * apply MAltL. constructor; auto.
      * constructor; auto.
  - apply MAltL; auto.
  - apply MAltR; auto.
  - destruct s1 as [|b s1'].
    + simpl in E. apply (IHMatches2 _ _ E).
    + simpl in E. injection E as -> <-.
      constructor; auto.
Qed.

Lemma matchb_Matches (s : list ascii) :
  forall r, matchb r s = true <-> Matches r s.
Proof.
  induction s as [|c s IH]; intros r; simpl.
  - split; [apply nullable_nil | intros H; apply (nil_nullable _ _ H eq_refl)].
  - rewrite IH. split.
    + apply deriv_sound.
    + intros H. apply (deriv_complete _ _ H _ _ eq_refl).
Qed.

End MatcherCorrect.

(** ** The words of the e-mail pattern *)

Lemma Matches_star_class (p : ascii -> bool) (s : list ascii) :
  Matches (Star (Cls p)) s <-> Forall (fun c => p c = true) s.
Proof.
  split.
  - intros H. remember (Star (Cls p)) as r eqn:E.
    induction H; try discriminate; [constructor|].
    injection E as ->. inversion H; subst. simpl. constructor; auto.
  - induction 1 as [|c s Hc _ IH]; [constructor|].
    change (c :: s) with ([c] ++ s)%list. constructor; [now constructor | auto].
Qed.

Lemma Matches_plus_class (p : ascii -> bool) (s : list ascii) :
  Matches (Plus (Cls p)) s <-> s <> [] /\ Forall (fun c => p c = true) s.
Proof.
  unfold Plus. split.
  - intros H. inversion H; subst.
    match goal with M : Matches (Cls p) _ |- _ => inversion M; subst end.
    split; [discriminate|]. simpl. constructor; auto.
    now apply Matches_star_class.
  - intros [Hne Hall]. destruct Hall as [|c s Hc Hall]; [congruence|].
    change (c :: s) with ([c] ++ s)%list.
    constructor; [now constructor | now apply Matches_star_class].
Qed.

Lemma Matches_Chr (a : ascii) (s : list ascii) :
  Matches (Chr a) s <-> s = [a].
Proof.
  unfold Chr. split.
  - intros H. inversion H; subst.
    match goal with E : Ascii.eqb _ _ = true |- _ =>
      apply Ascii.eqb_eq in E; now subst end.
  - intros ->. constructor. apply Ascii.eqb_refl.
Qed.

(** A word of the pattern is a local part, an at sign, a domain, a dot and
    a last label, each part non-empty and free of white space and at
    signs. *)
Lemma re_shape (s : list ascii) :
  Matches utils.re s
  <-> exists l d t,
      s = (l ++ "@"%char :: d ++ "."%char :: t)%list
      /\ l <> [] /\ d <> [] /\ t <> []
      /\ Forall (fun c => utils.notSpaceAt c = true) l
      /\ Forall (fun c => utils.notSpaceAt c = true) d
      /\ Forall (fun c => utils.notSpaceAt c = true) t.
Proof.
  unfold utils.re. split.
  - intros H.
    inversion H as [| |? ? l r1 Hl H1| | | |]; subst.
    inversion H1 as [| |? ? a r2 Ha H2| | | |]; subst.
    inversion H2 as [| |? ? d r3 Hd H3| | | |]; subst.
    inversion H3 as [| |? ? o t Ho Ht| | | |]; subst.
    apply Matches_Chr in Ha, Ho. subst a o.
    apply Matches_plus_class in Hl as [? ?], Hd as [? ?], Ht as [? ?].
    exists l, d, t. simpl. auto 10.
  - intros (l & d & t & -> & Hl & Hd & Ht & Al & Ad & At').
    constructor; [now apply Matches_plus_class|].
    change ("@"%char :: d ++ "."%char :: t)%list
      with (["@"%char] ++ d ++ ["."%char] ++ t)%list.
    constructor; [now apply Matches_Chr|].
    constructor; [now apply Matches_plus_class|].
    constructor; [now apply Matches_Chr | now apply Matches_plus_class].
Qed.

(** ** A character map that no class can tell apart *)

Section StableClasses.
Variable f : ascii -> ascii.

Lemma deriv_stable (r : regex) (c : ascii) :
  classes_stable f r -> deriv (f c) r = deriv c r.
Proof.
  induction r; simpl; intros H; auto.
  - now rewrite H.
  - destruct H as [H1 H2]. now rewrite IHr1, IHr2.
  - destruct H as [H1 H2]. now rewrite IHr1, IHr2.
  - now rewrite IHr.
Qed.

Lemma classes_stable_deriv (r : regex) (c : ascii) :
  classes_stable f r -> classes_stable f (deriv c r).
Proof.
  induction r; simpl; intros H; auto.
  - destruct (p c); simpl; auto.
  - destruct H as [H1 H2]. destruct (nullable r1); simpl; auto.
  - destruct H as [H1 H2]. auto.
Qed.

Lemma matchb_map (s : list ascii) :
  forall r, classes_stable f r -> matchb r (map f s) = matchb r s.
Proof.
  induction s as [|c s IH]; intros r H; simpl; auto.
  rewrite deriv_stable by assumption.
  apply IH, classes_stable_deriv, H.
Qed.

End StableClasses.

Lemma toLowerCase_map (s : string) :
  list_ascii_of_string (toLowerCase s)
  = map lowerChar (list_ascii_of_string s).
Proof. induction s as [|c s IH]; simpl; congruence. Qed.

Lemma re_stable : classes_stable lowerChar utils.re.
Proof.
  unfold utils.re, Plus, Chr; simpl.
  assert (Hn : forall c, utils.notSpaceAt (lowerChar c) = utils.notSpaceAt c)
    by (intros [[] [] [] [] [] [] [] []]; reflexivity).
  assert (Ha : forall c, Ascii.eqb "@" (lowerChar c) = Ascii.eqb "@" c)
    by (intros [[] [] [] [] [] [] [] []]; reflexivity).
  assert (Hd : forall c, Ascii.eqb "." (lowerChar c) = Ascii.eqb "." c)
    by (intros [[] [] [] [] [] [] [] []]; reflexivity).
  repeat split; assumption.
Qed.

(** Lower-casing the argument first does not change the verdict. *)
Lemma validateEmail_test (s : string) :
  utils.validateEmail s = test utils.re s.
Proof.
  unfold utils.validateEmail, test.
  rewrite toLowerCase_map. apply matchb_map, re_stable.
Qed.

Lemma validateEmail_Matches (s : string) :
  utils.validateEmail s = true <-> Matches utils.re (list_ascii_of_string s).
Proof. rewrite validateEmail_test. apply matchb_Matches. Qed.

(** C7: [validateEmail s] is true exactly when [s] matches
    [^[^\s@]+@[^\s@]+\.[^\s@]+$]; "a@b.co" passes, "a@b" and "a b@c.co"
    do not. *)
Theorem validateEmail_iff_regex :
  (forall s : string,
      utils.validateEmail s = true
      <-> Matches utils.re (list_ascii_of_string s))
  /\ utils.validateEmail "a@b.co" = true
  /\ utils.validateEmail "a@b" = false
  /\ utils.validateEmail "a b@c.co" = false.
Proof.
  split; [exact validateEmail_Matches|].
  repeat split; reflexivity.
Qed.

(** C6: a width below 768 is mobile, one from 768 up to but not including
    1024 is tablet, anything else is desktop, and only those. *)
Theorem getDeviceType_breakpoints (w : Z) :
  (utils.getDeviceType w = mobile <-> w < 768)
  /\ (utils.getDeviceType w = tablet <-> 768 <= w < 1024)
  /\ (utils.getDeviceType w = desktop <-> ~ w < 768 /\ ~ 768 <= w < 1024).
Proof.
  unfold utils.getDeviceType, CONFIG.MOBILE_BREAKPOINT, CONFIG.TABLET_BREAKPOINT.
  destruct (Z.ltb_spec w 768); destruct (Z.ltb_spec w 1024);
    repeat split; intros; try discriminate; try lia.
Qed.

(** ** Validation *)

Import eJuuzApp.

Lemma truthy_false (s : string) : truthy s = false <-> s = "".
Proof. destruct s; simpl; split; intros H; congruence. Qed.

Lemma truthy_true (s : string) : truthy s = true <-> s <> "".
Proof. destruct s; simpl; split; intros H; congruence. Qed.

Lemma missingOrShorter_false (v : option string) (n : nat) :
  (0 < n)%nat ->
  missingOrShorter v n = false
  <-> exists s, v = Some s /\ (n <= String.length s)%nat.
Proof.
  intros Hn. destruct v as [s|]; simpl.
  - rewrite orb_false_iff, negb_false_iff, Nat.ltb_ge. split.
    + intros [_ H]. eauto.
    + intros (s' & [= <-] & H). split; auto.
      destruct s; simpl in *; auto. lia.
  - split; [discriminate | intros (s & [=] & _)].
Qed.

Lemma missingOrNotEmail_false (v : option string) :
  missingOrNotEmail v = false
  <-> exists s, v = Some s /\ utils.validateEmail s = true.
Proof.
  destruct v as [s|]; simpl.
  - rewrite orb_false_iff, !negb_false_iff. split.
    + intros [_ H]. eauto.
    + intros (s' & [= <-] & H). split; auto.
      destruct s; [discriminate H | reflexivity].
  - split; [discriminate | intros (s & [=] & _)].
Qed.

Lemma getTrimmed_Some (key : string) (formData : FormData) (t : string) :
  getTrimmed key formData = Some t
  <-> exists v, FormData_get key formData = Some v /\ t = trim v.
Proof.
  unfold getTrimmed. destruct (FormData_get key formData) as [v|]; simpl.
  - split; [intros [= <-]; eauto | intros (v' & [= <-] & ->); auto].
  - split; [discriminate | intros (v' & [=] & _)].
Qed.

(** C4: the chat form is accepted exactly when the trimmed name has at
    least 2 characters, the trimmed e-mail passes [validateEmail] and the
    trimmed message has at least 10 characters; "Al" is long enough for a
    name and "A" is not, 10 characters are enough for a message and 9 are
    not. *)
Theorem validateChatForm_thresholds :
  (forall formData : FormData,
      validateChatForm formData = true
      <-> exists name email message,
          FormData_get "chat-name" formData = Some name
          /\ FormData_get "chat-email" formData = Some email
          /\ FormData_get "chat-message" formData = Some message
          /\ (2 <= String.length (trim name))%nat
          /\ utils.validateEmail (trim email) = true
          /\ (10 <= String.length (trim message))%nat)
  /\ validateChatForm (Sample.chatPayload "Al" "a@b.co" "0123456789") = true
  /\ validateChatForm (Sample.chatPayload "A" "a@b.co" "0123456789") = false
  /\ validateChatForm (Sample.chatPayload "Al" "a@b.co" "012345678") = false
  /\ missingOrShorter (Some "Al") 2 = false
  /\ missingOrShorter (Some "A") 2 = true
  /\ missingOrShorter (Some "012345678") 10 = true
  /\ missingOrShorter (Some "0123456789") 10 = false.
Proof.
  split; [|repeat split; reflexivity].
  intros formData. unfold validateChatForm.
  destruct (missingOrShorter (getTrimmed "chat-name" formData) 2) eqn:Hn.
  { split; [discriminate|]. intros (n & e & m & Gn & _ & _ & Ln & _).
    assert (H : missingOrShorter (getTrimmed "chat-name" formData) 2 = false).
    { apply missingOrShorter_false; [lia|]. exists (trim n). split; auto.
      apply getTrimmed_Some; eauto. }
    congruence. }
  destruct (missingOrNotEmail (getTrimmed "chat-email" formData)) eqn:He.
  { split; [discriminate|]. intros (n & e & m & _ & Ge & _ & _ & Ve & _).
    assert (H : missingOrNotEmail (getTrimmed "chat-email" formData) = false).
    { apply missingOrNotEmail_false. exists (trim e). split; auto.
      apply getTrimmed_Some; eauto. }
    congruence. }
  destruct (missingOrShorter (getTrimmed "chat-message" formData) 10) eqn:Hm.
  { split; [discriminate|]. intros (n & e & m & _ & _ & Gm & _ & _ & Lm).
    assert (H : missingOrShorter (getTrimmed "chat-message" formData) 10 = false).
    { apply missingOrShorter_false; [lia|]. exists (trim m). split; auto.
      apply getTrimmed_Some; eauto. }
    congruence. }
  split; [intros _ | reflexivity].
  apply missingOrShorter_false in Hn as (tn & Gn & Ln); [|lia].
  apply missingOrNotEmail_false in He as (te & Ge & Ve).
  apply missingOrShorter_false in Hm as (tm & Gm & Lm); [|lia].
  apply getTrimmed_Some in Gn as (n & Gn & ->).
  apply getTrimmed_Some in Ge as (e & Ge & ->).
  apply getTrimmed_Some in Gm as (m & Gm & ->).
  exists n, e, m. auto 10.
Qed.

Lemma belowMinLength_false (field : FieldEl) (value : string) :
  belowMinLength (fe_minLength field) value = false
  <-> match Spec.declaredMinLength field with
      | None => True
      | Some m => m <= Z.of_nat (String.length value)
      end.
Proof.
  unfold belowMinLength, Spec.declaredMinLength.
  destruct (fe_minLength field) as [m|]; [|tauto].
  destruct (Z.ltb_spec m 0); destruct (Z.eqb_spec m 0);
    destruct (Z.ltb_spec (Z.of_nat (String.length value)) m);
    simpl; split; intros; try discriminate; try tauto; try lia.
Qed.

(** C3, as worded, fails: an optional e-mail field that is left empty is
    valid for [validateField], while the empty string does not match the
    pattern. *)
Lemma validateField_empty_email_counterexample :
  fst (validateField Sample.emptyOptionalEmail) = true
  /\ ~ Spec.fieldValid Sample.emptyOptionalEmail.
Proof.
  split; [reflexivity|].
  intros (_ & [H | H] & _).
  - apply H. reflexivity.
  - apply matchb_Matches in H. discriminate H.
Qed.

(** C3, amended: a field is valid exactly when (it is not required, or its
    trimmed value is not empty) and (it is not of type email, or its trimmed
    value is empty or matches the e-mail pattern) and (it declares no
    minimum length, or the trimmed value is at least that long). *)
Theorem validateField_iff (field : FieldEl) :
  let value := trim (fe_value field) in
  fst (validateField field) = true
  <-> (fe_required field = false \/ value <> "")
      /\ (fe_type field <> "email" \/ value = ""
          \/ Matches utils.re (list_ascii_of_string value))
      /\ match Spec.declaredMinLength field with
         | None => True
         | Some m => m <= Z.of_nat (String.length value)
         end.
Proof.
  intros value. unfold validateField. fold value. simpl.
  rewrite <- belowMinLength_false, <- validateEmail_Matches,
    <- truthy_true, <- truthy_false.
  destruct (fe_required field), (truthy value),
    (String.eqb_spec (fe_type field) "email"),
    (utils.validateEmail value),
    (belowMinLength (fe_minLength field) value); simpl;
    split; intros; try discriminate; try reflexivity;
    intuition (try discriminate; try congruence).
Qed.

(** ** Active section *)

Lemma around_contains (p : Z) (s : SectionEl) :
  (p >=? section_offsetTop s)
  && (p <=? section_offsetTop s + section_offsetHeight s) = true
  <-> Spec.contains p s.
Proof.
  unfold Spec.contains.
  rewrite andb_true_iff, Z.geb_leb, !Z.leb_le. tauto.
Qed.

Lemma scanSection_scanned (p : Z) (seen : list SectionEl)
    (acc : option string * option Z) (s : SectionEl) :
  Inv.scanned p seen acc ->
  Inv.scanned p (seen ++ [s]) (scanSection p acc s).
Proof.
  intros H. unfold scanSection.
  destruct ((p >=? section_offsetTop s)
            && (p <=? section_offsetTop s + section_offsetHeight s)) eqn:E.
  - apply around_contains in E.
    destruct acc as [[id|] [d|]]; simpl in *; try contradiction.
    + destruct H as (s0 & (Hin & Hc & Hmin) & -> & ->).
      destruct (Z.ltb_spec (Z.abs (p - section_offsetTop s))
                           (Z.abs (p - section_offsetTop s0))) as [L | L].
      * exists s. repeat split; auto; try apply E.
        -- apply in_or_app. right. now left.
        -- intros s' Hs' Hc'. apply in_app_or in Hs' as [Hs' | [<- | []]].
           ++ specialize (Hmin s' Hs' Hc'). lia.
           ++ lia.
      * exists s0. repeat split; auto; try apply Hc.
        -- apply in_or_app. now left.
        -- intros s' Hs' Hc'. apply in_app_or in Hs' as [Hs' | [<- | []]]; auto.
    + exists s. repeat split; auto; try apply E.
      * apply in_or_app. right. now left.
      * intros s' Hs' Hc'. apply in_app_or in Hs' as [Hs' | [<- | []]].
        -- exfalso. apply (H s' Hs' Hc').
        -- lia.
  - assert (N : ~ Spec.contains p s).
    { intros C. apply around_contains in C. congruence. }
    destruct acc as [[id|] [d|]]; simpl in *; try contradiction.
    + destruct H as (s0 & (Hin & Hc & Hmin) & -> & ->).
      exists s0. repeat split; auto; try apply Hc.
      * apply in_or_app. now left.
      * intros s' Hs' Hc'. apply in_app_or in Hs' as [Hs' | [<- | []]]; auto.
        contradiction.
    + intros s' Hs'. apply in_app_or in Hs' as [Hs' | [<- | []]]; auto.
Qed.

Lemma fold_scanned (p : Z) (secs : list SectionEl) :
  forall seen acc,
    Inv.scanned p seen acc ->
    Inv.scanned p (seen ++ secs) (fold_left (scanSection p) secs acc).
Proof.
  induction secs as [|s secs IH]; intros seen acc H; simpl.
  - now rewrite app_nil_r.
  - replace (seen ++ s :: secs)%list with ((seen ++ [s]) ++ secs)%list
      by (rewrite <- app_assoc; reflexivity).
    apply IH, scanSection_scanned, H.
Qed.

Lemma scanSections_scanned (p : Z) (secs : list SectionEl) :
  Inv.scanned p secs (scanSections p secs).
Proof.
  apply (fold_scanned p secs [] (None, None)). intros s [].
Qed.

(** C5, as worded, fails in three ways.  Without cached navigation links
    the tracker returns at once: scrolled to 500, with "about" around the
    point 600, [currentSection] stays "home".  The lower edge of a section
    belongs to it: at the point 2000, which "contact [1200,2000)" leaves
    out, the tracker selects "contact", not "home".  And a section whose
    [id] is empty is reported as "home". *)
Lemma updateActiveNavLink_as_worded_counterexample :
  (Spec.trackedPoint Sample.worldWithoutLinks = 600
   /\ currentSection (state (updateActiveNavLink Sample.worldWithoutLinks))
      = "home"
   /\ ~ Spec.tracks Sample.worldWithoutLinks
          (updateActiveNavLink Sample.worldWithoutLinks))
  /\ (Spec.trackedPoint Sample.worldAtLowerEdge = 2000
      /\ currentSection (state (updateActiveNavLink Sample.worldAtLowerEdge))
         = "contact"
      /\ ~ Spec.tracks Sample.worldAtLowerEdge
             (updateActiveNavLink Sample.worldAtLowerEdge))
  /\ (Spec.trackedPoint Sample.worldEmptyId = 100
      /\ currentSection (state (updateActiveNavLink Sample.worldEmptyId))
         = "home"
      /\ ~ Spec.tracks Sample.worldEmptyId
             (updateActiveNavLink Sample.worldEmptyId)).
Proof.
  split; [|split].
  - split; [reflexivity|]. split; [reflexivity|].
    unfold Spec.tracks.
    change (Spec.trackedPoint Sample.worldWithoutLinks) with 600.
    change (sections (elements Sample.worldWithoutLinks))
      with Sample.threeSections.
    change (currentSection
              (state (updateActiveNavLink Sample.worldWithoutLinks)))
      with "home".
    intros [(s & Hin & Hc & _ & Hid) | (Hnone & _)].
    + unfold Spec.within in Hc.
      destruct Hin as [<- | [<- | [<- | []]]]; cbn in Hc, Hid;
        try lia; discriminate Hid.
    + apply (Hnone (mkSection "about" 500 700)).
      * right. now left.
      * unfold Spec.within. cbn. lia.
  - split; [reflexivity|]. split; [vm_compute; reflexivity|].
    unfold Spec.tracks.
    change (Spec.trackedPoint Sample.worldAtLowerEdge) with 2000.
    change (sections (elements Sample.worldAtLowerEdge))
      with Sample.threeSections.
    replace (currentSection
               (state (updateActiveNavLink Sample.worldAtLowerEdge)))
      with "contact" by (vm_compute; reflexivity).
    intros [(s & Hin & Hc & _) | (_ & Hid)]; [|discriminate Hid].
    unfold Spec.within in Hc.
    destruct Hin as [<- | [<- | [<- | []]]]; cbn in Hc; lia.
  - split; [reflexivity|]. split; [vm_compute; reflexivity|].
    unfold Spec.tracks.
    change (Spec.trackedPoint Sample.worldEmptyId) with 100.
    change (sections (elements Sample.worldEmptyId))
      with [mkSection "" 0 500].
    replace (currentSection (state (updateActiveNavLink Sample.worldEmptyId)))
      with "home" by (vm_compute; reflexivity).
    intros [(s & Hin & _ & _ & Hid) | (Hnone & _)].
    + destruct Hin as [<- | []]. discriminate Hid.
    + apply (Hnone (mkSection "" 0 500)); [now left|].
      unfold Spec.within. cbn. lia.
Qed.

(** C5, amended: when at least one navigation link is cached,
    [updateActiveNavLink] sets [currentSection] to the id of a section whose
    extent, both edges included, contains
    [scrollPosition + headerHeight + 100] and whose top edge is nearest to
    that point, and to "home" when no section's extent contains the point
    or that id is empty; with no cached link it returns without changing
    anything; with home [0,500], about [500,1200], contact [1200,2000] and
    the point 600 it selects "about". *)
Theorem updateActiveNavLink_tracks :
  (forall w : World,
      navLinks (elements w) <> [] ->
      let w' := updateActiveNavLink w in
      let secs := sections (elements w) in
      let p := Spec.trackedPoint w in
      (exists s, Spec.nearestAround secs p s
                 /\ (section_id s <> "" ->
                     currentSection (state w') = section_id s)
                 /\ (section_id s = "" ->
                     currentSection (state w') = "home"))
      \/ ((forall s, In s secs -> ~ Spec.contains p s)
          /\ currentSection (state w') = "home"))
  /\ (forall w : World,
        navLinks (elements w) = [] -> updateActiveNavLink w = w)
  /\ Spec.trackedPoint
       (Sample.worldWith desktop 500 Sample.threeLinks Sample.validForm) = 600
  /\ currentSection
       (state (updateActiveNavLink
                 (Sample.worldWith desktop 500 Sample.threeLinks
                                   Sample.validForm))) = "about".
Proof.
  split; [|split; [|split; reflexivity]].
  - intros w Hlinks w' secs p. subst w'. unfold updateActiveNavLink.
    destruct (navLinks (elements w)) as [|l ls] eqn:El; [congruence|].
    simpl. fold (Spec.trackedPoint w). fold p. fold secs.
    pose proof (scanSections_scanned p secs) as H.
    destruct (scanSections p secs) as [[id|] [d|]]; simpl in *;
      try contradiction.
    + left. destruct H as (s & Hs & -> & _). exists s. split; auto.
      split; intros E.
      * apply truthy_true in E. now rewrite E.
      * apply truthy_false in E. now rewrite E.
    + right. auto.
  - intros w Hnone. unfold updateActiveNavLink. now rewrite Hnone.
Qed.

(** The amended C5 at the state right after construction of the sample
    page. *)
Lemma updateActiveNavLink_tracks_witness :
  navLinks (elements Sample.world) <> []
  /\ ((exists s,
          Spec.nearestAround (sections (elements Sample.world))
            (Spec.trackedPoint Sample.world) s
          /\ (section_id s <> "" ->
              currentSection (state (updateActiveNavLink Sample.world))
              = section_id s)
          /\ (section_id s = "" ->
              currentSection (state (updateActiveNavLink Sample.world))
              = "home"))
      \/ ((forall s, In s (sections (elements Sample.world)) ->
                     ~ Spec.contains (Spec.trackedPoint Sample.world) s)
          /\ currentSection (state (updateActiveNavLink Sample.world))
             = "home")).
Proof.
  assert (H : navLinks (elements Sample.world) <> []) by discriminate.
  split; [exact H|].
  exact (proj1 updateActiveNavLink_tracks Sample.world H).
Defined.

(** ** Navigation menu *)

(** C10, as worded, fails: with the menu open beforehand, [openNav();
    closeNav()] leaves it closed. *)
Lemma openNav_closeNav_counterexample :
  isNavOpen (state Sample.worldNavOpen) = true
  /\ isNavOpen (state (closeNav (openNav Sample.worldNavOpen))) = false
  /\ ~ Spec.navRoundTrip Sample.worldNavOpen.
Proof.
  split; [reflexivity|]. split; [reflexivity|].
  intros (H & _). discriminate H.
Qed.

(** C10, amended: [openNav(); closeNav()] always leaves [isNavOpen] false,
    which is its value before the calls exactly when the menu was closed
    then; with the nav and its toggle cached, the body scroll lock is
    removed when the device type is mobile; on another device type, or
    without those nodes, the body style is left as it was. *)
Theorem openNav_closeNav (w : World) :
  let w' := closeNav (openNav w) in
  isNavOpen (state w') = false
  /\ (isNavOpen (state w') = isNavOpen (state w)
      <-> isNavOpen (state w) = false)
  /\ (nav (elements w) <> None -> navToggle (elements w) <> None ->
      deviceType (state w) = mobile ->
      body_overflow (document w') = "")
  /\ (deviceType (state w) <> mobile ->
      body_overflow (document w') = body_overflow (document w))
  /\ (nav (elements w) = None \/ navToggle (elements w) = None ->
      body_overflow (document w') = body_overflow (document w)).
Proof.
  destruct w as [[no co cs sp dt] [n nt nl lk hd ct cp cc cf st cm secs] d c t ts k].
  unfold closeNav, openNav, updateNavState; simpl.
  destruct n as [n|], nt as [nt|], dt; simpl;
    repeat split; intros; try congruence; try tauto;
    try (destruct no; congruence);
    intuition congruence.
Qed.

(** The amended C10 on a phone with the menu closed. *)
Lemma openNav_closeNav_witness :
  let w' := closeNav (openNav Sample.world) in
  isNavOpen (state w') = isNavOpen (state Sample.world)
  /\ body_overflow (document w') = "".
Proof.
  destruct (openNav_closeNav Sample.world) as (_ & H2 & H3 & _).
  split.
  - apply H2. reflexivity.
  - apply H3; [discriminate | discriminate | reflexivity].
Defined.

(** ** The timer loop: what handlers and callbacks do to it *)

Import Inv.

Lemma grows_refl (w : World) : grows w w.
Proof.
  repeat split; auto. exists []. split; [now rewrite app_nil_r | constructor].
Qed.

Lemma grows_loop (w w' : World) : loop w' = loop w -> grows w w'.
Proof.
  unfold loop. intros [= Hc Hn Ht Hk]. unfold grows.
  rewrite Hc, Hn, Ht, Hk. repeat split; auto.
  exists []. split; [now rewrite app_nil_r | constructor].
Qed.

Lemma grows_trans (w1 w2 w3 : World) :
  grows w1 w2 -> grows w2 w3 -> grows w1 w3.
Proof.
  intros (Hc1 & Hn1 & Hk1 & a1 & Ht1 & Ha1) (Hc2 & Hn2 & Hk2 & a2 & Ht2 & Ha2).
  unfold grows. repeat split; try congruence; try lia.
  exists (a1 ++ a2)%list. split.
  - rewrite Ht2, Ht1, app_assoc. reflexivity.
  - apply Forall_app. split.
    + eapply Forall_impl; [|exact Ha1]. simpl. intros t [? ?]. split; auto. lia.
    + eapply Forall_impl; [|exact Ha2]. simpl. intros t [? ?]. split; auto. lia.
Qed.

Lemma grows_setTimeout (cb : Callback) (delay : Z) (w : World) :
  rejecting cb = false -> grows w (setTimeout cb delay w).
Proof.
  intros H. unfold grows, setTimeout; simpl. repeat split; auto.
  eexists. split; [reflexivity|].
  constructor; [|constructor]. simpl. split; auto.
Qed.

(** Handlers that only touch the state and the document. *)
Ltac same_loop :=
  intros;
  repeat match goal with
         | |- context [match ?x with _ => _ end] => destruct x
         end;
  reflexivity.

Lemma loop_updateNavState w : loop (updateNavState w) = loop w.
Proof. unfold updateNavState. same_loop. Qed.

Lemma loop_updateChatState w : loop (updateChatState w) = loop w.
Proof. unfold updateChatState. same_loop. Qed.

Lemma loop_showChatStatus m t w : loop (showChatStatus m t w) = loop w.
Proof. unfold showChatStatus. same_loop. Qed.

Lemma loop_clearChatStatus w : loop (clearChatStatus w) = loop w.
Proof. unfold clearChatStatus. same_loop. Qed.

Lemma loop_addChatMessage m s w : loop (addChatMessage m s w) = loop w.
Proof. unfold addChatMessage. same_loop. Qed.

Lemma loop_focusChatToggle w : loop (focusChatToggle w) = loop w.
Proof. unfold focusChatToggle, focus. same_loop. Qed.

Lemma loop_focusNavToggle w : loop (focusNavToggle w) = loop w.
Proof. unfold focusNavToggle, focus. same_loop. Qed.

Lemma loop_with_state f w : loop (with_state f w) = loop w.
Proof. reflexivity. Qed.

Lemma loop_with_elements f w : loop (with_elements f w) = loop w.
Proof. reflexivity. Qed.

Lemma loop_with_document f w : loop (with_document f w) = loop w.
Proof. reflexivity. Qed.

Create Rewrite HintDb loop_db.
#[local] Hint Rewrite loop_updateNavState loop_updateChatState
  loop_showChatStatus loop_clearChatStatus loop_addChatMessage
  loop_focusChatToggle loop_focusNavToggle loop_with_state
  loop_with_elements loop_with_document : loop_db.

Ltac loop_simpl :=
  unfold openNav, closeNav, openChat, closeChat, handleChatClose,
    setSubmitLoading, update_chatForm, removeAnnouncement, focus;
  autorewrite with loop_db; try reflexivity.

Lemma grows_announceStateChange m w : grows w (announceStateChange m w).
Proof.
  unfold announceStateChange.
  eapply grows_trans; [|apply grows_setTimeout; reflexivity].
  apply grows_loop. reflexivity.
Qed.

Lemma grows_handleNavToggle w : grows w (handleNavToggle w).
Proof.
  unfold handleNavToggle.
  eapply grows_trans; [|apply grows_announceStateChange].
  apply grows_loop. loop_simpl.
Qed.

Lemma grows_handleChatToggle w : grows w (handleChatToggle w).
Proof.
  unfold handleChatToggle.
  eapply grows_trans; [|apply grows_announceStateChange].
  set (w1 := updateChatState _).
  assert (H1 : grows w w1) by (apply grows_loop; subst w1; loop_simpl).
  destruct (chatForm (elements w1)); [|exact H1].
  destruct (isChatOpen (state w1)); [|exact H1].
  eapply grows_trans; [exact H1 | apply grows_setTimeout; reflexivity].
Qed.

Lemma grows_handleKeyDownEscape w : grows w (handleKeyDownEscape w).
Proof.
  apply grows_loop. unfold handleKeyDownEscape.
  destruct (isNavOpen (state w)).
  - match goal with
    | |- context [if ?b then _ else _] => destruct b
    end; loop_simpl.
  - destruct (isChatOpen (state w)); loop_simpl.
Qed.

Lemma grows_handleClickOutside target w : grows w (handleClickOutside target w).
Proof.
  apply grows_loop. unfold handleClickOutside.
  match goal with
  | |- context [updateNavState ?x] =>
      assert (E : loop (updateNavState x) = loop w) by loop_simpl
  end.
  repeat match goal with
         | |- context [if ?b then _ else _] => destruct b
         end; loop_simpl; auto.
Qed.

Lemma grows_handleChatSubmit random w : grows w (handleChatSubmit random w).
Proof.
  unfold handleChatSubmit.
  destruct (chatForm (elements w)) as [form|]; [|apply grows_refl].
  destruct (validateChatForm (FormData_of form)); simpl.
  - unfold awaitChatSubmit.
    eapply grows_trans; [|apply grows_setTimeout; reflexivity].
    apply grows_loop. loop_simpl.
  - apply grows_loop. loop_simpl.
Qed.

(** No handler and no callback changes the names of the elements of the
    chat form: whether [form.reset] is shadowed is settled by the page. *)
Lemma shadowed_with_state f w : shadowed (with_state f w) = shadowed w.
Proof. reflexivity. Qed.
Lemma shadowed_with_document f w : shadowed (with_document f w) = shadowed w.
Proof. reflexivity. Qed.
Lemma shadowed_setTimeout cb d w : shadowed (setTimeout cb d w) = shadowed w.
Proof. reflexivity. Qed.
Lemma shadowed_console_error m w : shadowed (console_error m w) = shadowed w.
Proof. reflexivity. Qed.
Lemma shadowed_at_time t ts w : shadowed (at_time t ts w) = shadowed w.
Proof. reflexivity. Qed.
Lemma shadowed_announceStateChange m w :
  shadowed (announceStateChange m w) = shadowed w.
Proof. reflexivity. Qed.
Lemma shadowed_removeAnnouncement n w :
  shadowed (removeAnnouncement n w) = shadowed w.
Proof. reflexivity. Qed.
Lemma shadowed_focus t w : shadowed (focus t w) = shadowed w.
Proof. reflexivity. Qed.
Lemma shadowed_updateNavState w : shadowed (updateNavState w) = shadowed w.
Proof. unfold updateNavState. same_loop. Qed.
Lemma shadowed_updateChatState w : shadowed (updateChatState w) = shadowed w.
Proof. unfold updateChatState. same_loop. Qed.
Lemma shadowed_showChatStatus m t w :
  shadowed (showChatStatus m t w) = shadowed w.
Proof. unfold showChatStatus. same_loop. Qed.
Lemma shadowed_clearChatStatus w : shadowed (clearChatStatus w) = shadowed w.
Proof. unfold clearChatStatus. same_loop. Qed.
Lemma shadowed_addChatMessage m s w :
  shadowed (addChatMessage m s w) = shadowed w.
Proof. unfold addChatMessage. same_loop. Qed.
Lemma shadowed_focusChatToggle w : shadowed (focusChatToggle w) = shadowed w.
Proof. unfold focusChatToggle, focus. same_loop. Qed.
Lemma shadowed_focusNavToggle w : shadowed (focusNavToggle w) = shadowed w.
Proof. unfold focusNavToggle, focus. same_loop. Qed.
Lemma shadowed_setSubmitLoading b w :
  shadowed (setSubmitLoading b w) = shadowed w.
Proof.
  unfold setSubmitLoading, update_chatForm, shadowed. cbn.
  destruct (chatForm (elements w)); reflexivity.
Qed.
Lemma shadowed_reset w : shadowed (update_chatForm reset w) = shadowed w.
Proof.
  unfold update_chatForm, shadowed. cbn.
  destruct (chatForm (elements w)) as [form|]; [|reflexivity].
  unfold resetShadowed, reset. cbn [option_map form_fields form_others].
  now rewrite map_map.
Qed.
Lemma shadowed_catchChatSubmit w : shadowed (catchChatSubmit w) = shadowed w.
Proof. unfold catchChatSubmit. now rewrite shadowed_showChatStatus. Qed.

Create Rewrite HintDb shadow_db.
#[local] Hint Rewrite shadowed_with_state shadowed_with_document
  shadowed_setTimeout shadowed_console_error shadowed_at_time
  shadowed_announceStateChange shadowed_removeAnnouncement shadowed_focus
  shadowed_updateNavState shadowed_updateChatState shadowed_showChatStatus
  shadowed_clearChatStatus shadowed_addChatMessage shadowed_focusChatToggle
  shadowed_focusNavToggle shadowed_setSubmitLoading shadowed_reset
  shadowed_catchChatSubmit : shadow_db.

Ltac shadow_simpl :=
  unfold openNav, closeNav, openChat, closeChat, handleChatClose,
    handleNavToggle, handleChatToggle, awaitChatSubmit;
  repeat (autorewrite with shadow_db;
          try match goal with
              | |- context [match ?x with _ => _ end] => destruct x
              end);
  try reflexivity.

Lemma shadowed_resumeChatSubmit s w :
  shadowed (resumeChatSubmit s w) = shadowed w.
Proof.
  unfold resumeChatSubmit. destruct s as [|reason].
  - destruct (shadowed (showChatStatus _ _ w)); now autorewrite with shadow_db.
  - now autorewrite with shadow_db.
Qed.

Lemma shadowed_runCallback cb w : shadowed (runCallback cb w) = shadowed w.
Proof.
  destruct cb; cbn [runCallback];
    [apply shadowed_resumeChatSubmit | shadow_simpl ..].
Qed.

Lemma shadowed_handleChatSubmit random w :
  shadowed (handleChatSubmit random w) = shadowed w.
Proof. unfold handleChatSubmit. shadow_simpl. Qed.

Lemma shadowed_dispatch i w : shadowed (dispatch i w) = shadowed w.
Proof.
  destruct i; cbn [dispatch];
    unfold handleKeyDownEscape, handleClickOutside, handleChatSubmit;
    shadow_simpl.
Qed.

Lemma step_shadowed (e : Event) (w w' : World) :
  step e w = Some w' -> shadowed w' = shadowed w.
Proof.
  destruct e as [id | t i]; cbn [step]; intros H.
  - destruct (earliest (timers w)) as [tm|]; [|discriminate].
    destruct (Nat.eqb (tid tm) id && (now w <=? due tm)); [|discriminate].
    injection H as <-. now rewrite shadowed_runCallback.
  - destruct ((now w <=? t) && forallb (fun tm => t <=? due tm) (timers w));
      [|discriminate].
    injection H as <-. now rewrite shadowed_dispatch.
Qed.

Lemma run_shadowed (evs : list Event) :
  forall w w', run evs w = Some w' -> shadowed w' = shadowed w.
Proof.
  induction evs as [|e evs IH]; cbn [run]; intros w w' H.
  - now injection H as <-.
  - destruct (step e w) as [w1|] eqn:E; [|discriminate].
    rewrite (IH w1 w' H). apply (step_shadowed e w w1 E).
Qed.

(** Where [form.reset] is the method, the success branch runs through. *)
Lemma grows_resumeChatSubmit w :
  shadowed w = false -> grows w (resumeChatSubmit Fulfilled w).
Proof.
  intros Hs. unfold resumeChatSubmit.
  rewrite shadowed_showChatStatus, Hs.
  eapply grows_trans; [|apply grows_setTimeout; reflexivity].
  eapply grows_trans; [|apply grows_loop; loop_simpl].
  eapply grows_trans; [|apply grows_setTimeout; reflexivity].
  apply grows_loop. loop_simpl.
Qed.

Lemma grows_runCallback cb w :
  rejecting cb = false -> shadowed w = false -> grows w (runCallback cb w).
Proof.
  destruct cb as [[|reason]| | | |node]; simpl; intros H Hs;
    try discriminate.
  - now apply grows_resumeChatSubmit.
  - apply grows_loop. loop_simpl.
  - apply grows_loop. loop_simpl.
  - apply grows_loop. destruct (chatForm (elements w)) as [form|]; auto.
    destruct (hasInput form); loop_simpl.
  - apply grows_loop. loop_simpl.
Qed.

Lemma grows_dispatch i w : grows w (dispatch i w).
Proof.
  destruct i; simpl.
  - destruct (navToggle (elements w));
      [apply grows_handleNavToggle | apply grows_refl].
  - destruct (chatToggle (elements w));
      [apply grows_handleChatToggle | apply grows_refl].
  - destruct (chatClose (elements w)); apply grows_loop; loop_simpl.
  - apply grows_handleKeyDownEscape.
  - apply grows_handleClickOutside.
  - destruct (chatForm (elements w));
      [apply grows_handleChatSubmit | apply grows_refl].
  - apply grows_loop; loop_simpl.
  - apply grows_loop; loop_simpl.
  - apply grows_loop; loop_simpl.
  - apply grows_loop; loop_simpl.
Qed.

Lemma earliest_In (ts : list Timer) (t : Timer) :
  earliest ts = Some t -> In t ts.
Proof.
  revert t. induction ts as [|a ts IH]; simpl; intros t H; [discriminate|].
  destruct (earliest ts) as [t'|].
  - destruct (due t' <? due a); injection H as <-; auto.
  - injection H as <-. auto.
Qed.

Lemma removeTimer_In (id : nat) (ts : list Timer) (t : Timer) :
  In t (removeTimer id ts) <-> In t ts /\ tid t <> id.
Proof.
  unfold removeTimer. rewrite filter_In, negb_true_iff, Nat.eqb_neq. tauto.
Qed.

(** One turn of the loop: the world is first moved to the time of the
    event, with the fired timer taken out, and then only grows. *)
Lemma step_grows (e : Event) (w w' : World) :
  wellFormed w -> shadowed w = false -> step e w = Some w' ->
  exists w0,
    grows w0 w' /\ console w0 = console w /\ nextTimer w0 = nextTimer w
    /\ elements w0 = elements w /\ state w0 = state w
    /\ match e with
       | At t _ => timers w0 = timers w /\ now w0 = t
       | Fire id =>
           timers w0 = removeTimer id (timers w)
           /\ exists tm, In tm (timers w) /\ tid tm = id
                         /\ now w0 = due tm
                         /\ w' = runCallback (callback tm) w0
       end.
Proof.
  intros WF Hs H. destruct e as [id | t i]; simpl in H.
  - destruct (earliest (timers w)) as [tm|] eqn:E; [|discriminate].
    destruct (Nat.eqb (tid tm) id && (now w <=? due tm)) eqn:C; [|discriminate].
    injection H as <-. apply andb_prop in C as [C _].
    apply Nat.eqb_eq in C. apply earliest_In in E.
    exists (at_time (due tm) (removeTimer id (timers w)) w).
    refine (conj _ (conj eq_refl (conj eq_refl (conj eq_refl
             (conj eq_refl (conj eq_refl _)))))).
    + apply grows_runCallback; [|exact Hs].
      unfold wellFormed in WF. rewrite Forall_forall in WF.
      apply (WF tm E).
    + exists tm. auto.
  - destruct ((now w <=? t) && forallb (fun tm => t <=? due tm) (timers w));
      [|discriminate].
    injection H as <-.
    exists (at_time t (timers w) w).
    refine (conj _ (conj eq_refl (conj eq_refl (conj eq_refl
             (conj eq_refl (conj eq_refl eq_refl)))))).
    apply grows_dispatch.
Qed.

Lemma step_wellFormed (e : Event) (w w' : World) :
  wellFormed w -> shadowed w = false -> step e w = Some w' ->
  wellFormed w' /\ console w' = console w.
Proof.
  intros WF Hs H.
  destruct (step_grows e w w' WF Hs H)
    as (w0 & (Hc & _ & Hk & added & Ht & Ha) & Hc0 & Hk0 & _ & _ & He).
  split; [|congruence].
  unfold wellFormed in *. rewrite Ht. apply Forall_app. split.
  - rewrite Forall_forall in *. intros t Ht0.
    assert (Hin : In t (timers w)).
    { destruct e; [|destruct He as [E _]; rewrite E in Ht0; exact Ht0].
      destruct He as [E _]. rewrite E in Ht0.
      apply removeTimer_In in Ht0. tauto. }
    destruct (WF t Hin). split; auto. lia.
  - eapply Forall_impl; [|exact Ha]. simpl. intros t [? ?]. split; auto. lia.
Qed.

Lemma run_wellFormed (evs : list Event) :
  forall w w', wellFormed w -> shadowed w = false -> run evs w = Some w' ->
               wellFormed w' /\ console w' = console w.
Proof.
  induction evs as [|e evs IH]; simpl; intros w w' WF Hs H.
  - injection H as <-. auto.
  - destruct (step e w) as [w1|] eqn:E; [|discriminate].
    destruct (step_wellFormed e w w1 WF Hs E) as [WF1 C1].
    assert (Hs1 : shadowed w1 = false)
      by (now rewrite (step_shadowed e w w1 E)).
    destruct (IH w1 w' WF1 Hs1 H) as [WF' C']. split; congruence.
Qed.

Lemma step_owns (tm : Timer) (e : Event) (w w' : World) :
  wellFormed w -> shadowed w = false -> owns tm w -> step e w = Some w' ->
  owns tm w'.
Proof.
  intros WF Hs [Hk Hu] H.
  destruct (step_grows e w w' WF Hs H)
    as (w0 & (_ & _ & Hk' & added & Ht & Ha) & _ & Hk0 & _ & _ & He).
  split; [lia|].
  intros t Hin Hid. rewrite Ht in Hin. apply in_app_or in Hin as [Hin | Hin].
  - apply Hu; auto.
    destruct e; [|destruct He as [E _]; rewrite E in Hin; exact Hin].
    destruct He as [E _]. rewrite E in Hin.
    apply removeTimer_In in Hin. tauto.
  - rewrite Forall_forall in Ha. destruct (Ha t Hin) as [? _]. lia.
Qed.

Lemma step_pending (tm : Timer) (e : Event) (w w' : World) :
  wellFormed w -> shadowed w = false -> In tm (timers w) ->
  e <> Fire (tid tm) ->
  step e w = Some w' -> In tm (timers w').
Proof.
  intros WF Hs Hin Hne H.
  destruct (step_grows e w w' WF Hs H)
    as (w0 & (_ & _ & _ & added & Ht & _) & _ & _ & _ & _ & He).
  rewrite Ht. apply in_or_app. left.
  destruct e; [|destruct He as [E _]; rewrite E; exact Hin].
  destruct He as [E _]. rewrite E. apply removeTimer_In.
  split; [exact Hin|]. intros E'. apply Hne. now rewrite E'.
Qed.

Lemma run_owns (tm : Timer) (evs : list Event) :
  forall w w', wellFormed w -> shadowed w = false -> owns tm w ->
               run evs w = Some w' ->
               wellFormed w' /\ owns tm w'.
Proof.
  induction evs as [|e evs IH]; simpl; intros w w' WF Hs O H.
  - injection H as <-. auto.
  - destruct (step e w) as [w1|] eqn:E; [|discriminate].
    apply (IH w1 w'); auto.
    + apply (step_wellFormed e w w1 WF Hs E).
    + now rewrite (step_shadowed e w w1 E).
    + apply (step_owns tm e w w1 WF Hs O E).
Qed.

Lemma run_pending (tm : Timer) (evs : list Event) :
  forall w w', wellFormed w -> shadowed w = false -> In tm (timers w) ->
               ~ In (Fire (tid tm)) evs ->
               run evs w = Some w' -> In tm (timers w').
Proof.
  induction evs as [|e evs IH]; simpl; intros w w' WF Hs Hin Hne H.
  - injection H as <-. auto.
  - destruct (step e w) as [w1|] eqn:E; [|discriminate].
    apply (IH w1 w'); auto.
    + apply (step_wellFormed e w w1 WF Hs E).
    + now rewrite (step_shadowed e w w1 E).
    + apply (step_pending tm e w w1 WF Hs Hin); auto.
Qed.

(** ** Numbers

    What rounding to the nearest double does to a number below 2^53. *)

Lemma nearestEven_ge (q : Q) (n : Z) :
  (inject_Z n <= q)%Q -> n <= Number.nearestEven q.
Proof.
  intros H. apply Qfloor_resp_le in H. rewrite Qfloor_Z in H.
  unfold Number.nearestEven.
  destruct (q - inject_Z (Qfloor q) ?= 1 # 2)%Q; [|lia|lia].
  destruct (Z.even (Qfloor q)); lia.
Qed.

Lemma nearestEven_le (q : Q) (n : Z) :
  (q <= inject_Z n)%Q -> Number.nearestEven q <= n.
Proof.
  intros H. pose proof (Qfloor_le q) as F.
  assert (Hf : Qfloor q <= n).
  { apply Qfloor_resp_le in H. now rewrite Qfloor_Z in H. }
  unfold Number.nearestEven.
  destruct (q - inject_Z (Qfloor q) ?= 1 # 2)%Q eqn:C; [| exact Hf |].
  - apply Qeq_alt in C.
    assert (Hlt : Qfloor q < n).
    { destruct (Z.eq_dec (Qfloor q) n) as [E|]; [|lia]. exfalso.
      rewrite E in C, F. lra. }
    destruct (Z.even (Qfloor q)); lia.
  - apply Qgt_alt in C.
    destruct (Z.eq_dec (Qfloor q) n) as [E|]; [|lia]. exfalso.
    rewrite E in C, F. lra.
Qed.

Lemma nearestEven_error (q : Q) :
  (Qabs (inject_Z (Number.nearestEven q) - q) <= 1 # 2)%Q.
Proof.
  pose proof (Qfloor_le q) as F. pose proof (Qlt_floor q) as G.
  rewrite inject_Z_plus in G. change (inject_Z 1) with 1%Q in G.
  unfold Number.nearestEven.
  destruct (q - inject_Z (Qfloor q) ?= 1 # 2)%Q eqn:C.
  - apply Qeq_alt in C.
    destruct (Z.even (Qfloor q)); [|rewrite inject_Z_plus;
                                    change (inject_Z 1) with 1%Q];
      apply Qabs_Qle_condition; split; lra.
  - apply Qlt_alt in C. apply Qabs_Qle_condition. split; lra.
  - apply Qgt_alt in C. rewrite inject_Z_plus. change (inject_Z 1) with 1%Q.
    apply Qabs_Qle_condition. split; lra.
Qed.

Lemma ilog2_le (x : Q) :
  (x < inject_Z (2 ^ 53))%Q -> Number.ilog2 x <= 52.
Proof.
  intros H. unfold Number.ilog2. destruct (Qle_bool 1 x) eqn:L.
  - apply Qle_bool_iff in L.
    assert (1 <= Qfloor x).
    { apply Qfloor_resp_le in L. exact L. }
    assert (Qfloor x < 2 ^ 53).
    { pose proof (Qfloor_le x) as F.
      assert (K : (inject_Z (Qfloor x) < inject_Z (2 ^ 53))%Q) by lra.
      now rewrite <- Zlt_Qlt in K. }
    assert (Z.log2 (Qfloor x) < 53) by (apply Z.log2_lt_pow2; lia).
    lia.
  - pose proof (Z.log2_up_nonneg (Qceiling (/ x))). lia.
Qed.

(** Below 2^53 the unit in the last place is 1 / K for a positive
    integer K. *)
Lemma ulp_small (x : Q) :
  (x < inject_Z (2 ^ 53))%Q ->
  exists K, 0 < K /\ (Number.ulp x == / inject_Z K)%Q.
Proof.
  intros H. apply ilog2_le in H. unfold Number.ulp, Number.pow2.
  set (e := Z.max (Number.ilog2 x - 52) (-1074)).
  assert (He : e <= 0) by lia.
  destruct (0 <=? e) eqn:C.
  - apply Z.leb_le in C. assert (E : e = 0) by lia. rewrite E.
    exists 1. split; [lia | reflexivity].
  - exists (2 ^ (- e)). split; [apply Z.pow_pos_nonneg; lia | reflexivity].
Qed.

Lemma round_between (x : Q) (lo hi : Z) :
  0 <= lo -> (inject_Z lo <= x)%Q -> (x <= inject_Z hi)%Q ->
  (x < inject_Z (2 ^ 53))%Q ->
  (inject_Z lo <= Number.round x)%Q /\ (Number.round x <= inject_Z hi)%Q.
Proof.
  intros Hlo H1 H2 H53. unfold Number.round.
  assert (P : (0 <= x)%Q).
  { apply Qle_trans with (inject_Z lo); [|exact H1].
    change (inject_Z 0 <= inject_Z lo)%Q. now rewrite <- Zle_Qle. }
  destruct (x ?= 0)%Q eqn:C.
  - apply Qeq_alt in C. rewrite C in H1, H2. split; assumption.
  - apply Qlt_alt in C. lra.
  - apply Qgt_alt in C.
    destruct (ulp_small x H53) as (K & HK & EU).
    assert (KQ : (0 < inject_Z K)%Q)
      by (change (inject_Z 0 < inject_Z K)%Q; now rewrite <- Zlt_Qlt).
    assert (D : (x / Number.ulp x == x * inject_Z K)%Q).
    { rewrite EU. field. intros X. rewrite X in KQ. lra. }
    assert (L : lo * K <= Number.nearestEven (x / Number.ulp x)).
    { apply nearestEven_ge. rewrite D, inject_Z_mult. nra. }
    assert (U : Number.nearestEven (x / Number.ulp x) <= hi * K).
    { apply nearestEven_le. rewrite D, inject_Z_mult. nra. }
    set (m := Number.nearestEven _) in *.
    rewrite Zle_Qle, inject_Z_mult in L, U.
    split.
    + setoid_rewrite EU.
      apply Qle_shift_div_l in L; [|exact KQ]. unfold Qdiv in L. exact L.
    + setoid_rewrite EU.
      apply Qle_shift_div_r in U; [|exact KQ]. unfold Qdiv in U. exact U.
Qed.

Lemma round_error (x : Q) :
  (0 <= x)%Q -> (x < inject_Z (2 ^ 53))%Q ->
  (Qabs (Number.round x - x) <= 1 # 2)%Q.
Proof.
  intros P H53. unfold Number.round.
  destruct (x ?= 0)%Q eqn:C.
  - apply Qeq_alt in C. apply Qabs_Qle_condition. split; lra.
  - apply Qlt_alt in C. lra.
  - apply Qgt_alt in C.
    destruct (ulp_small x H53) as (K & HK & EU).
    assert (K1 : 1 <= K) by lia.
    assert (KQ : (1 <= inject_Z K)%Q)
      by (change (inject_Z 1 <= inject_Z K)%Q; now rewrite <- Zle_Qle).
    pose proof (nearestEven_error (x / Number.ulp x)) as E.
    assert (D : (x / Number.ulp x == x * inject_Z K)%Q).
    { rewrite EU. field. intros X. rewrite X in KQ. lra. }
    set (m := Number.nearestEven _) in *.
    rewrite D in E. apply Qabs_Qle_condition in E as [E1 E2].
    setoid_rewrite EU. apply Qabs_Qle_condition.
    assert (I : (0 < / inject_Z K)%Q) by (apply Qinv_lt_0_compat; lra).
    assert (J : (/ inject_Z K <= 1)%Q).
    { apply Qle_shift_inv_r; lra. }
    assert (X : (x == x * inject_Z K * / inject_Z K)%Q) by (field; lra).
    split.
    + setoid_replace (inject_Z m * / inject_Z K - x)%Q
        with ((inject_Z m - x * inject_Z K) * / inject_Z K)%Q
        by (field; lra).
      nra.
    + setoid_replace (inject_Z m * / inject_Z K - x)%Q
        with ((inject_Z m - x * inject_Z K) * / inject_Z K)%Q
        by (field; lra).
      nra.
Qed.

Lemma pow2_pos (e : Z) : (0 < Number.pow2 e)%Q.
Proof.
  unfold Number.pow2. destruct (0 <=? e) eqn:C.
  - apply Z.leb_le in C. change (inject_Z 0 < inject_Z (2 ^ e))%Q.
    rewrite <- Zlt_Qlt. apply Z.pow_pos_nonneg; lia.
  - apply Z.leb_gt in C. apply Qinv_lt_0_compat.
    change (inject_Z 0 < inject_Z (2 ^ (- e)))%Q.
    rewrite <- Zlt_Qlt. apply Z.pow_pos_nonneg; lia.
Qed.

Lemma pow2_neg (k : Z) : 0 <= k -> (Number.pow2 (- k) == / inject_Z (2 ^ k))%Q.
Proof.
  intros H. unfold Number.pow2. destruct (0 <=? - k) eqn:C.
  - apply Z.leb_le in C. assert (E : k = 0) by lia. subst k. reflexivity.
  - now rewrite Z.opp_involutive.
Qed.

Lemma Qinv_antitone (p q : Q) : (0 < p)%Q -> (p <= q)%Q -> (/ q <= / p)%Q.
Proof.
  intros Hp Hpq.
  assert (Hq : (0 < q)%Q) by lra.
  assert (I : (0 < / q)%Q) by (apply Qinv_lt_0_compat; exact Hq).
  apply Qle_shift_inv_l; [exact Hp|].
  setoid_replace 1%Q with (/ q * q)%Q by (field; lra).
  apply (proj2 (Qmult_le_l p q (/ q) I)). exact Hpq.
Qed.

Lemma pow2_le (a k : Z) :
  0 <= k -> a <= - k -> (Number.pow2 a <= / inject_Z (2 ^ k))%Q.
Proof.
  intros Hk Ha.
  replace a with (- (- a)) by lia. rewrite (pow2_neg (- a)) by lia.
  apply Qinv_antitone.
  - change (inject_Z 0 < inject_Z (2 ^ k))%Q. rewrite <- Zlt_Qlt.
    apply Z.pow_pos_nonneg; lia.
  - rewrite <- Zle_Qle. apply Z.pow_le_mono_r; lia.
Qed.

Lemma ilog2_lt (x : Q) (n : Z) :
  1 <= n -> (x < inject_Z (2 ^ n))%Q -> Number.ilog2 x < n.
Proof.
  intros Hn H. unfold Number.ilog2. destruct (Qle_bool 1 x) eqn:L.
  - apply Qle_bool_iff in L.
    assert (1 <= Qfloor x).
    { apply Qfloor_resp_le in L. exact L. }
    assert (Qfloor x < 2 ^ n).
    { pose proof (Qfloor_le x) as F.
      assert (K : (inject_Z (Qfloor x) < inject_Z (2 ^ n))%Q) by lra.
      now rewrite <- Zlt_Qlt in K. }
    apply Z.log2_lt_pow2; lia.
  - pose proof (Z.log2_up_nonneg (Qceiling (/ x))). lia.
Qed.

(** Below 2^n the unit in the last place is at most 2^(n-53). *)
Lemma ulp_le (x : Q) (n : Z) :
  1 <= n <= 53 -> (x < inject_Z (2 ^ n))%Q ->
  (Number.ulp x <= / inject_Z (2 ^ (53 - n)))%Q.
Proof.
  intros Hn H. apply ilog2_lt in H; [|lia]. unfold Number.ulp.
  apply pow2_le; lia.
Qed.

(** Rounding moves a number by at most half a unit in the last place. *)
Lemma round_half_ulp (x : Q) :
  (0 <= x)%Q -> (Qabs (Number.round x - x) <= Number.ulp x * (1 # 2))%Q.
Proof.
  intros P. pose proof (pow2_pos (Z.max (Number.ilog2 x - 52) (-1074))) as U.
  fold (Number.ulp x) in U. unfold Number.round.
  destruct (x ?= 0)%Q eqn:C.
  - apply Qeq_alt in C. apply Qabs_Qle_condition. split; nra.
  - apply Qlt_alt in C. lra.
  - pose proof (nearestEven_error (x / Number.ulp x)) as E.
    set (m := Number.nearestEven _) in *. set (u := Number.ulp x) in *.
    apply Qabs_Qle_condition in E as [E1 E2].
    assert (X : (x == x / u * u)%Q) by (field; lra).
    set (q := (x / u)%Q) in *.
    apply Qabs_Qle_condition.
    split.
    + setoid_replace (inject_Z m * u - x)%Q with ((inject_Z m - q) * u)%Q
        by (rewrite X at 1; ring).
      nra.
    + setoid_replace (inject_Z m * u - x)%Q with ((inject_Z m - q) * u)%Q
        by (rewrite X at 1; ring).
      nra.
Qed.

Lemma round_error_below (x : Q) (n : Z) :
  1 <= n <= 53 -> (0 <= x)%Q -> (x < inject_Z (2 ^ n))%Q ->
  (Qabs (Number.round x - x) <= / inject_Z (2 ^ (54 - n)))%Q.
Proof.
  intros Hn P H. pose proof (round_half_ulp x P) as E.
  pose proof (ulp_le x n Hn H) as U.
  eapply Qle_trans; [exact E|].
  replace (54 - n) with (1 + (53 - n)) by lia.
  rewrite Z.pow_add_r by lia. rewrite inject_Z_mult.
  assert (PQ : (0 < inject_Z (2 ^ (53 - n)))%Q).
  { change (inject_Z 0 < inject_Z (2 ^ (53 - n)))%Q. rewrite <- Zlt_Qlt.
    apply Z.pow_pos_nonneg; lia. }
  change (inject_Z (2 ^ 1)) with 2%Q.
  setoid_replace (/ (2 * inject_Z (2 ^ (53 - n))))%Q
    with (/ inject_Z (2 ^ (53 - n)) * (1 # 2))%Q by (field; lra).
  nra.
Qed.

(** ** Chat submission *)




(** The two roundings of [Math.random() * (MAX - MIN) + MIN] keep the
    delay between the bounds, and within 2^-41 of the exact value. *)
Lemma simulateApiCall_delay (random : Q) :
  (0 <= random)%Q -> (random < 1)%Q ->
  (inject_Z CONFIG.CHAT_MIN_RESPONSE_TIME
   <= promise_delay (simulateApiCall random))%Q
  /\ (promise_delay (simulateApiCall random)
      <= inject_Z CONFIG.CHAT_MAX_RESPONSE_TIME)%Q
  /\ (Qabs (promise_delay (simulateApiCall random)
            - (random * inject_Z (CONFIG.CHAT_MAX_RESPONSE_TIME
                                  - CONFIG.CHAT_MIN_RESPONSE_TIME)
               + inject_Z CONFIG.CHAT_MIN_RESPONSE_TIME))
      <= 1 # 2199023255552)%Q.
Proof.
  intros H0 H1. unfold simulateApiCall. simpl promise_delay.
  unfold Number.add, Number.mul.
  change (CONFIG.CHAT_MAX_RESPONSE_TIME - CONFIG.CHAT_MIN_RESPONSE_TIME)
    with 2000.
  change CONFIG.CHAT_MIN_RESPONSE_TIME with 1000.
  change CONFIG.CHAT_MAX_RESPONSE_TIME with 3000.
  change (inject_Z 2000) with (2000 # 1). change (inject_Z 1000) with (1000 # 1).
  set (a := (random * (2000 # 1))%Q).
  assert (A0 : (inject_Z 0 <= a)%Q)
    by (subst a; change (inject_Z 0) with 0%Q; lra).
  assert (A1 : (a <= inject_Z 2000)%Q)
    by (subst a; change (inject_Z 2000) with (2000 # 1); lra).
  assert (A53 : (a < inject_Z (2 ^ 53))%Q).
  { eapply Qle_lt_trans; [exact A1|]. reflexivity. }
  destruct (round_between a 0 2000 ltac:(lia) A0 A1 A53) as [R0 R1].
  change (inject_Z 0) with 0%Q in A0.
  assert (E1 : (Qabs (Number.round a - a) <= / inject_Z (2 ^ 43))%Q).
  { apply (round_error_below a 11); [lia | exact A0 |].
    eapply Qle_lt_trans; [exact A1|]. reflexivity. }
  set (ra := Number.round a) in *.
  change (inject_Z 0) with 0%Q in R0.
  change (inject_Z 2000) with (2000 # 1) in R1.
  set (b := (ra + (1000 # 1))%Q).
  assert (B0 : (inject_Z 1000 <= b)%Q)
    by (subst b; change (inject_Z 1000) with (1000 # 1); lra).
  assert (B1 : (b <= inject_Z 3000)%Q)
    by (subst b; change (inject_Z 3000) with (3000 # 1); lra).
  assert (B53 : (b < inject_Z (2 ^ 53))%Q).
  { eapply Qle_lt_trans; [exact B1|]. reflexivity. }
  destruct (round_between b 1000 3000 ltac:(lia) B0 B1 B53) as [S0 S1].
  assert (E2 : (Qabs (Number.round b - b) <= / inject_Z (2 ^ 42))%Q).
  { apply (round_error_below b 12); [lia | |].
    - change (inject_Z 1000) with (1000 # 1) in B0. lra.
    - eapply Qle_lt_trans; [exact B1|]. reflexivity. }
  split; [exact S0|]. split; [exact S1|].
  set (rs := Number.round b) in *.
  apply Qabs_Qle_condition in E1 as [E1a E1b], E2 as [E2a E2b].
  change (/ inject_Z (2 ^ 43))%Q with (1 # 8796093022208)%Q in *.
  change (/ inject_Z (2 ^ 42))%Q with (1 # 4398046511104)%Q in *.
  apply Qabs_Qle_condition. subst b. split; lra.
Qed.

Lemma timeoutOfNumber_bounds (q : Q) (lo hi : Z) :
  0 <= lo -> (inject_Z lo <= q)%Q -> (q <= inject_Z hi)%Q ->
  lo <= timeoutOfNumber q <= hi.
Proof.
  intros Hlo H1 H2. unfold timeoutOfNumber.
  apply Qfloor_resp_le in H1, H2. rewrite Qfloor_Z in H1, H2. lia.
Qed.

Lemma loop_eq (a b : World) :
  loop a = loop b ->
  console a = console b /\ now a = now b
  /\ timers a = timers b /\ nextTimer a = nextTimer b.
Proof. unfold loop. intros [= -> -> -> ->]. auto. Qed.

Lemma handleChatSubmit_valid (random : Q) (w : World) (form : FormEl) :
  chatForm (elements w) = Some form ->
  validateChatForm (FormData_of form) = true ->
  timers (handleChatSubmit random w)
  = (timers w
       ++ [mkTimer (nextTimer w)
             (now w + timeoutOfNumber (promise_delay (simulateApiCall random)))
             (CbResumeChatSubmit Fulfilled)])%list.
Proof.
  intros Hform Hok. unfold handleChatSubmit. rewrite Hform, Hok. simpl negb.
  cbv iota. unfold awaitChatSubmit.
  match goal with
  | |- timers (setTimeout _ _ ?x) = _ =>
      assert (E : loop x = loop w) by loop_simpl
  end.
  apply loop_eq in E as (_ & En & Et & Ek).
  unfold setTimeout at 1. simpl timers. rewrite En, Et, Ek. reflexivity.
Qed.

Lemma wellFormed_idle (w : World) : timers w = [] -> wellFormed w.
Proof. unfold wellFormed. intros ->. constructor. Qed.

Lemma grows_wellFormed (w w' : World) :
  wellFormed w -> grows w w' -> wellFormed w'.
Proof.
  intros WF (_ & _ & Hk & added & Ht & Ha).
  unfold wellFormed in *. rewrite Ht. apply Forall_app. split.
  - eapply Forall_impl; [|exact WF]. simpl. intros t [? ?]. split; auto. lia.
  - eapply Forall_impl; [|exact Ha]. simpl. intros t [? ?]. split; auto. lia.
Qed.

Lemma shadowed_chatForm (w : World) (form : FormEl) :
  chatForm (elements w) = Some form -> shadowed w = resetShadowed form.
Proof. unfold shadowed. now intros ->. Qed.




(** ** Auto-close of the chat panel *)

Lemma setTimeout_loop (cb : Callback) (delay : Z) (w : World) :
  now (setTimeout cb delay w) = now w
  /\ nextTimer (setTimeout cb delay w) = S (nextTimer w)
  /\ timers (setTimeout cb delay w)
     = (timers w ++ [mkTimer (nextTimer w) (now w + delay) cb])%list.
Proof. auto. Qed.

Lemma resumeChatSubmit_loop (w : World) :
  shadowed w = false ->
  let w' := resumeChatSubmit Fulfilled w in
  now w' = now w
  /\ nextTimer w' = S (S (nextTimer w))
  /\ timers w'
     = (timers w
          ++ [mkTimer (nextTimer w) (now w + CONFIG.CHAT_AUTO_CLOSE)
                CbAutoCloseChat;
              mkTimer (S (nextTimer w)) (now w + 5000) CbClearChatStatus])%list.
Proof.
  intros Hs w'. subst w'. unfold resumeChatSubmit.
  rewrite shadowed_showChatStatus, Hs.
  set (w1 := addChatMessage _ _ _).
  assert (E1 : loop w1 = loop w) by (subst w1; loop_simpl).
  apply loop_eq in E1 as (_ & En1 & Et1 & Ek1).
  set (w2 := setTimeout CbAutoCloseChat _ w1).
  destruct (setTimeout_loop CbAutoCloseChat CONFIG.CHAT_AUTO_CLOSE w1)
    as (En2 & Ek2 & Et2).
  fold w2 in En2, Ek2, Et2.
  set (w3 := setSubmitLoading false w2).
  assert (E3 : loop w3 = loop w2) by (subst w3; loop_simpl).
  apply loop_eq in E3 as (_ & En3 & Et3 & Ek3).
  destruct (setTimeout_loop CbClearChatStatus 5000 w3) as (En4 & Ek4 & Et4).
  rewrite En4, Ek4, Et4, En3, Et3, Ek3, En2, Ek2, Et2, En1, Et1, Ek1.
  rewrite <- app_assoc. auto.
Qed.

Lemma state_updateChatState (w : World) : state (updateChatState w) = state w.
Proof.
  unfold updateChatState.
  destruct (chatPanel (elements w)), (chatToggle (elements w)); reflexivity.
Qed.

Lemma updateChatState_reflects (w : World) (panel : ChatPanelEl)
    (toggle : ChatToggleEl) :
  chatPanel (elements (updateChatState w)) = Some panel ->
  chatToggle (elements (updateChatState w)) = Some toggle ->
  chatPanel_aria_hidden panel = Some (ofBool (negb (isChatOpen (state w))))
  /\ chatToggle_aria_expanded toggle = Some (ofBool (isChatOpen (state w))).
Proof.
  unfold updateChatState.
  destruct (chatPanel (elements w)) as [p|] eqn:Ep;
    destruct (chatToggle (elements w)) as [t|] eqn:Et; simpl;
    try congruence.
  intros [= <-] [= <-]. auto.
Qed.



(** ** Teardown *)

Import Lifecycle.

Lemma Target_eqb_refl (t : Target) : Target_eqb t t = true.
Proof. destruct t; simpl; auto using Nat.eqb_refl. Qed.

Lemma Target_eqb_eq (a b : Target) : Target_eqb a b = true -> a = b.
Proof.
  destruct a, b; simpl; intros H; try discriminate; auto;
    apply Nat.eqb_eq in H; congruence.
Qed.

Lemma sameListener_refl (l : Listener) : sameListener l l = true.
Proof.
  unfold sameListener.
  now rewrite Target_eqb_refl, String.eqb_refl, Nat.eqb_refl.
Qed.

(** Detaching the recorded listeners one by one only ever filters the
    attached ones, and touches nothing else. *)
Lemma detach_all (rs : list Listener) :
  forall b,
    let b' := fold_left (fun b l => removeEventListener l b) rs b in
    listeners b'
    = filter (fun x => forallb (fun r => negb (sameListener x r)) rs)
             (listeners b)
    /\ mediaListeners b' = mediaListeners b
    /\ observing b' = observing b
    /\ window_eJuuzApp b' = window_eJuuzApp b.
Proof.
  induction rs as [|r rs IH]; intros b; simpl.
  - repeat split. induction (listeners b) as [|x xs IHx]; simpl; congruence.
  - destruct (IH (removeEventListener r b)) as (Hl & Hm & Ho & Hw).
    simpl in Hl, Hm, Ho, Hw. repeat split; auto.
    rewrite Hl. clear.
    induction (listeners b) as [|x xs IHx]; simpl; auto.
    destruct (sameListener x r); simpl; auto.
    destruct (forallb _ rs); simpl; congruence.
Qed.

Lemma stop_all (os : list Observer) :
  forall b,
    let b' := fold_left (fun b o => stopObserver o b) os b in
    listeners b' = listeners b
    /\ window_eJuuzApp b' = window_eJuuzApp b
    /\ (forall id, In id (observing b') ->
                   In id (observing b) /\ ~ In (IntersectionObs id) os)
    /\ (forall m h, In (m, h) (mediaListeners b') ->
                    In (m, h) (mediaListeners b) /\ ~ In (MediaObs m h) os).
Proof.
  induction os as [|o os IH]; intros b; simpl.
  - repeat split; auto.
  - destruct (IH (stopObserver o b)) as (Hl & Hw & Ho & Hm).
    simpl in Hl, Hw, Ho, Hm.
    split; [rewrite Hl; destruct o; reflexivity|].
    split; [rewrite Hw; destruct o; reflexivity|].
    split.
    + intros id Hin. destruct (Ho id Hin) as [H1 H2].
      destruct o as [id'|m' h']; simpl in H1.
      * apply filter_In in H1 as [H1 H3].
        apply negb_true_iff, Nat.eqb_neq in H3.
        split; auto. intros [E | E]; [congruence | auto].
      * split; auto. intros [E | E]; [discriminate | auto].
    + intros m h Hin. destruct (Hm m h Hin) as [H1 H2].
      destruct o as [id'|m' h']; simpl in H1.
      * split; auto. intros [E | E]; [discriminate | auto].
      * apply filter_In in H1 as [H1 H3]. simpl in H3.
        split; auto. intros [E | E]; [|auto].
        injection E as -> ->.
        now rewrite String.eqb_refl, Nat.eqb_refl in H3.
Qed.

(** C8, as worded, fails: [initApp] puts two handlers on [window] that no
    list of the instance records; after [destroy()] an [error] event at
    [window], which the instance had wired for scrolling and resizing,
    still runs the handler that calls [window.eJuuzApp.handleError]. *)
Lemma destroy_global_handlers_counterexample :
  wired TWindow Sample.booted
  /\ window_eJuuzApp (destroy Sample.booted) = Some (mkApp [] [])
  /\ invoked TWindow "error" (destroy Sample.booted)
     = [mkHandler 31 "window.eJuuzApp.handleError"]
  /\ ~ Spec.teardown Sample.booted.
Proof.
  assert (W : wired TWindow Sample.booted).
  { exists (mkListener TWindow "scroll" (mkHandler 16 "handleScroll")).
    split; [vm_compute; tauto | reflexivity]. }
  assert (I : invoked TWindow "error" (destroy Sample.booted)
              = [mkHandler 31 "window.eJuuzApp.handleError"])
    by (vm_compute; reflexivity).
  split; [exact W|]. split; [vm_compute; reflexivity|]. split; [exact I|].
  unfold Spec.teardown.
  change (window_eJuuzApp Sample.booted) with (Some Sample.instance).
  change (window_eJuuzApp (destroy Sample.booted)) with (Some (mkApp [] [])).
  intros (_ & _ & H). specialize (H TWindow "error" W).
  rewrite I in H. discriminate H.
Qed.

(** C8, amended: after [destroy()] the two lists of the instance are empty,
    every recorded (target, event, callback) triple has been detached, every
    recorded observer has been disconnected or unregistered, and no event
    dispatched at a recorded target runs the callback recorded for it. *)
Theorem destroy_detaches_recorded (b : Browser) (a : App) :
  window_eJuuzApp b = Some a ->
  let after := destroy b in
  window_eJuuzApp after = Some (mkApp [] [])
  /\ Spec.recordedDetached a after
  /\ (forall l, In l (eventListeners a) ->
                ~ In (l_handler l) (invoked (l_target l) (l_type l) after)).
Proof.
  intros Ha after. subst after. unfold destroy. rewrite Ha.
  set (b1 := fold_left (fun b l => removeEventListener l b) (eventListeners a) b).
  set (b2 := fold_left (fun b o => stopObserver o b) (observers a) b1).
  destruct (detach_all (eventListeners a) b) as (Hl1 & _ & _ & _).
  fold b1 in Hl1.
  destruct (stop_all (observers a) b1) as (Hl2 & _ & Ho & Hm).
  fold b2 in Hl2, Ho, Hm.
  assert (Gone : forall x l, In x (listeners b2) -> In l (eventListeners a) ->
                             sameListener x l = false).
  { intros x l Hx Hin. rewrite Hl2, Hl1 in Hx.
    apply filter_In in Hx as [_ Hx]. rewrite forallb_forall in Hx.
    apply negb_true_iff, (Hx l Hin). }
  split; [reflexivity|]. split; [split|].
  - intros l Hin Hatt. simpl in Hatt.
    pose proof (Gone l l Hatt Hin) as E.
    rewrite sameListener_refl in E. discriminate E.
  - intros o Hin. destruct o as [id|m h]; simpl.
    + intros Hobs. apply (proj2 (Ho id Hobs)), Hin.
    + intros Hmed. apply (proj2 (Hm m h Hmed)), Hin.
  - intros l Hin Hinv. unfold invoked in Hinv. simpl in Hinv.
    apply in_map_iff in Hinv as (x & Hh & Hx).
    apply filter_In in Hx as [Hx Hsame].
    apply andb_prop in Hsame as [Ht Hty].
    pose proof (Gone x l Hx Hin) as E.
    unfold sameListener in E.
    rewrite Ht, Hty, Hh, Nat.eqb_refl in E. discriminate E.
Qed.

(** The amended C8 on the page with all the widgets: the click handler of
    the navigation toggle is recorded, and gone after [destroy()]. *)
Lemma destroy_detaches_recorded_witness :
  window_eJuuzApp Sample.booted = Some Sample.instance
  /\ In (mkListener TNavToggle "click" (mkHandler 0 "handleNavToggle"))
        (eventListeners Sample.instance)
  /\ ~ In (mkListener TNavToggle "click" (mkHandler 0 "handleNavToggle"))
          (listeners (destroy Sample.booted))
  /\ window_eJuuzApp (destroy Sample.booted) = Some (mkApp [] []).
Proof.
  assert (Ha : window_eJuuzApp Sample.booted = Some Sample.instance)
    by reflexivity.
  assert (Hin : In (mkListener TNavToggle "click"
                      (mkHandler 0 "handleNavToggle"))
                   (eventListeners Sample.instance))
    by (vm_compute; tauto).
  destruct (destroy_detaches_recorded Sample.booted Sample.instance Ha)
    as (He & (Hd & _) & _).
  split; [exact Ha|]. split; [exact Hin|].
  split; [exact (Hd _ Hin) | exact He].
Defined.

(* ================================================================== *)
(** * Further properties of the utility layer *)
(* ================================================================== *)

(** ** The shape of an accepted e-mail address *)

Lemma list_ascii_of_string_app (a b : string) :
  list_ascii_of_string (a ++ b)
  = (list_ascii_of_string a ++ list_ascii_of_string b)%list.
Proof. induction a as [|c a IH]; simpl; congruence. Qed.

Lemma length_append (a b : string) :
  String.length (a ++ b) = (String.length a + String.length b)%nat.
Proof. induction a as [|c a IH]; simpl; congruence. Qed.

Lemma Forall_notSpaceAt (l : list ascii) :
  Forall (fun c => utils.notSpaceAt c = true) l ->
  ~ In "@"%char l /\ forall c, In c l -> isWhiteSpace c = false.
Proof.
  intros H. rewrite Forall_forall in H. split.
  - intros Hin. specialize (H _ Hin). discriminate H.
  - intros c Hin. specialize (H _ Hin). unfold utils.notSpaceAt in H.
    apply negb_true_iff, orb_false_iff in H. tauto.
Qed.

(** X1: [validateEmail] accepts exactly the strings of the form
    local@domain.label in which the three parts are non-empty and hold
    neither white space nor an at sign; so an accepted address has exactly
    one at sign, no white space and at least five characters. *)
Theorem validateEmail_shape (s : string) :
  (utils.validateEmail s = true
   <-> exists l d t : string,
       s = l ++ "@" ++ d ++ "." ++ t
       /\ l <> "" /\ d <> "" /\ t <> ""
       /\ Forall (fun c => utils.notSpaceAt c = true)
                 (list_ascii_of_string (l ++ d ++ t)))
  /\ (utils.validateEmail s = true ->
      count_occ ascii_dec (list_ascii_of_string s) "@"%char = 1%nat
      /\ (forall c, In c (list_ascii_of_string s) -> isWhiteSpace c = false)
      /\ (5 <= String.length s)%nat).
Proof.
  assert (Shape : utils.validateEmail s = true
     <-> exists l d t : string,
       s = l ++ "@" ++ d ++ "." ++ t
       /\ l <> "" /\ d <> "" /\ t <> ""
       /\ Forall (fun c => utils.notSpaceAt c = true)
                 (list_ascii_of_string (l ++ d ++ t))).
  { rewrite validateEmail_Matches, re_shape. split.
    - intros (l & d & t & E & Hl & Hd & Ht & Al & Ad & At').
      exists (string_of_list_ascii l), (string_of_list_ascii d),
        (string_of_list_ascii t).
      split.
      { rewrite <- (string_of_list_ascii_of_string s), E.
        clear. induction l as [|c l IH]; simpl; [|now rewrite IH].
        f_equal. induction d as [|c d IH]; simpl; [|now rewrite IH].
        reflexivity. }
      repeat split.
      + destruct l; [congruence | discriminate].
      + destruct d; [congruence | discriminate].
      + destruct t; [congruence | discriminate].
      + rewrite !list_ascii_of_string_app, !list_ascii_of_string_of_list_ascii.
        rewrite !Forall_app. auto.
    - intros (l & d & t & -> & Hl & Hd & Ht & Hall).
      rewrite !list_ascii_of_string_app, !Forall_app in Hall.
      destruct Hall as (Al & Ad & At').
      exists (list_ascii_of_string l), (list_ascii_of_string d),
        (list_ascii_of_string t).
      rewrite !list_ascii_of_string_app. simpl.
      repeat split; auto.
      + destruct l; [congruence | discriminate].
      + destruct d; [congruence | discriminate].
      + destruct t; [congruence | discriminate]. }
  split; [exact Shape|].
  intros H. apply Shape in H as (l & d & t & -> & Hl & Hd & Ht & Hall).
  rewrite !list_ascii_of_string_app, !Forall_app in Hall.
  destruct Hall as (Al & Ad & At').
  apply Forall_notSpaceAt in Al as [Nl Wl], Ad as [Nd Wd], At' as [Nt Wt].
  rewrite !list_ascii_of_string_app. simpl.
  split; [|split].
  - rewrite count_occ_app. simpl. rewrite count_occ_app. simpl.
    rewrite (proj1 (count_occ_not_In ascii_dec _ _) Nl).
    rewrite (proj1 (count_occ_not_In ascii_dec _ _) Nd).
    rewrite (proj1 (count_occ_not_In ascii_dec _ _) Nt).
    destruct (ascii_dec "@" "@") as [_|N]; [|congruence].
    destruct (ascii_dec "." "@") as [E|_]; [discriminate E|]. reflexivity.
  - intros c Hin.
    apply in_app_or in Hin as [Hin | [<- | Hin]]; auto.
    apply in_app_or in Hin as [Hin | [<- | Hin]]; auto.
  - destruct l; [congruence|]. destruct d; [congruence|].
    destruct t; [congruence|]. simpl.
    repeat (rewrite length_append; simpl). lia.
Qed.

(** X1 on a short address. *)
Lemma validateEmail_shape_witness :
  count_occ ascii_dec (list_ascii_of_string "a@b.co") "@"%char = 1%nat
  /\ (5 <= String.length "a@b.co")%nat.
Proof.
  assert (V : utils.validateEmail "a@b.co" = true) by (vm_compute; reflexivity).
  destruct (proj2 (validateEmail_shape "a@b.co") V) as (C & _ & L).
  split; [exact C | exact L].
Defined.

(** ** Phone numbers *)

Lemma keepDigits_app (a b : string) :
  utils.keepDigits (a ++ b) = utils.keepDigits a ++ utils.keepDigits b.
Proof.
  induction a as [|c a IH]; simpl; auto.
  destruct (utils.isDigit c); simpl; congruence.
Qed.

Lemma digits_spec (n : nat) :
  forall s d rest,
    utils.digits n s = Some (d, rest) ->
    s = d ++ rest /\ String.length d = n /\ utils.keepDigits d = d.
Proof.
  induction n as [|n IH]; simpl; intros s d rest H.
  - injection H as <- <-. auto.
  - destruct s as [|c s]; [discriminate|].
    destruct (utils.isDigit c) eqn:Hc; [|discriminate].
    destruct (utils.digits n s) as [[d' r']|] eqn:E; [|discriminate].
    injection H as <- <-.
    destruct (IH _ _ _ E) as (-> & <- & K). simpl. rewrite Hc, K. auto.
Qed.

Lemma phoneGroups_spec (s g1 g2 g3 g4 rest : string) :
  utils.phoneGroups s = Some (g1, g2, g3, g4, rest) ->
  s = g1 ++ g2 ++ g3 ++ g4 ++ rest
  /\ String.length (g1 ++ g2 ++ g3 ++ g4) = 12%nat
  /\ utils.keepDigits (g1 ++ g2 ++ g3 ++ g4) = g1 ++ g2 ++ g3 ++ g4.
Proof.
  unfold utils.phoneGroups. intros H.
  destruct (utils.digits 2 s) as [[a r1]|] eqn:E1; [|discriminate].
  destruct (utils.digits 3 r1) as [[b r2]|] eqn:E2; [|discriminate].
  destruct (utils.digits 3 r2) as [[c r3]|] eqn:E3; [|discriminate].
  destruct (utils.digits 4 r3) as [[d r4]|] eqn:E4; [|discriminate].
  injection H as <- <- <- <- <-.
  apply digits_spec in E1 as (-> & L1 & K1), E2 as (-> & L2 & K2),
    E3 as (-> & L3 & K3), E4 as (-> & L4 & K4).
  repeat split.
  - rewrite !length_append. lia.
  - rewrite !keepDigits_app. congruence.
Qed.

Lemma keepDigits_length (s : string) :
  (String.length (utils.keepDigits s) <= String.length s)%nat.
Proof.
  induction s as [|c s IH]; simpl; auto.
  destruct (utils.isDigit c); simpl; lia.
Qed.

(** X2: [formatPhoneNumber] keeps the digits of its argument, in order; it
    adds four characters (a plus sign and three spaces) or none, and a
    string with fewer than twelve digits comes back unchanged. *)
Theorem formatPhoneNumber_keeps_digits (phone : string) :
  utils.keepDigits (utils.formatPhoneNumber phone) = utils.keepDigits phone
  /\ (String.length (utils.formatPhoneNumber phone) = String.length phone
      \/ String.length (utils.formatPhoneNumber phone)
         = (String.length phone + 4)%nat)
  /\ ((String.length (utils.keepDigits phone) < 12)%nat ->
      utils.formatPhoneNumber phone = phone).
Proof.
  induction phone as [|c s (IH1 & IH2 & IH3)].
  - simpl. auto.
  - unfold utils.formatPhoneNumber; fold utils.formatPhoneNumber.
    destruct (utils.phoneGroups (String c s))
      as [[[[[g1 g2] g3] g4] rest]|] eqn:E.
    + apply phoneGroups_spec in E as (E & L & K).
      rewrite E. split; [|split].
      * replace ("+" ++ g1 ++ " " ++ g2 ++ " " ++ g3 ++ " " ++ g4 ++ rest)
          with (("+" ++ g1) ++ (" " ++ g2) ++ (" " ++ g3) ++ (" " ++ g4) ++ rest)
          by reflexivity.
        rewrite !keepDigits_app. simpl. reflexivity.
      * right. simpl. repeat (rewrite length_append; simpl). lia.
      * intros Hlt. exfalso.
        replace (g1 ++ g2 ++ g3 ++ g4 ++ rest)
          with ((g1 ++ g2 ++ g3 ++ g4) ++ rest) in Hlt.
        -- rewrite keepDigits_app, K, length_append, L in Hlt. lia.
        -- clear. induction g1; simpl; [|congruence].
           induction g2; simpl; [|congruence].
           induction g3; simpl; [|congruence]. reflexivity.
    + split; [|split].
      * simpl. destruct (utils.isDigit c); simpl; congruence.
      * simpl. destruct IH2 as [-> | ->]; auto.
      * intros Hlt. f_equal. apply IH3.
        simpl in Hlt. destruct (utils.isDigit c); simpl in Hlt; lia.
Qed.

(** X2 on a local number: too few digits, nothing changes. *)
Lemma formatPhoneNumber_keeps_digits_witness :
  (String.length (utils.keepDigits "011 555 0100") < 12)%nat
  /\ utils.formatPhoneNumber "011 555 0100" = "011 555 0100".
Proof.
  assert (H : (String.length (utils.keepDigits "011 555 0100") < 12)%nat)
    by (simpl; lia).
  split; [exact H|].
  exact (proj2 (proj2 (formatPhoneNumber_keeps_digits "011 555 0100")) H).
Defined.

(** ** Viewport test *)

(** X3: [isInViewport] is false for a missing element; an element that
    passes with an offset passes with every smaller one; and an element
    that passes with a non-negative offset overlaps the window. *)
Theorem isInViewport_offset (window : utils.Viewport) :
  (forall offset, utils.isInViewport None offset window = false)
  /\ (forall rect offset offset',
         (offset' <= offset)%Q ->
         utils.isInViewport (Some rect) offset window = true ->
         utils.isInViewport (Some rect) offset' window = true)
  /\ (forall rect offset,
         (0 <= offset)%Q ->
         utils.isInViewport (Some rect) offset window = true ->
         (utils.rect_top rect <= inject_Z (utils.vp_innerHeight window))%Q
         /\ (0 <= utils.rect_bottom rect)%Q
         /\ (utils.rect_left rect <= inject_Z (utils.vp_innerWidth window))%Q
         /\ (0 <= utils.rect_right rect)%Q).
Proof.
  split; [reflexivity|]. split.
  - intros rect offset offset' Hle. unfold utils.isInViewport.
    rewrite !andb_true_iff, !Qle_bool_iff. intros (((H1 & H2) & H3) & H4).
    repeat split; lra.
  - intros rect offset H0. unfold utils.isInViewport.
    rewrite !andb_true_iff, !Qle_bool_iff. intros (((H1 & H2) & H3) & H4).
    repeat split; lra.
Qed.

(** X3 for an image in the middle of a 1280 x 720 window, with the offsets
    200 and 100 the script uses. *)
Lemma isInViewport_offset_witness :
  utils.isInViewport (Some (utils.mkRect 300 500 100 400)) 200
    (utils.mkViewport 1280 720) = true
  /\ utils.isInViewport (Some (utils.mkRect 300 500 100 400)) 100
       (utils.mkViewport 1280 720) = true.
Proof.
  assert (H : utils.isInViewport (Some (utils.mkRect 300 500 100 400)) 200
                (utils.mkViewport 1280 720) = true) by reflexivity.
  split; [exact H|].
  apply (proj1 (proj2 (isInViewport_offset (utils.mkViewport 1280 720)))
           (utils.mkRect 300 500 100 400) 200%Q 100%Q); [|exact H].
  unfold Qle. simpl. lia.
Defined.

(** ** Button loading state *)

(** X4: switching the loading state of a button on and off again restores
    its label, enables it and removes [aria-busy], provided the label is
    not empty; with an empty label, or when loading is switched on twice,
    the spinner markup stays as the label. *)
Theorem setButtonLoading_round_trip (b : ButtonEl) :
  let spinner := "<span class=" ++ quote ++ "loading-spinner-small" ++ quote
                 ++ "></span> Loading..." in
  let loading := mkButton spinner (Some (button_innerHTML b)) true (Some "true") in
  setButtonLoading (Some b) true = Some loading
  /\ (button_innerHTML b <> "" ->
      setButtonLoading (Some loading) false
      = Some (mkButton (button_innerHTML b) (Some (button_innerHTML b))
                false None))
  /\ (button_innerHTML b = "" ->
      setButtonLoading (Some loading) false
      = Some (mkButton spinner (Some "") false None))
  /\ setButtonLoading
       (setButtonLoading (setButtonLoading (Some b) true) true) false
     = Some (mkButton spinner (Some spinner) false None).
Proof.
  intros spinner loading. split; [reflexivity|]. split; [|split].
  - intros H. simpl. destruct (button_innerHTML b); [congruence | reflexivity].
  - intros H. simpl. rewrite H. reflexivity.
  - reflexivity.
Qed.

(** X4 on the submit button of the sample form. *)
Lemma setButtonLoading_round_trip_witness :
  setButtonLoading
    (setButtonLoading (Some (mkButton "Send" None false None)) true) false
  = Some (mkButton "Send" (Some "Send") false None).
Proof.
  destruct (setButtonLoading_round_trip (mkButton "Send" None false None))
    as (E & H & _).
  rewrite E. apply H. discriminate.
Defined.

(** ** Throttling *)

Lemma lastTime_snoc {A : Type} (l : list (Z * A)) (t : Z) (a : A) :
  Facts.lastTime (l ++ [(t, a)])%list = Some t.
Proof.
  induction l as [|[t0 a0] l IH]; simpl; auto.
  destruct l as [|x l]; simpl in *; auto.
Qed.

Lemma spaced_snoc {A : Type} (limit : Z) (l : list (Z * A)) (t : Z) (a : A) :
  Facts.spaced limit (map fst l) ->
  (forall t0, Facts.lastTime l = Some t0 -> t0 + limit <= t) ->
  Facts.spaced limit (map fst (l ++ [(t, a)])%list).
Proof.
  induction l as [|[t0 a0] l IH]; intros Hs Hl; [exact I|].
  destruct l as [|[t1 a1] l].
  - simpl. split; auto.
  - simpl in Hs. destruct Hs as [H01 Hs].
    change (t0 + limit <= t1
            /\ Facts.spaced limit (map fst (((t1, a1) :: l) ++ [(t, a)])%list)).
    split; [exact H01|]. apply IH; [exact Hs|].
    intros t' Ht'. apply Hl. exact Ht'.
Qed.

Lemma throttle_step_inv {A : Type} (limit : Z) (e : utils.WrapperEvent A)
    (st st' : utils.Throttled A) :
  0 <= limit -> Facts.throttleInv limit st ->
  utils.throttle_step limit e st = Some st' ->
  Facts.throttleInv limit st'
  /\ exists more, utils.th_invocations st'
                  = (utils.th_invocations st ++ more)%list.
Proof.
  intros Hlim [Hsp Hfl] H. destruct e as [t args|]; simpl in H.
  - destruct ((utils.th_now st <=? t)
              && forallb (fun d => t <=? d) (utils.th_timers st)) eqn:C;
      [|discriminate].
    apply andb_prop in C as [Cn Cd]. apply Z.leb_le in Cn.
    destruct (utils.inThrottle st) eqn:Ef; simpl in H; injection H as <-.
    + split; [|exists []; now rewrite app_nil_r].
      split; [exact Hsp|]. simpl.
      destruct Hfl as (t0 & Hl & Ht & Hn). exists t0. repeat split; auto.
      rewrite Ht in Cd. simpl in Cd. rewrite andb_true_r in Cd.
      now apply Z.leb_le.
    + destruct Hfl as (Ht & Hl).
      split; [|exists [(t, args)]; reflexivity].
      split; simpl.
      * apply spaced_snoc; auto. intros t0 H0. specialize (Hl t0 H0). lia.
      * exists t. rewrite lastTime_snoc, Ht. repeat split; auto. lia.
  - destruct (utils.popEarliest (utils.th_timers st)) as [[d rest]|] eqn:P;
      [|discriminate].
    destruct (utils.th_now st <=? d) eqn:Cn; [|discriminate].
    injection H as <-.
    split; [|exists []; now rewrite app_nil_r].
    destruct (utils.inThrottle st).
    + destruct Hfl as (t0 & Hl & Ht & Hn). rewrite Ht in P. simpl in P.
      injection P as <- <-. split; [exact Hsp|]. simpl. split; auto.
      intros t Hl'. rewrite Hl in Hl'. injection Hl' as <-. lia.
    + destruct Hfl as (Ht & _). rewrite Ht in P. discriminate P.
Qed.

Lemma throttle_run_inv {A : Type} (limit : Z)
    (evs : list (utils.WrapperEvent A)) :
  forall st st',
    0 <= limit -> Facts.throttleInv limit st ->
    utils.throttle_run limit evs st = Some st' ->
    Facts.throttleInv limit st'
    /\ exists more, utils.th_invocations st'
                    = (utils.th_invocations st ++ more)%list.
Proof.
  induction evs as [|e evs IH]; simpl; intros st st' Hlim I H.
  - injection H as <-. split; auto. exists []. now rewrite app_nil_r.
  - destruct (utils.throttle_step limit e st) as [st1|] eqn:E; [|discriminate].
    destruct (throttle_step_inv limit e st st1 Hlim I E) as (I1 & m1 & E1).
    destruct (IH st1 st' Hlim I1 H) as (I' & m2 & E2).
    split; auto. exists (m1 ++ m2)%list. rewrite E2, E1, app_assoc. reflexivity.
Qed.

(** X5: however a throttled function is called, two invocations of the
    wrapped function are at least [limit] ms apart and at most one reset
    timer is pending; the first call always goes through. *)
Theorem throttle_spacing {A : Type} (limit : Z)
    (evs : list (utils.WrapperEvent A)) (st : utils.Throttled A) :
  0 <= limit ->
  utils.throttle_run limit evs utils.throttle = Some st ->
  Facts.spaced limit (map fst (utils.th_invocations st))
  /\ (List.length (utils.th_timers st) <= 1)%nat
  /\ (forall t args rest,
         evs = utils.Invoke t args :: rest ->
         exists more, utils.th_invocations st = (t, args) :: more).
Proof.
  intros Hlim H.
  assert (I0 : Facts.throttleInv limit (@utils.throttle A)).
  { split; simpl; auto. split; auto. discriminate. }
  destruct (throttle_run_inv limit evs _ _ Hlim I0 H) as ([Hsp Hfl] & _).
  split; [exact Hsp|]. split.
  - destruct (utils.inThrottle st).
    + destruct Hfl as (t & _ & -> & _). simpl. lia.
    + destruct Hfl as (-> & _). simpl. lia.
  - intros t args rest ->. simpl in H.
    destruct ((0 <=? t) && true) eqn:C; [|discriminate]. simpl in H.
    match type of H with
    | utils.throttle_run _ _ ?s = _ =>
        assert (I1 : Facts.throttleInv limit s)
    end.
    { split; simpl; auto. exists t. repeat split; auto. lia. }
    destruct (throttle_run_inv limit rest _ _ Hlim I1 H) as (_ & more & E).
    exists more. exact E.
Qed.

(** X5 with the 200 ms of the scroll handler: of the calls at 0, 50 and 200
    the one at 50 is dropped. *)
Lemma throttle_spacing_witness :
  exists st,
    utils.throttle_run 200
      [utils.Invoke 0 tt; utils.Invoke 50 tt; utils.Timeout;
       utils.Invoke 200 tt] utils.throttle = Some st
    /\ utils.th_invocations st = [(0, tt); (200, tt)]
    /\ Facts.spaced 200 (map fst (utils.th_invocations st)).
Proof.
  eexists. split; [reflexivity|]. split; [reflexivity|].
  refine (proj1 (throttle_spacing 200
                   [utils.Invoke 0 tt; utils.Invoke 50 tt; utils.Timeout;
                    utils.Invoke 200 tt] _ _ eq_refl)).
  lia.
Defined.

(** ** Debouncing *)

Lemma debounce_step_inv {A : Type} (wait : Z) (e : utils.WrapperEvent A)
    (pending : option (Z * A)) (st st' : utils.Debounced A) :
  Facts.debounceInv wait pending st ->
  utils.debounce_step wait e st = Some st' ->
  Facts.debounceInv wait (Facts.pendingCall pending [e]) st'
  /\ utils.db_invocations st'
     = (utils.db_invocations st ++ Facts.settled wait pending [e])%list.
Proof.
  intros I H. destruct e as [t args|]; simpl in H.
  - destruct ((utils.db_now st <=? t)
              && forallb (fun x => t <=? snd (fst x)) (utils.db_timers st));
      [|discriminate].
    injection H as <-. simpl. rewrite app_nil_r. split; auto.
    exists (utils.db_next st). split; auto.
    destruct pending as [[t0 a0]|]; simpl in I.
    + destruct I as (id & -> & ->). simpl. now rewrite Nat.eqb_refl.
    + rewrite I. destruct (utils.db_timeout st); reflexivity.
  - destruct pending as [[t0 a0]|]; simpl in I.
    + destruct I as (id & Hto & Hts). rewrite Hts in H. simpl in H.
      destruct (utils.db_now st <=? t0 + wait); [|discriminate].
      injection H as <-. simpl. split; auto.
      destruct (utils.db_timeout st); reflexivity.
    + rewrite I in H. discriminate H.
Qed.

Lemma debounce_run_inv {A : Type} (wait : Z)
    (evs : list (utils.WrapperEvent A)) :
  forall pending st st',
    Facts.debounceInv wait pending st ->
    utils.debounce_run wait evs st = Some st' ->
    Facts.debounceInv wait (Facts.pendingCall pending evs) st'
    /\ utils.db_invocations st'
       = (utils.db_invocations st ++ Facts.settled wait pending evs)%list.
Proof.
  induction evs as [|e evs IH]; simpl; intros pending st st' I H.
  - injection H as <-. now rewrite app_nil_r.
  - destruct (utils.debounce_step wait e st) as [st1|] eqn:E; [|discriminate].
    destruct (debounce_step_inv wait e pending st st1 I E) as (I1 & E1).
    destruct (IH _ st1 st' I1 H) as (I' & E').
    destruct e as [t args|]; simpl in *.
    + split; auto. rewrite E', E1, app_nil_r. reflexivity.
    + destruct pending as [[t0 a0]|]; simpl in *; split; auto.
      * rewrite E', E1, <- app_assoc. reflexivity.
      * rewrite E', E1, app_nil_r. reflexivity.
Qed.

Lemma settled_burst {A : Type} (wait : Z) (burst : list (utils.WrapperEvent A))
    (t : Z) (args : A) :
  Forall Facts.isInvoke burst ->
  forall pending,
    Facts.settled wait pending (burst ++ [utils.Invoke t args; utils.Timeout])
    = [(t + wait, args)].
Proof.
  induction 1 as [|e burst He _ IH]; intros pending; simpl; auto.
  destruct e; [apply IH | contradiction].
Qed.

(** X6: a debounced function passes on, at each timeout, the arguments of
    the most recent call, [wait] ms after that call, and nothing else; at
    most one timer is pending at any time; a burst of calls followed by one
    timeout invokes the wrapped function once, with the arguments of the
    last call. *)
Theorem debounce_settles {A : Type} (wait : Z)
    (evs : list (utils.WrapperEvent A)) (st : utils.Debounced A) :
  utils.debounce_run wait evs utils.debounce = Some st ->
  utils.db_invocations st = Facts.settled wait None evs
  /\ (List.length (utils.db_timers st) <= 1)%nat
  /\ (forall burst t args,
         Forall Facts.isInvoke burst ->
         evs = (burst ++ [utils.Invoke t args; utils.Timeout])%list ->
         utils.db_invocations st = [(t + wait, args)]
         /\ utils.db_timers st = []).
Proof.
  intros H.
  assert (I0 : Facts.debounceInv wait None (@utils.debounce A)) by reflexivity.
  destruct (debounce_run_inv wait evs None _ _ I0 H) as (I & E).
  simpl in E. split; [exact E|]. split.
  - destruct (Facts.pendingCall None evs) as [[t a]|]; simpl in I.
    + destruct I as (id & _ & ->). simpl. lia.
    + rewrite I. simpl. lia.
  - intros burst t args Hb ->. split.
    + rewrite E. apply settled_burst, Hb.
    + assert (P : forall p : option (Z * A),
                 Facts.pendingCall p
                   (burst ++ [utils.Invoke t args; utils.Timeout])%list
                 = None).
      { clear. induction burst as [|x b IH]; intros p; simpl; auto.
        destruct x; apply IH. }
      rewrite P in I. exact I.
Qed.

(** X6 with the 150 ms of the resize handler: three resize events in a row
    lead to one invocation, 150 ms after the last. *)
Lemma debounce_settles_witness :
  exists st,
    utils.debounce_run 150
      [utils.Invoke 0 1; utils.Invoke 40 2; utils.Invoke 90 3; utils.Timeout]
      utils.debounce = Some st
    /\ utils.db_invocations st = [(240, 3)]
    /\ utils.db_timers st = [].
Proof.
  eexists. split; [reflexivity|].
  apply (proj2 (proj2 (debounce_settles 150
                         [utils.Invoke 0 1; utils.Invoke 40 2;
                          utils.Invoke 90 3; utils.Timeout] _ eq_refl))
           [utils.Invoke 0 1; utils.Invoke 40 2] 90 3).
  - repeat constructor.
  - reflexivity.
Defined.

(* ================================================================== *)
(** * Further properties of the widget state *)
(* ================================================================== *)

Import Facts.

(** ** State and markup stay reconciled *)

Ltac same_view :=
  intros;
  repeat match goal with
         | |- context [match ?x with _ => _ end] => destruct x
         end;
  reflexivity.

Lemma chatView_updateNavState w : chatView (updateNavState w) = chatView w.
Proof. unfold updateNavState. same_view. Qed.
Lemma navView_updateChatState w : navView (updateChatState w) = navView w.
Proof. unfold updateChatState. same_view. Qed.
Lemma chatView_set_isNavOpen b w :
  chatView (with_state (set_isNavOpen b) w) = chatView w.
Proof. reflexivity. Qed.
Lemma navView_set_isChatOpen b w :
  navView (with_state (set_isChatOpen b) w) = navView w.
Proof. reflexivity. Qed.
Lemma chatView_flip_nav w :
  chatView (with_state (fun s => set_isNavOpen (negb (isNavOpen s)) s) w)
  = chatView w.
Proof. reflexivity. Qed.
Lemma navView_flip_chat w :
  navView (with_state (fun s => set_isChatOpen (negb (isChatOpen s)) s) w)
  = navView w.
Proof. reflexivity. Qed.

Lemma chatView_setTimeout cb d w : chatView (setTimeout cb d w) = chatView w.
Proof. reflexivity. Qed.
Lemma navView_setTimeout cb d w : navView (setTimeout cb d w) = navView w.
Proof. reflexivity. Qed.
Lemma chatView_announce m w : chatView (announceStateChange m w) = chatView w.
Proof. reflexivity. Qed.
Lemma navView_announce m w : navView (announceStateChange m w) = navView w.
Proof. reflexivity. Qed.
Lemma chatView_focusChatToggle w : chatView (focusChatToggle w) = chatView w.
Proof. unfold focusChatToggle. same_view. Qed.
Lemma navView_focusChatToggle w : navView (focusChatToggle w) = navView w.
Proof. unfold focusChatToggle. same_view. Qed.
Lemma chatView_focusNavToggle w : chatView (focusNavToggle w) = chatView w.
Proof. unfold focusNavToggle. same_view. Qed.
Lemma navView_focusNavToggle w : navView (focusNavToggle w) = navView w.
Proof. unfold focusNavToggle. same_view. Qed.
Lemma chatView_showChatStatus m t w :
  chatView (showChatStatus m t w) = chatView w.
Proof. unfold showChatStatus. same_view. Qed.
Lemma navView_showChatStatus m t w :
  navView (showChatStatus m t w) = navView w.
Proof. unfold showChatStatus. same_view. Qed.
Lemma chatView_clearChatStatus w : chatView (clearChatStatus w) = chatView w.
Proof. unfold clearChatStatus. same_view. Qed.
Lemma navView_clearChatStatus w : navView (clearChatStatus w) = navView w.
Proof. unfold clearChatStatus. same_view. Qed.
Lemma chatView_addChatMessage m s w :
  chatView (addChatMessage m s w) = chatView w.
Proof. unfold addChatMessage. same_view. Qed.
Lemma navView_addChatMessage m s w :
  navView (addChatMessage m s w) = navView w.
Proof. unfold addChatMessage. same_view. Qed.
Lemma chatView_update_chatForm f w :
  chatView (update_chatForm f w) = chatView w.
Proof. reflexivity. Qed.
Lemma navView_update_chatForm f w :
  navView (update_chatForm f w) = navView w.
Proof. reflexivity. Qed.
Lemma chatView_console_error m w : chatView (console_error m w) = chatView w.
Proof. reflexivity. Qed.
Lemma navView_console_error m w : navView (console_error m w) = navView w.
Proof. reflexivity. Qed.
Lemma chatView_removeAnnouncement n w :
  chatView (removeAnnouncement n w) = chatView w.
Proof. reflexivity. Qed.
Lemma navView_removeAnnouncement n w :
  navView (removeAnnouncement n w) = navView w.
Proof. reflexivity. Qed.
Lemma chatView_focus t w : chatView (focus t w) = chatView w.
Proof. reflexivity. Qed.
Lemma navView_focus t w : navView (focus t w) = navView w.
Proof. reflexivity. Qed.
Lemma chatView_at_time t ts w : chatView (at_time t ts w) = chatView w.
Proof. reflexivity. Qed.
Lemma navView_at_time t ts w : navView (at_time t ts w) = navView w.
Proof. reflexivity. Qed.

Lemma chatView_updateChatState w :
  chatView (updateChatState w) = syncChat (chatView w).
Proof.
  unfold updateChatState, chatView, syncChat.
  destruct (chatPanel (elements w)) eqn:Ep, (chatToggle (elements w)) eqn:Et;
    cbn; rewrite ?Ep, ?Et; reflexivity.
Qed.
Lemma navView_updateNavState w :
  navView (updateNavState w) = syncNav (navView w).
Proof.
  unfold updateNavState, navView, syncNav.
  destruct (nav (elements w)) eqn:En, (navToggle (elements w)) eqn:Et;
    cbn; rewrite ?En, ?Et; try reflexivity.
  destruct (DeviceType_eqb (deviceType (state w)) mobile); reflexivity.
Qed.
Lemma chatView_set_isChatOpen b w :
  chatView (with_state (set_isChatOpen b) w)
  = chatOpenTo (fun _ => b) (chatView w).
Proof. reflexivity. Qed.
Lemma navView_set_isNavOpen b w :
  navView (with_state (set_isNavOpen b) w)
  = navOpenTo (fun _ => b) (navView w).
Proof. reflexivity. Qed.
Lemma chatView_flip_chat w :
  chatView (with_state (fun s => set_isChatOpen (negb (isChatOpen s)) s) w)
  = chatOpenTo negb (chatView w).
Proof. reflexivity. Qed.
Lemma navView_flip_nav w :
  navView (with_state (fun s => set_isNavOpen (negb (isNavOpen s)) s) w)
  = navOpenTo negb (navView w).
Proof. reflexivity. Qed.

Create Rewrite HintDb view_db.
#[local] Hint Rewrite chatView_updateNavState navView_updateChatState
  chatView_set_isNavOpen navView_set_isChatOpen chatView_flip_nav
  navView_flip_chat chatView_setTimeout navView_setTimeout
  chatView_announce navView_announce chatView_focusChatToggle
  navView_focusChatToggle chatView_focusNavToggle navView_focusNavToggle
  chatView_showChatStatus navView_showChatStatus chatView_clearChatStatus
  navView_clearChatStatus chatView_addChatMessage navView_addChatMessage
  chatView_update_chatForm navView_update_chatForm chatView_console_error
  navView_console_error chatView_removeAnnouncement
  navView_removeAnnouncement chatView_focus navView_focus
  chatView_at_time navView_at_time
  chatView_updateChatState navView_updateNavState
  chatView_set_isChatOpen navView_set_isNavOpen
  chatView_flip_chat navView_flip_nav : view_db.

(** With both nodes on the page, an assignment followed by the update
    leaves the markup in step with the state. *)
Lemma chatShown_sync f v : chatShown v -> chatShown (syncChat (chatOpenTo f v)).
Proof.
  destruct v as [[open [panel|]] [toggle|]]; cbn; tauto.
Qed.

Lemma navShown_sync f v : navShown v -> navShown (syncNav (navOpenTo f v)).
Proof.
  destruct v as [[[[open device] [n|]] [toggle|]] overflow]; cbn; try tauto.
  intros _. repeat split. intros ->. reflexivity.
Qed.

Lemma stays_refl w : stays w w.
Proof. split; auto. Qed.

Lemma stays_trans a b c : stays a b -> stays b c -> stays a c.
Proof. intros [H1 H2] [H3 H4]. split; auto. Qed.

(** Either the view is the one before the handler, or the last thing
    that touched it was an assignment followed by the matching update. *)
Ltac stays_solve :=
  unfold setSubmitLoading, awaitChatSubmit, catchChatSubmit;
  split; unfold chatReconciled, navReconciled; intros H;
  autorewrite with view_db;
  first [exact H | apply chatShown_sync; exact H | apply navShown_sync; exact H].

Ltac stays_branches :=
  repeat match goal with
         | |- context [match ?x with _ => _ end] => destruct x
         end;
  stays_solve.

Lemma reconciled_handleNavToggle w : stays w (handleNavToggle w).
Proof. unfold handleNavToggle. stays_solve. Qed.

Lemma reconciled_handleChatToggle w : stays w (handleChatToggle w).
Proof. unfold handleChatToggle. stays_branches. Qed.

Lemma reconciled_handleChatClose w : stays w (handleChatClose w).
Proof. unfold handleChatClose. stays_solve. Qed.

Lemma reconciled_handleKeyDownEscape w : stays w (handleKeyDownEscape w).
Proof.
  unfold handleKeyDownEscape.
  destruct (isNavOpen (state w)).
  - match goal with
    | |- context [if ?b then _ else _] => destruct b
    end; stays_solve.
  - destruct (isChatOpen (state w)); stays_solve.
Qed.

Lemma reconciled_handleClickOutside target w :
  stays w (handleClickOutside target w).
Proof.
  unfold handleClickOutside.
  match goal with
  | |- context [if ?b then updateNavState ?x else w] => destruct b
  end;
  match goal with
  | |- context [if ?b then _ else _] => destruct b
  end; stays_solve.
Qed.

Lemma reconciled_handleChatSubmit random w :
  stays w (handleChatSubmit random w).
Proof.
  unfold handleChatSubmit.
  destruct (chatForm (elements w)) as [form|]; [|apply stays_refl].
  destruct (negb (validateChatForm (FormData_of form))); stays_solve.
Qed.

Lemma reconciled_resumeChatSubmit s w : stays w (resumeChatSubmit s w).
Proof.
  unfold resumeChatSubmit. destruct s; [|stays_solve].
  destruct (shadowed _); stays_solve.
Qed.

Lemma reconciled_runCallback cb w : stays w (runCallback cb w).
Proof.
  destruct cb; simpl.
  - apply reconciled_resumeChatSubmit.
  - stays_solve.
  - stays_solve.
  - destruct (chatForm (elements w)) as [form|]; [|apply stays_refl].
    destruct (hasInput form); [|apply stays_refl].
    stays_solve.
  - stays_solve.
Qed.

Lemma reconciled_dispatch i w : stays w (dispatch i w).
Proof.
  destruct i; simpl.
  - destruct (navToggle (elements w));
      [apply reconciled_handleNavToggle | apply stays_refl].
  - destruct (chatToggle (elements w));
      [apply reconciled_handleChatToggle | apply stays_refl].
  - destruct (chatClose (elements w));
      [apply reconciled_handleChatClose | apply stays_refl].
  - apply reconciled_handleKeyDownEscape.
  - apply reconciled_handleClickOutside.
  - destruct (chatForm (elements w));
      [apply reconciled_handleChatSubmit | apply stays_refl].
  - unfold openChat. stays_solve.
  - unfold closeChat. stays_solve.
  - unfold openNav. stays_solve.
  - unfold closeNav. stays_solve.
Qed.

Lemma reconciled_step (e : Event) (w w' : World) :
  step e w = Some w' -> stays w w'.
Proof.
  intros E. destruct e as [id | t i]; simpl in E.
  - destruct (earliest (timers w)) as [tm|]; [|discriminate].
    destruct (Nat.eqb (tid tm) id && (now w <=? due tm)); [|discriminate].
    injection E as <-.
    eapply stays_trans; [|apply reconciled_runCallback]. stays_solve.
  - destruct ((now w <=? t) && forallb (fun tm => t <=? due tm) (timers w));
      [|discriminate].
    injection E as <-.
    eapply stays_trans; [|apply reconciled_dispatch]. stays_solve.
Qed.

Lemma reconciled_steps (evs : list Event) :
  forall w w', run evs w = Some w' -> stays w w'.
Proof.
  induction evs as [|e evs IH]; simpl; intros w w' R.
  - injection R as <-. apply stays_refl.
  - destruct (step e w) as [w1|] eqn:E; [|discriminate].
    apply (stays_trans w w1 w');
      [apply (reconciled_step e w w1 E) | apply (IH w1 w' R)].
Qed.

(** X7: on a page that has the chat panel and its toggle, once their
    [aria-hidden] and [aria-expanded] show [isChatOpen] they do so after
    every input and every timer; on a page that has the menu and its
    toggle, the same holds of their classes, of [aria-expanded] and of the
    scroll lock on a phone, with [isNavOpen]: no handler changes either
    flag without writing the markup. Both nodes of the pair are needed:
    with the toggle on the page and the menu, or the panel, missing, a
    click on the toggle flips the flag and writes nothing, so the toggle
    no longer shows the state. *)
Theorem reconciled_run :
  (forall evs w w',
      run evs w = Some w' ->
      (chatReconciled w -> chatReconciled w')
      /\ (navReconciled w -> navReconciled w'))
  /\ (forall w toggle,
        nav (elements w) = None ->
        navToggle (elements w) = Some toggle ->
        let w' := dispatch NavToggleClick w in
        isNavOpen (state w') = negb (isNavOpen (state w))
        /\ navToggle (elements w') = Some toggle
        /\ ~ (navToggle_aria_expanded toggle
                = Some (JsString.ofBool (isNavOpen (state w)))
              /\ navToggle_aria_expanded toggle
                 = Some (JsString.ofBool (isNavOpen (state w')))))
  /\ (forall w toggle,
        chatPanel (elements w) = None ->
        chatToggle (elements w) = Some toggle ->
        let w' := dispatch ChatToggleClick w in
        isChatOpen (state w') = negb (isChatOpen (state w))
        /\ chatToggle (elements w') = Some toggle
        /\ ~ (chatToggle_aria_expanded toggle
                = Some (JsString.ofBool (isChatOpen (state w)))
              /\ chatToggle_aria_expanded toggle
                 = Some (JsString.ofBool (isChatOpen (state w'))))).
Proof.
  split; [exact (fun evs w w' R => reconciled_steps evs w w' R)|].
  split.
  - intros w toggle Hn Ht w'.
    assert (Hs : isNavOpen (state w') = negb (isNavOpen (state w))).
    { subst w'. cbn [dispatch]. rewrite Ht. unfold handleNavToggle.
      pose proof (navView_announce
        (String.append "Navigation menu "
           (if isNavOpen
                 (state (updateNavState
                    (with_state
                       (fun s => set_isNavOpen (negb (isNavOpen s)) s) w)))
            then "opened" else "closed"))
        (updateNavState
           (with_state (fun s => set_isNavOpen (negb (isNavOpen s)) s) w)))
        as V.
      rewrite navView_updateNavState, navView_flip_nav in V.
      unfold navView at 2 in V. rewrite Hn in V. cbn in V.
      unfold navView in V. now injection V. }
    assert (Hk : navToggle (elements w') = Some toggle).
    { subst w'. cbn [dispatch]. rewrite Ht. unfold handleNavToggle.
      unfold updateNavState. cbn. rewrite Hn. cbn. exact Ht. }
    split; [exact Hs|]. split; [exact Hk|].
    rewrite Hs. intros [A B]. rewrite A in B.
    destruct (isNavOpen (state w)); discriminate B.
  - intros w toggle Hp Ht w'.
    assert (Hs : isChatOpen (state w') = negb (isChatOpen (state w))
                 /\ chatToggle (elements w') = Some toggle).
    { subst w'. cbn [dispatch]. rewrite Ht. unfold handleChatToggle.
      unfold updateChatState. cbn. rewrite Hp. cbn.
      destruct (chatForm (elements w)); cbn;
        [destruct (negb (isChatOpen (state w))) eqn:Eo; cbn; rewrite ?Eo|];
        auto. }
    destruct Hs as [Hs Hk].
    split; [exact Hs|]. split; [exact Hk|].
    rewrite Hs. intros [A B]. rewrite A in B.
    destruct (isChatOpen (state w)); discriminate B.
Qed.

(** X7 on the sample page: the chat is toggled, the menu is toggled, the
    focus timer fires and Escape is pressed. *)
Lemma reconciled_run_witness :
  chatReconciled Sample.settledWorld
  /\ navReconciled Sample.settledWorld
  /\ run Sample.toggles Sample.settledWorld = Some Sample.afterToggles
  /\ chatReconciled Sample.afterToggles
  /\ navReconciled Sample.afterToggles.
Proof.
  assert (Rc : chatReconciled Sample.settledWorld)
    by (vm_compute; split; reflexivity).
  assert (Rn : navReconciled Sample.settledWorld)
    by (vm_compute; repeat split).
  assert (H : run Sample.toggles Sample.settledWorld
              = Some Sample.afterToggles) by (vm_compute; reflexivity).
  destruct (proj1 reconciled_run Sample.toggles _ _ H) as [Kc Kn].
  split; [exact Rc|]. split; [exact Rn|]. split; [exact H|].
  split; [exact (Kc Rc) | exact (Kn Rn)].
Defined.

(** ** The public setters *)

(** X8: opening twice is opening once, and closing twice is closing once,
    for the menu and for the chat: state and markup are the same. *)
Theorem setters_idempotent (w : World) :
  openNav (openNav w) = openNav w
  /\ closeNav (closeNav w) = closeNav w
  /\ openChat (openChat w) = openChat w
  /\ closeChat (closeChat w) = closeChat w.
Proof.
  destruct w as [[no co cs sp dt] [n nt nl lk hd ct cp cc cf st cm secs]
                   [bo an nn ae] c t ts k].
  unfold openNav, closeNav, openChat, closeChat, updateNavState,
    updateChatState; simpl.
  destruct n, nt, ct, cp, dt; simpl; auto.
Qed.

(** ** Escape and clicks outside *)

(** X9: after Escape both the menu and the chat are closed; nothing
    changes if both were closed already, and the focus goes to the toggle of
    what was closed, to the one of the chat if both were open. *)
Theorem handleKeyDownEscape_closes (w : World) :
  let w' := handleKeyDownEscape w in
  isNavOpen (state w') = false
  /\ isChatOpen (state w') = false
  /\ (isNavOpen (state w) = false -> isChatOpen (state w) = false -> w' = w)
  /\ (isChatOpen (state w) = true -> chatToggle (elements w) <> None ->
      activeElement (document w') = Some FChatToggle)
  /\ (isNavOpen (state w) = true -> isChatOpen (state w) = false ->
      navToggle (elements w) <> None ->
      activeElement (document w') = Some FNavToggle).
Proof.
  destruct w as [[no co cs sp dt] [n nt nl lk hd ct cp cc cf st cm secs]
                   [bo an nn ae] c t ts k].
  unfold handleKeyDownEscape, updateNavState, updateChatState,
    focusNavToggle, focusChatToggle, focus; simpl.
  destruct no, co, n, nt, ct, cp, dt; simpl;
    repeat split; intros; try discriminate; try congruence; auto.
Qed.

(** X9 with the chat open on the sample page. *)
Lemma handleKeyDownEscape_closes_witness :
  isChatOpen (state (openChat Sample.world)) = true
  /\ activeElement (document (handleKeyDownEscape (openChat Sample.world)))
     = Some FChatToggle.
Proof.
  split; [reflexivity|].
  apply (proj1 (proj2 (proj2 (proj2
           (handleKeyDownEscape_closes (openChat Sample.world)))))).
  - reflexivity.
  - discriminate.
Defined.

Lemma state_updateNavState (w : World) : state (updateNavState w) = state w.
Proof.
  unfold updateNavState.
  destruct (nav (elements w)), (navToggle (elements w)); try reflexivity.
  simpl. destruct (DeviceType_eqb (deviceType (state w)) mobile); reflexivity.
Qed.

Lemma handleClickOutside_state (target : EventTarget) (w : World) :
  isNavOpen (state (handleClickOutside target w))
  = (if closesNav target w then false else isNavOpen (state w))
  /\ isChatOpen (state (handleClickOutside target w))
     = (if closesChat target w then false else isChatOpen (state w)).
Proof.
  unfold handleClickOutside. cbv zeta beta. fold (closesNav target w).
  set (w1 := if closesNav target w
             then updateNavState (with_state (set_isNavOpen false) w)
             else w).
  assert (V : chatView w1 = chatView w).
  { subst w1. destruct (closesNav target w); autorewrite with view_db;
      reflexivity. }
  assert (N : isNavOpen (state w1)
              = if closesNav target w then false else isNavOpen (state w)).
  { subst w1. destruct (closesNav target w); [|reflexivity].
    rewrite state_updateNavState. reflexivity. }
  fold (closesChat target w1).
  assert (C : closesChat target w1 = closesChat target w).
  { unfold closesChat. unfold chatView in V. injection V as -> -> ->.
    reflexivity. }
  rewrite C. unfold chatView in V. injection V as Vo _ _.
  destruct (closesChat target w).
  - rewrite state_updateChatState. simpl. auto.
  - split; [exact N | exact Vo].
Qed.

(** X10: a click never opens anything; a click inside the chat panel or on
    its toggle leaves the chat as it is, a click anywhere else closes it
    when the panel is cached; the same holds for the menu with its list and
    its toggle. *)
Theorem handleClickOutside_closes (target : EventTarget) (w : World) :
  let w' := handleClickOutside target w in
  (isChatOpen (state w) = false -> isChatOpen (state w') = false)
  /\ (isNavOpen (state w) = false -> isNavOpen (state w') = false)
  /\ (inChatPanel target = true ->
      isChatOpen (state w') = isChatOpen (state w))
  /\ (chatToggle (elements w) <> None -> inChatToggle target = true ->
      isChatOpen (state w') = isChatOpen (state w))
  /\ (chatPanel (elements w) <> None -> inChatPanel target = false ->
      inChatToggle target = false ->
      isChatOpen (state w') = false)
  /\ (inNavList target = true -> isNavOpen (state w') = isNavOpen (state w))
  /\ (navToggle (elements w) <> None -> inNavToggle target = true ->
      isNavOpen (state w') = isNavOpen (state w))
  /\ (navList (elements w) = true -> inNavList target = false ->
      inNavToggle target = false ->
      isNavOpen (state w') = false).
Proof.
  intros w'. subst w'.
  destruct (handleClickOutside_state target w) as [-> ->].
  unfold closesNav, closesChat.
  destruct (isNavOpen (state w)), (isChatOpen (state w)),
    (navList (elements w)), (navToggle (elements w)),
    (chatPanel (elements w)), (chatToggle (elements w)),
    (inNavList target), (inNavToggle target), (inChatPanel target),
    (inChatToggle target); simpl;
    repeat split; intros; try discriminate; try congruence; auto.
Qed.

(** X10 for a click on the page background with the chat open. *)
Lemma handleClickOutside_closes_witness :
  isChatOpen (state (openChat Sample.world)) = true
  /\ isChatOpen
       (state (handleClickOutside (mkTarget false false false false)
                 (openChat Sample.world))) = false.
Proof.
  split; [reflexivity|].
  apply (proj1 (proj2 (proj2 (proj2 (proj2
           (handleClickOutside_closes (mkTarget false false false false)
              (openChat Sample.world))))))).
  - discriminate.
  - reflexivity.
  - reflexivity.
Defined.

(** ** Resizing *)

(** X11: after [handleResize] the device type is the one of the window
    width; when the type has changed to tablet or desktop the menu is
    closed in state and markup; when the type has not changed the
    application is untouched; and in no case is the scroll lock of the body
    changed, so a lock taken on a phone stays when the window grows. *)
Theorem handleResize_device (win : WindowEnv) (w : World) (html : HtmlEl) :
  let w' := fst (handleResize win w html) in
  deviceType (state w') = utils.getDeviceType (win_innerWidth win)
  /\ (deviceType (state w) <> utils.getDeviceType (win_innerWidth win) ->
      utils.getDeviceType (win_innerWidth win) <> mobile ->
      isNavOpen (state w') = false
      /\ (isNavOpen (state w) = true ->
          forall n t, nav (elements w') = Some n ->
                      navToggle (elements w') = Some t ->
                      nav_mobile_active n = false
                      /\ navToggle_aria_expanded t = Some "false"))
  /\ (deviceType (state w) = utils.getDeviceType (win_innerWidth win) ->
      w' = w)
  /\ body_overflow (document w') = body_overflow (document w)
  /\ isChatOpen (state w') = isChatOpen (state w).
Proof.
  destruct w as [[no co cs sp dt] [n nt nl lk hd ct cp cc cf st cm secs]
                   [bo an nn ae] c t ts k].
  unfold handleResize, updateNavState; simpl.
  destruct (utils.getDeviceType (win_innerWidth win)), dt, no, n, nt; simpl;
    repeat split; intros; try discriminate; try congruence; auto;
    repeat match goal with
           | H : Some _ = Some _ |- _ => injection H as <-
           end; reflexivity.
Qed.

(** X11 on the sample phone with the menu open: in the wide window the menu
    is closed, and the body is still locked. *)
Lemma handleResize_device_witness :
  body_overflow (document Sample.worldNavOpen) = "hidden"
  /\ isNavOpen
       (state (fst (handleResize Sample.wideWindow Sample.worldNavOpen
                      Sample.freshHtml))) = false
  /\ body_overflow
       (document (fst (handleResize Sample.wideWindow Sample.worldNavOpen
                         Sample.freshHtml))) = "hidden".
Proof.
  destruct (handleResize_device Sample.wideWindow Sample.worldNavOpen
              Sample.freshHtml) as (_ & H & _ & Hb & _).
  split; [reflexivity|]. split.
  - apply H; discriminate.
  - rewrite Hb. reflexivity.
Defined.

(* ================================================================== *)
(** * Further properties of the section tracker and of scrolling *)
(* ================================================================== *)

Lemma startsWith_hash_truthy (h : string) :
  startsWith h "#" = true -> truthy h = true.
Proof. destruct h; simpl; [discriminate | reflexivity]. Qed.

Lemma markLink_hash (cur : option string) (link : NavLinkEl) (h : string) :
  link_href link = Some h -> startsWith h "#" = true ->
  markLink cur link
  = if isCurrent (substring1 h) cur
    then mkNavLink (Some h) true (Some "page")
    else mkNavLink (Some h) false None.
Proof.
  intros E S. unfold markLink. rewrite E, S, (startsWith_hash_truthy h S).
  reflexivity.
Qed.

Lemma markLink_other (cur : option string) (link : NavLinkEl) :
  isHashLink (link_href link) = false -> markLink cur link = link.
Proof.
  unfold markLink, isHashLink. destruct (link_href link) as [h|]; auto.
  intros ->. now rewrite andb_false_r.
Qed.

Lemma markLink_idempotent (cur : option string) (link : NavLinkEl) :
  markLink cur (markLink cur link) = markLink cur link.
Proof.
  destruct (isHashLink (link_href link)) eqn:E.
  - unfold isHashLink in E. destruct (link_href link) as [h|] eqn:Eh;
      [|discriminate].
    rewrite (markLink_hash cur link h Eh E).
    destruct (isCurrent (substring1 h) cur) eqn:C.
    + rewrite (markLink_hash cur (mkNavLink (Some h) true (Some "page")) h
                 eq_refl E), C.
      reflexivity.
    + rewrite (markLink_hash cur (mkNavLink (Some h) false None) h
                 eq_refl E), C.
      reflexivity.
  - rewrite (markLink_other cur link E). apply markLink_other, E.
Qed.

Lemma Forall2_map_self {A : Type} (R : A -> A -> Prop) (f : A -> A)
    (l : list A) :
  (forall x, R x (f x)) -> Forall2 R l (map f l).
Proof. intros H. induction l; simpl; constructor; auto. Qed.

(** X12: with ids that are not empty and at least one cached link,
    [updateActiveNavLink] leaves links without a fragment untouched and
    marks a fragment link as active, with [aria-current="page"], exactly
    when some section is around the point and the fragment names
    [currentSection]; when no section is around the point no link is
    active, not even the one of "home". *)
Theorem updateActiveNavLink_marks (w : World) :
  navLinks (elements w) <> [] ->
  (forall s, In s (sections (elements w)) -> section_id s <> "") ->
  let w' := updateActiveNavLink w in
  let around :=
    exists s, In s (sections (elements w))
              /\ Spec.contains (Spec.trackedPoint w) s in
  Forall2
    (fun link link' =>
       link_href link' = link_href link
       /\ (isHashLink (link_href link) = false -> link' = link)
       /\ (forall h, link_href link = Some h -> startsWith h "#" = true ->
             (link_active link' = true
              <-> around /\ substring1 h = currentSection (state w'))
             /\ link_aria_current link'
                = if link_active link' then Some "page" else None))
    (navLinks (elements w)) (navLinks (elements w')).
Proof.
  intros Hlinks Hids w' around. subst w'. unfold updateActiveNavLink.
  destruct (navLinks (elements w)) as [|l0 ls] eqn:El; [congruence|].
  simpl. rewrite El. fold (Spec.trackedPoint w).
  pose proof (scanSections_scanned (Spec.trackedPoint w)
                (sections (elements w))) as S.
  apply Forall2_map_self. intros link.
  destruct (scanSections (Spec.trackedPoint w) (sections (elements w)))
    as [[id|] [d|]]; simpl in *; try contradiction.
  - destruct S as (s & (Hin & Hc & _) & -> & _).
    assert (Hid : truthy (section_id s) = true)
      by (apply truthy_true, Hids, Hin).
    rewrite Hid.
    destruct (isHashLink (link_href link)) eqn:E.
    + unfold isHashLink in E.
      destruct (link_href link) as [h|] eqn:Eh; [|discriminate].
      rewrite (markLink_hash _ link h Eh E). simpl.
      destruct (String.eqb_spec (substring1 h) (section_id s)) as [Q|Q]; simpl.
      * split; [reflexivity|]. split; [intros X; discriminate X|].
        intros h' [= <-] _. split; [|reflexivity].
        split; [intros _ | reflexivity].
        split; [exists s; auto | exact Q].
      * split; [reflexivity|]. split; [intros X; discriminate X|].
        intros h' [= <-] _. split; [|reflexivity].
        split; [intros X; discriminate X | intros [_ Q']; contradiction].
    + rewrite (markLink_other _ link E).
      split; [reflexivity|]. split; [reflexivity|].
      intros h Eh Sh. unfold isHashLink in E. rewrite Eh in E. congruence.
  - destruct (isHashLink (link_href link)) eqn:E.
    + unfold isHashLink in E.
      destruct (link_href link) as [h|] eqn:Eh; [|discriminate].
      rewrite (markLink_hash _ link h Eh E). simpl.
      split; [reflexivity|]. split; [intros X; discriminate X|].
      intros h' [= <-] _. split; [|reflexivity].
      split; [intros X; discriminate X|]. intros [(s & Hin & Hc) _].
      exfalso. apply (S s Hin Hc).
    + rewrite (markLink_other _ link E).
      split; [reflexivity|]. split; [reflexivity|].
      intros h Eh Sh. unfold isHashLink in E. rewrite Eh in E. congruence.
Qed.

(** X12 on the sample page scrolled to 500: the links are marked, and the
    list keeps its three links. *)
Lemma updateActiveNavLink_marks_witness :
  navLinks (elements (updateActiveNavLink
                        (Sample.worldWith desktop 500 Sample.threeLinks
                                          Sample.validForm)))
  = [mkNavLink (Some "#home") false None;
     mkNavLink (Some "#about") true (Some "page");
     mkNavLink (Some "#contact") false None]
  /\ List.length
       (navLinks (elements (updateActiveNavLink
                              (Sample.worldWith desktop 500 Sample.threeLinks
                                                Sample.validForm)))) = 3%nat.
Proof.
  split; [reflexivity|].
  assert (H1 : navLinks (elements (Sample.worldWith desktop 500
                 Sample.threeLinks Sample.validForm)) <> []) by discriminate.
  assert (H2 : forall s,
             In s (sections (elements (Sample.worldWith desktop 500
                     Sample.threeLinks Sample.validForm))) ->
             section_id s <> "").
  { intros s [<- | [<- | [<- | []]]]; discriminate. }
  pose proof (updateActiveNavLink_marks _ H1 H2) as F.
  apply Forall2_length in F. rewrite <- F. reflexivity.
Defined.

(** X13: [updateActiveNavLink] is idempotent: run again without a scroll in
    between, it changes neither the links nor [currentSection]. *)
Theorem updateActiveNavLink_idempotent (w : World) :
  updateActiveNavLink (updateActiveNavLink w) = updateActiveNavLink w.
Proof.
  destruct w as [[no co cs sp dt] [n nt nl lk hd ct cp cc cf st cm secs]
                   d c t ts k].
  destruct lk as [|l ls]; [reflexivity|].
  unfold updateActiveNavLink at 2. cbn -[markLink scanSections].
  unfold updateActiveNavLink. cbn -[markLink scanSections].
  unfold headerHeight. cbn -[markLink scanSections].
  set (cur := fst (scanSections _ secs)).
  unfold with_state, with_elements, set_currentSection, set_navLinks.
  cbn -[markLink].
  rewrite markLink_idempotent, map_map.
  do 3 f_equal. apply map_ext. intros a. apply markLink_idempotent.
Qed.

(** X14: [scrollToSection(id)] for a section that exists records the id and
    asks for the position 20 px above the section, below the header; once
    the window is there, [updateActiveNavLink] selects the same section,
    provided it is at least 80 px high and any other section around the
    point 80 px into it starts above it. *)
Theorem scrollToSection_tracked (getElementById : string -> option Z)
    (prefersReducedMotion : bool) (s : SectionEl) (w : World) :
  In s (sections (elements w)) ->
  getElementById (section_id s) = Some (section_offsetTop s) ->
  section_id s <> "" ->
  navLinks (elements w) <> [] ->
  80 <= section_offsetHeight s ->
  (forall s', In s' (sections (elements w)) ->
              Spec.contains (section_offsetTop s + 80) s' ->
              section_id s' = section_id s
              \/ section_offsetTop s' < section_offsetTop s) ->
  exists w1 request,
    scrollToSection getElementById prefersReducedMotion (section_id s) w
    = (w1, Some request)
    /\ currentSection (state w1) = section_id s
    /\ scroll_top request = section_offsetTop s - headerHeight w - 20
    /\ scroll_smooth request = negb prefersReducedMotion
    /\ currentSection
         (state (updateActiveNavLink
                   (with_state (set_scrollPosition (scroll_top request)) w1)))
       = section_id s.
Proof.
  intros Hin Hget Hid Hlinks Hh Hothers.
  unfold scrollToSection. rewrite Hget.
  eexists. eexists. split; [reflexivity|].
  split; [reflexivity|]. split; [destruct prefersReducedMotion; reflexivity|].
  split; [destruct prefersReducedMotion; reflexivity|].
  set (top := scroll_top _).
  assert (Et : top = section_offsetTop s - headerHeight w - 20)
    by (subst top; destruct prefersReducedMotion; reflexivity).
  unfold updateActiveNavLink. simpl navLinks.
  destruct (navLinks (elements w)) as [|l ls]; [congruence|].
  simpl.
  match goal with
  | |- orHome (fst (scanSections ?p _)) = _ =>
      assert (Ep : p = section_offsetTop s + 80)
  end.
  { change (headerHeight (with_state (set_scrollPosition top)
              (with_state (set_currentSection (section_id s)) w)))
      with (headerHeight w). lia. }
  rewrite Ep.
  pose proof (scanSections_scanned (section_offsetTop s + 80)
                (sections (elements w))) as S.
  destruct (scanSections (section_offsetTop s + 80) (sections (elements w)))
    as [[id|] [d|]]; simpl in *; try contradiction.
  - destruct S as (s0 & (Hin0 & Hc0 & Hmin) & -> & _).
    assert (Hc : Spec.contains (section_offsetTop s + 80) s)
      by (unfold Spec.contains; lia).
    specialize (Hmin s Hin Hc).
    destruct (Hothers s0 Hin0 Hc0) as [E | L].
    + rewrite E. apply truthy_true in Hid. now rewrite Hid.
    + unfold Spec.contains in Hc0. lia.
  - exfalso. apply (S s Hin). unfold Spec.contains. lia.
Qed.

(** X14 for "about" on the sample page. *)
Lemma scrollToSection_tracked_witness :
  exists w1 request,
    scrollToSection
      (fun id => if String.eqb id "about" then Some 500 else None)
      false "about" Sample.world = (w1, Some request)
    /\ scroll_top request = 480
    /\ currentSection
         (state (updateActiveNavLink
                   (with_state (set_scrollPosition (scroll_top request)) w1)))
       = "about".
Proof.
  destruct (scrollToSection_tracked
              (fun id => if String.eqb id "about" then Some 500 else None)
              false (mkSection "about" 500 700) Sample.world)
    as (w1 & request & E & _ & Ht & _ & Hc).
  - right. now left.
  - reflexivity.
  - discriminate.
  - discriminate.
  - simpl. lia.
  - intros s' [<- | [<- | [<- | []]]]; unfold Spec.contains; simpl;
      intros; auto; lia.
  - exists w1, request. split; [exact E|]. split; [exact Ht | exact Hc].
Defined.

(** X15: a click on a fragment link always prevents the default action; on
    a phone it closes the menu and, with the nav and its toggle cached,
    releases the scroll lock, on other devices it leaves the menu alone;
    when the fragment names an element it records the id and asks for the
    scroll, when it names none it records and asks nothing.  A click on
    any other link changes nothing and is left to the browser. *)
Theorem handleNavLinkClick_fragment (getElementById : string -> option Z)
    (prefersReducedMotion : bool) (id : string) (w : World) :
  let result :=
    handleNavLinkClick getElementById prefersReducedMotion
      (Some ("#" ++ id)) w in
  let w' := fst (fst result) in
  let request := snd (fst result) in
  snd result = true
  /\ (deviceType (state w) = mobile ->
      isNavOpen (state w') = false
      /\ (nav (elements w) <> None -> navToggle (elements w) <> None ->
          body_overflow (document w') = ""))
  /\ (deviceType (state w) <> mobile ->
      isNavOpen (state w') = isNavOpen (state w)
      /\ body_overflow (document w') = body_overflow (document w))
  /\ (getElementById id = None ->
      request = None /\ currentSection (state w') = currentSection (state w))
  /\ (forall top, getElementById id = Some top ->
        currentSection (state w') = id
        /\ exists r, request = Some r
                     /\ scroll_top r = top - headerHeight w - 20)
  /\ (forall target, isHashLink target = false ->
        handleNavLinkClick getElementById prefersReducedMotion target w
        = ((w, None), false)).
Proof.
  destruct w as [[no co cs sp dt] [n nt nl lk hd ct cp cc cf st cm secs]
                   [bo an nn ae] c t ts k].
  assert (P : prefix "" id = true) by (destruct id; reflexivity).
  unfold handleNavLinkClick, scrollToSection, updateNavState, headerHeight,
    isHashLink, startsWith; simpl. rewrite !P.
  split; [destruct dt; simpl; destruct (getElementById id), n, nt; reflexivity|].
  split.
  { intros ->. simpl. destruct (getElementById id), n, nt; simpl;
      split; auto; intros; congruence. }
  split.
  { intros Hd. destruct dt; try congruence; simpl;
      destruct (getElementById id); simpl; auto. }
  split.
  { intros ->. destruct dt; simpl; destruct n, nt; simpl; auto. }
  split.
  { intros top ->. destruct dt; simpl; destruct n, nt; simpl; split; auto;
      destruct prefersReducedMotion; simpl; eexists; split; reflexivity. }
  intros target Ht.
  destruct target as [href|]; [rewrite Ht|];
    destruct dt; simpl; rewrite ?andb_false_r; reflexivity.
Qed.

(** X15 for the link to "about" on the sample phone with the menu open. *)
Lemma handleNavLinkClick_fragment_witness :
  isNavOpen (state Sample.worldNavOpen) = true
  /\ isNavOpen
       (state (fst (fst (handleNavLinkClick
                           (fun id => if String.eqb id "about"
                                      then Some 500 else None)
                           false (Some "#about") Sample.worldNavOpen))))
     = false
  /\ body_overflow
       (document (fst (fst (handleNavLinkClick
                              (fun id => if String.eqb id "about"
                                         then Some 500 else None)
                              false (Some "#about") Sample.worldNavOpen))))
     = "".
Proof.
  destruct (handleNavLinkClick_fragment
              (fun id => if String.eqb id "about" then Some 500 else None)
              false "about" Sample.worldNavOpen) as (_ & H & _).
  destruct (H eq_refl) as [H1 H2].
  split; [reflexivity|]. split; [exact H1|].
  apply H2; discriminate.
Defined.

(* ================================================================== *)
(** * Further properties of the chat submission *)
(* ================================================================== *)

(** What the helpers of the handler do to the form, the transcript, the
    status line and the state. *)
Lemma chatForm_showChatStatus m t w :
  chatForm (elements (showChatStatus m t w)) = chatForm (elements w).
Proof. unfold showChatStatus. destruct (chatStatus (elements w)); reflexivity. Qed.
Lemma chatForm_addChatMessage m s w :
  chatForm (elements (addChatMessage m s w)) = chatForm (elements w).
Proof. unfold addChatMessage. destruct (chatMessages (elements w)); reflexivity. Qed.
Lemma chatForm_setTimeout cb d w :
  chatForm (elements (setTimeout cb d w)) = chatForm (elements w).
Proof. reflexivity. Qed.
Lemma chatForm_console_error m w :
  chatForm (elements (console_error m w)) = chatForm (elements w).
Proof. reflexivity. Qed.
Lemma chatForm_update_chatForm f w :
  chatForm (elements (update_chatForm f w))
  = option_map f (chatForm (elements w)).
Proof. reflexivity. Qed.

Lemma chatMessages_showChatStatus m t w :
  chatMessages (elements (showChatStatus m t w)) = chatMessages (elements w).
Proof. unfold showChatStatus. destruct (chatStatus (elements w)); reflexivity. Qed.
Lemma chatMessages_addChatMessage m s w :
  chatMessages (elements (addChatMessage m s w))
  = option_map
      (fun children =>
         (children ++ [mkChatMessage ("chat-message chat-message-" ++ s) m])%list)
      (chatMessages (elements w)).
Proof.
  unfold addChatMessage.
  destruct (chatMessages (elements w)) eqn:E; [reflexivity | now rewrite E].
Qed.
Lemma chatMessages_setTimeout cb d w :
  chatMessages (elements (setTimeout cb d w)) = chatMessages (elements w).
Proof. reflexivity. Qed.
Lemma chatMessages_console_error m w :
  chatMessages (elements (console_error m w)) = chatMessages (elements w).
Proof. reflexivity. Qed.
Lemma chatMessages_update_chatForm f w :
  chatMessages (elements (update_chatForm f w)) = chatMessages (elements w).
Proof. reflexivity. Qed.

Lemma chatStatus_showChatStatus m t w :
  chatStatus (elements (showChatStatus m t w))
  = option_map
      (fun _ => mkChatStatus m ("chat-status status-" ++ t)
                  (Some "status") (Some "polite"))
      (chatStatus (elements w)).
Proof.
  unfold showChatStatus.
  destruct (chatStatus (elements w)) eqn:E; [reflexivity | now rewrite E].
Qed.
Lemma chatStatus_addChatMessage m s w :
  chatStatus (elements (addChatMessage m s w)) = chatStatus (elements w).
Proof. unfold addChatMessage. destruct (chatMessages (elements w)); reflexivity. Qed.
Lemma chatStatus_setTimeout cb d w :
  chatStatus (elements (setTimeout cb d w)) = chatStatus (elements w).
Proof. reflexivity. Qed.
Lemma chatStatus_console_error m w :
  chatStatus (elements (console_error m w)) = chatStatus (elements w).
Proof. reflexivity. Qed.
Lemma chatStatus_update_chatForm f w :
  chatStatus (elements (update_chatForm f w)) = chatStatus (elements w).
Proof. reflexivity. Qed.

Lemma state_showChatStatus m t w : state (showChatStatus m t w) = state w.
Proof. unfold showChatStatus. destruct (chatStatus (elements w)); reflexivity. Qed.
Lemma state_addChatMessage m s w : state (addChatMessage m s w) = state w.
Proof. unfold addChatMessage. destruct (chatMessages (elements w)); reflexivity. Qed.
Lemma state_setTimeout cb d w : state (setTimeout cb d w) = state w.
Proof. reflexivity. Qed.
Lemma state_console_error m w : state (console_error m w) = state w.
Proof. reflexivity. Qed.
Lemma state_update_chatForm f w : state (update_chatForm f w) = state w.
Proof. reflexivity. Qed.

Lemma console_showChatStatus m t w :
  console (showChatStatus m t w) = console w.
Proof. unfold showChatStatus. destruct (chatStatus (elements w)); reflexivity. Qed.

Lemma timers_showChatStatus m t w : timers (showChatStatus m t w) = timers w.
Proof. unfold showChatStatus. destruct (chatStatus (elements w)); reflexivity. Qed.
Lemma nextTimer_showChatStatus m t w :
  nextTimer (showChatStatus m t w) = nextTimer w.
Proof. unfold showChatStatus. destruct (chatStatus (elements w)); reflexivity. Qed.
Lemma now_showChatStatus m t w : now (showChatStatus m t w) = now w.
Proof. unfold showChatStatus. destruct (chatStatus (elements w)); reflexivity. Qed.
Lemma timers_setTimeout cb d w :
  timers (setTimeout cb d w)
  = (timers w ++ [mkTimer (nextTimer w) (now w + d) cb])%list.
Proof. reflexivity. Qed.
Lemma nextTimer_setTimeout cb d w :
  nextTimer (setTimeout cb d w) = S (nextTimer w).
Proof. reflexivity. Qed.
Lemma now_setTimeout cb d w : now (setTimeout cb d w) = now w.
Proof. reflexivity. Qed.
Lemma console_setTimeout cb d w : console (setTimeout cb d w) = console w.
Proof. reflexivity. Qed.
Lemma timers_update_chatForm f w : timers (update_chatForm f w) = timers w.
Proof. reflexivity. Qed.
Lemma nextTimer_update_chatForm f w :
  nextTimer (update_chatForm f w) = nextTimer w.
Proof. reflexivity. Qed.
Lemma now_update_chatForm f w : now (update_chatForm f w) = now w.
Proof. reflexivity. Qed.
Lemma console_update_chatForm f w :
  console (update_chatForm f w) = console w.
Proof. reflexivity. Qed.
Lemma timers_console_error m w : timers (console_error m w) = timers w.
Proof. reflexivity. Qed.
Lemma nextTimer_console_error m w :
  nextTimer (console_error m w) = nextTimer w.
Proof. reflexivity. Qed.
Lemma now_console_error m w : now (console_error m w) = now w.
Proof. reflexivity. Qed.
Lemma console_console_error m w :
  console (console_error m w) = (console w ++ [m])%list.
Proof. reflexivity. Qed.

Create Rewrite HintDb chat_db.
#[local] Hint Rewrite chatForm_showChatStatus chatForm_addChatMessage
  chatForm_setTimeout chatForm_console_error chatForm_update_chatForm
  chatMessages_showChatStatus chatMessages_addChatMessage
  chatMessages_setTimeout chatMessages_console_error
  chatMessages_update_chatForm chatStatus_showChatStatus
  chatStatus_addChatMessage chatStatus_setTimeout chatStatus_console_error
  chatStatus_update_chatForm state_showChatStatus state_addChatMessage
  state_setTimeout state_console_error state_update_chatForm
  console_showChatStatus timers_showChatStatus nextTimer_showChatStatus
  now_showChatStatus timers_setTimeout nextTimer_setTimeout now_setTimeout
  console_setTimeout timers_update_chatForm nextTimer_update_chatForm
  now_update_chatForm console_update_chatForm timers_console_error
  nextTimer_console_error now_console_error console_console_error : chat_db.

Lemma setButtonLoading_restores (button : ButtonEl) :
  button_innerHTML button <> "" ->
  setButtonLoading (setButtonLoading (Some button) true) false
  = Some (mkButton (button_innerHTML button) (Some (button_innerHTML button))
            false None).
Proof.
  intros H. simpl. destruct (button_innerHTML button);
    [congruence | reflexivity].
Qed.



(** X17: were the promise rejected, the handler would log the error, show
    the error status, leave the fields and the transcript as the user has
    them, give the button its label back and schedule nothing but the
    clearing of the status: no auto-close. *)
Theorem chat_submission_failure (random : Q) (reason : string) (w : World)
    (form : FormEl) (button : ButtonEl) :
  chatForm (elements w) = Some form ->
  form_submit form = Some button ->
  button_innerHTML button <> "" ->
  validateChatForm (FormData_of form) = true ->
  let sending := handleChatSubmit random w in
  let failed := resumeChatSubmit (Rejected reason) sending in
  console failed = (console w ++ ["Chat submission error:"])%list
  /\ chatForm (elements failed)
     = Some (mkForm (form_fields form)
               (Some (mkButton (button_innerHTML button)
                        (Some (button_innerHTML button)) false None))
               (form_others form))
  /\ chatMessages (elements failed) = chatMessages (elements w)
  /\ (forall st, chatStatus (elements w) = Some st ->
        chatStatus (elements failed)
        = Some (mkChatStatus "Sorry, something went wrong. Please try again."
                  "chat-status status-error" (Some "status") (Some "polite")))
  /\ timers failed
     = (timers sending
          ++ [mkTimer (nextTimer sending) (now sending + 5000)
                CbClearChatStatus])%list
  /\ state failed = state w.
Proof.
  intros Hform Hbtn Hlabel Hok sending failed. subst failed sending.
  unfold handleChatSubmit. rewrite Hform, Hok. simpl negb. cbv iota.
  unfold resumeChatSubmit, catchChatSubmit, awaitChatSubmit, setSubmitLoading.
  autorewrite with chat_db. rewrite Hform.
  cbn [option_map form_fields form_submit form_others]. rewrite Hbtn.
  split; [reflexivity|].
  split.
  { rewrite setButtonLoading_restores by exact Hlabel. reflexivity. }
  split; [reflexivity|].
  split; [intros st ->; reflexivity|].
  split; reflexivity.
Qed.

(** X17 on the sample page. *)
Lemma chat_submission_failure_witness :
  console (resumeChatSubmit (Rejected "offline")
             (handleChatSubmit (1 # 2) Sample.world))
  = ["Chat submission error:"]
  /\ chatForm (elements (resumeChatSubmit (Rejected "offline")
                           (handleChatSubmit (1 # 2) Sample.world)))
     = Some (mkForm (form_fields Sample.validForm)
               (Some (mkButton "Send" (Some "Send") false None)) []).
Proof.
  destruct (chat_submission_failure (1 # 2) "offline" Sample.world
              Sample.validForm (mkButton "Send" None false None)
              eq_refl eq_refl) as (Hc & Hf & _).
  - discriminate.
  - reflexivity.
  - split; [exact Hc | exact Hf].
Defined.

(* ================================================================== *)
(** * Further properties of form validation *)
(* ================================================================== *)

Lemma validateForm_fold (form : list FieldEl) :
  forall ok done,
    fold_left
      (fun acc field =>
         if fe_required field then
           let result := validateField field in
           ((if negb (fst result) then false else fst acc),
            (snd acc ++ [snd result])%list)
         else (fst acc, (snd acc ++ [field])%list))
      form (ok, done)
    = (ok && forallb (fun f => negb (fe_required f) || fst (validateField f))
                     form,
       (done ++ map (fun f => if fe_required f then snd (validateField f)
                              else f) form)%list).
Proof.
  induction form as [|f form IH]; intros ok done;
    cbn [fold_left forallb map].
  - now rewrite andb_true_r, app_nil_r.
  - destruct (fe_required f); cbn [fst snd negb orb]; rewrite IH, <- app_assoc;
      cbn [app].
    + destruct (fst (validateField f)); cbn [negb andb];
        [reflexivity | now rewrite andb_false_r].
    + reflexivity.
Qed.

(** X18: [validateForm] accepts a form exactly when every required control
    passes [validateField]; controls that are not required are neither
    checked nor marked, so an optional field with a malformed address does
    not block the form; every required control gets its error class and
    [aria-invalid] written, also those after the first failure. *)
Theorem validateForm_required (form : list FieldEl) :
  (fst (validateForm form) = true
   <-> forall f, In f form -> fe_required f = true ->
                 fst (validateField f) = true)
  /\ snd (validateForm form)
     = map (fun f => if fe_required f then snd (validateField f) else f) form
  /\ Forall2
       (fun f f' =>
          if fe_required f
          then fe_error f' = negb (fst (validateField f))
               /\ fe_aria_invalid f'
                  = Some (ofBool (negb (fst (validateField f))))
               /\ fe_value f' = fe_value f
          else f' = f)
       form (snd (validateForm form)).
Proof.
  unfold validateForm. rewrite validateForm_fold.
  cbn [fst snd andb app].
  split; [|split].
  - rewrite forallb_forall. split.
    + intros H f Hin Hr. specialize (H f Hin). rewrite Hr in H. exact H.
    + intros H f Hin. destruct (fe_required f) eqn:Hr; cbn [negb orb]; auto.
  - reflexivity.
  - induction form as [|f form IH]; cbn [map]; constructor; auto.
    destruct (fe_required f) eqn:Hr; [|reflexivity].
    unfold validateField. rewrite Hr. cbn [fst snd fe_error fe_aria_invalid fe_value].
    auto.
Qed.

(** X18 for a form with a required name and an optional e-mail field that
    holds no address. *)
Lemma validateForm_required_witness :
  fst (validateForm
         [mkFieldEl "Al" true "text" (Some (-1)) false None;
          mkFieldEl "nobody" false "email" (Some (-1)) false None]) = true.
Proof.
  apply (proj1 (validateForm_required
                  [mkFieldEl "Al" true "text" (Some (-1)) false None;
                   mkFieldEl "nobody" false "email" (Some (-1)) false None])).
  intros f [<- | [<- | []]] Hr; [reflexivity | discriminate Hr].
Defined.

(* ================================================================== *)
(** * What construction records and what [destroy] leaves behind *)
(* ================================================================== *)

Import Wiring.

Lemma Forall_lt_S {A : Type} (f : A -> nat) (n : nat) (xs : list A) :
  Forall (fun x => (f x < n)%nat) xs -> Forall (fun x => (f x < S n)%nat) xs.
Proof. apply Forall_impl. intros; lia. Qed.

Lemma Forall_observer_S (n : nat) (os : list Observer) :
  Forall (fun o => match o with
                   | IntersectionObs id => (id < n)%nat
                   | MediaObs _ _ => True
                   end) os ->
  Forall (fun o => match o with
                   | IntersectionObs id => (id < S n)%nat
                   | MediaObs _ _ => True
                   end) os.
Proof. apply Forall_impl. intros [id|m h]; [lia | trivial]. Qed.

Lemma sameListener_id (x l : Listener) :
  h_id (l_handler x) <> h_id (l_handler l) -> sameListener x l = false.
Proof.
  intros H. unfold sameListener. apply Nat.eqb_neq in H. rewrite H.
  apply andb_false_r.
Qed.

(** A function object made now is on no record. *)
Lemma recorded_fresh (a : App) (n : nat) (x : Listener) :
  Forall (fun l => (h_id (l_handler l) < n)%nat) (eventListeners a) ->
  (n <= h_id (l_handler x))%nat ->
  recorded a x = false.
Proof.
  intros H Hx. unfold recorded. apply not_true_is_false. intros E.
  apply existsb_exists in E as (r & Hin & Hs).
  rewrite Forall_forall in H. specialize (H r Hin).
  rewrite sameListener_id in Hs; [discriminate | lia].
Qed.

Lemma recordedObserver_fresh (a : App) (n id : nat) :
  Forall (fun o => match o with
                   | IntersectionObs j => (j < n)%nat
                   | MediaObs _ _ => True
                   end) (observers a) ->
  (n <= id)%nat ->
  recordedObserver a id = false.
Proof.
  intros H Hx. unfold recordedObserver. apply not_true_is_false. intros E.
  apply existsb_exists in E as (o & Hin & Hs).
  rewrite Forall_forall in H. specialize (H o Hin).
  destruct o as [j|m h]; [|discriminate].
  apply Nat.eqb_eq in Hs. lia.
Qed.

(** Recording one more registration, made now, hides none of the old
    ones. *)
Lemma unrecorded_push (evs : list Listener) (os os' : list Observer)
    (l : Listener) (n : nat) (xs : list Listener) :
  Forall (fun x => (h_id (l_handler x) < n)%nat) xs ->
  (n <= h_id (l_handler l))%nat ->
  filter (fun x => negb (recorded (mkApp (evs ++ [l]) os') x)) xs
  = filter (fun x => negb (recorded (mkApp evs os) x)) xs.
Proof.
  intros H Hl. apply filter_ext_in. intros x Hin.
  rewrite Forall_forall in H. specialize (H x Hin).
  unfold recorded. cbn [eventListeners]. rewrite existsb_app. cbn [existsb].
  rewrite sameListener_id by lia. now rewrite !orb_false_r.
Qed.

Lemma unrecordedObservers_push (evs : list Listener) (os : list Observer)
    (id n : nat) (xs : list nat) :
  Forall (fun x => (x < n)%nat) xs ->
  (n <= id)%nat ->
  filter (fun x => negb (recordedObserver
                           (mkApp evs (os ++ [IntersectionObs id])) x)) xs
  = filter (fun x => negb (recordedObserver (mkApp evs os) x)) xs.
Proof.
  intros H Hl. apply filter_ext_in. intros x Hin.
  rewrite Forall_forall in H. specialize (H x Hin).
  unfold recordedObserver. cbn [observers]. rewrite existsb_app.
  cbn [existsb].
  replace (Nat.eqb x id) with false by (symmetry; apply Nat.eqb_neq; lia).
  now rewrite !orb_false_r.
Qed.

Lemma unrecordedObservers_media (evs : list Listener) (os : list Observer)
    (m : string) (h : Handler) (xs : list nat) :
  filter (fun x => negb (recordedObserver
                           (mkApp evs (os ++ [MediaObs m h])) x)) xs
  = filter (fun x => negb (recordedObserver (mkApp evs os) x)) xs.
Proof.
  apply filter_ext. intros x.
  unfold recordedObserver. cbn [observers]. rewrite existsb_app.
  cbn [existsb]. now rewrite !orb_false_r.
Qed.

Lemma App_eta (a : App) : mkApp (eventListeners a) (observers a) = a.
Proof. now destruct a. Qed.

Lemma adds_eq (f : Build -> Build) ls ls' os os' patch patch' :
  adds f ls os patch -> ls = ls' -> os = os' -> patch = patch' ->
  adds f ls' os' patch'.
Proof. now intros H <- <- <-. Qed.

Lemma adds_id : adds (fun c => c) [] 0 false.
Proof.
  intros c Hc. rewrite app_nil_r, Nat.add_0_r, orb_false_r. tauto.
Qed.

Lemma adds_let (f g : Build -> Build) ls1 ls2 os1 os2 p1 p2 :
  adds f ls1 os1 p1 -> adds g ls2 os2 p2 ->
  adds (fun c => let c := f c in g c) (ls1 ++ ls2) (os1 + os2) (p1 || p2).
Proof.
  intros Hf Hg c Hc. cbv zeta.
  destruct (Hf c Hc) as (F1 & T1 & O1 & W1 & B1 & P1).
  destruct (Hg (f c) F1) as (F2 & T2 & O2 & W2 & B2 & P2).
  split; [exact F2|].
  split; [now rewrite T2, T1, app_assoc|].
  split; [rewrite O2, O1; lia|].
  split; [congruence|].
  split; [congruence|].
  now rewrite P2, P1, orb_assoc.
Qed.

Lemma adds_let_quiet (f g : Build -> Build) :
  adds f [] 0 false -> adds g [] 0 false ->
  adds (fun c => let c := f c in g c) [] 0 false.
Proof. intros Hf Hg. apply (adds_let f g _ _ _ _ _ _ Hf Hg). Qed.

Lemma adds_when (b : bool) (f : Build -> Build) ls os patch :
  adds f ls os patch ->
  adds (when b f) (if b then ls else []) (if b then os else 0) (b && patch).
Proof.
  intros Hf. destruct b; [exact Hf | apply adds_id].
Qed.

Lemma adds_when_quiet (b : bool) (f : Build -> Build) :
  adds f [] 0 false -> adds (when b f) [] 0 false.
Proof.
  intros Hf. destruct b; [exact Hf | apply adds_id].
Qed.

Lemma adds_listen (record : bool) (t : Target) (ty code : string) :
  adds (listen record t ty code)
       (if record then [] else [(t, ty, code)]) 0 false.
Proof.
  intros c (Hl & He & Ho & Hr & Hm).
  unfold listen, allocate, addEventListener, unrecorded, unrecordedObservers,
    fresh.
  cbn [browser this listeners observing mediaListeners nextObject
       window_eJuuzApp backToTopAttached historyPatched].
  rewrite orb_false_r, Nat.add_0_r, filter_app, map_app.
  set (l := mkListener t ty (mkHandler (nextObject (browser c)) code)).
  split.
  { split; [apply Forall_app; split;
            [apply Forall_lt_S, Hl | repeat constructor]|].
    split; [destruct record;
            [apply Forall_app; split;
             [apply Forall_lt_S, He | repeat constructor]
            | apply Forall_lt_S, He]|].
    split; [apply Forall_lt_S, Ho|].
    split; [destruct record; apply Forall_observer_S, Hr|].
    destruct record; exact Hm. }
  split.
  { destruct record.
    - rewrite (unrecorded_push _ (observers (this c)) _ _
                 (nextObject (browser c))), App_eta by (auto; apply Nat.le_refl).
      cbn [filter]. unfold recorded at 2. cbn [eventListeners].
      rewrite existsb_app. cbn [existsb]. rewrite sameListener_refl.
      rewrite orb_true_r. reflexivity.
    - cbn [filter].
      rewrite (recorded_fresh (this c) (nextObject (browser c)) l He)
        by apply Nat.le_refl.
      reflexivity. }
  split; [destruct record; reflexivity|].
  split; [reflexivity|]. split; reflexivity.
Qed.

Lemma adds_observe (record : bool) :
  adds (observe record) [] (if record then 0 else 1) false.
Proof.
  intros c (Hl & He & Ho & Hr & Hm).
  unfold observe, allocate, unrecorded, unrecordedObservers, fresh.
  cbn [browser this listeners observing mediaListeners nextObject
       window_eJuuzApp backToTopAttached historyPatched].
  rewrite orb_false_r, app_nil_r, filter_app, length_app.
  split.
  { split; [apply Forall_lt_S, Hl|].
    split; [destruct record; apply Forall_lt_S, He|].
    split; [apply Forall_app; split;
            [apply Forall_lt_S, Ho | repeat constructor]|].
    split; [destruct record;
            [apply Forall_app; split;
             [apply Forall_observer_S, Hr | repeat constructor]
            | apply Forall_observer_S, Hr]|].
    destruct record; [|exact Hm].
    intros m h Hin. apply in_or_app. left. apply Hm, Hin. }
  split; [destruct record; reflexivity|].
  split.
  { destruct record.
    - rewrite (unrecordedObservers_push _ _ _ (nextObject (browser c)))
        by (auto; apply Nat.le_refl).
      rewrite App_eta. cbn [filter]. unfold recordedObserver at 2.
      cbn [observers]. rewrite existsb_app. cbn [existsb].
      rewrite Nat.eqb_refl, orb_true_r. reflexivity.
    - cbn [filter].
      rewrite (recordedObserver_fresh (this c) (nextObject (browser c)) _ Hr)
        by apply Nat.le_refl.
      reflexivity. }
  split; [reflexivity|]. split; reflexivity.
Qed.

Lemma adds_watchMedia (media code : string) :
  adds (watchMedia media code) [] 0 false.
Proof.
  intros c (Hl & He & Ho & Hr & Hm).
  unfold watchMedia, allocate, unrecorded, unrecordedObservers, fresh.
  cbn [browser this listeners observing mediaListeners nextObject
       window_eJuuzApp backToTopAttached historyPatched].
  rewrite orb_false_r, app_nil_r, Nat.add_0_r.
  split.
  { split; [apply Forall_lt_S, Hl|].
    split; [apply Forall_lt_S, He|].
    split; [apply Forall_lt_S, Ho|].
    split; [apply Forall_app; split;
            [apply Forall_observer_S, Hr | repeat constructor]|].
    intros m h Hin. apply in_or_app.
    apply in_app_or in Hin as [Hin | [E | []]];
      [left; apply Hm, Hin | right; left; now injection E as <- <-]. }
  split; [reflexivity|].
  split; [now rewrite unrecordedObservers_media, App_eta|].
  split; [reflexivity|]. split; reflexivity.
Qed.

Lemma adds_patchHistory : adds patchHistory [] 0 true.
Proof.
  intros c Hc. unfold patchHistory, unrecorded, unrecordedObservers, fresh.
  cbn [browser this listeners observing mediaListeners nextObject
       window_eJuuzApp backToTopAttached historyPatched].
  rewrite orb_true_r, app_nil_r, Nat.add_0_r. repeat split; apply Hc.
Qed.

Lemma adds_setupPassiveEventListeners :
  adds setupPassiveEventListeners
       [(TDocument, "touchstart", "noop"); (TDocument, "touchmove", "noop")]
       0 false.
Proof.
  intros c (Hl & He & Ho & Hr & Hm).
  unfold setupPassiveEventListeners, allocate, addEventListener, unrecorded,
    unrecordedObservers, fresh.
  cbn [browser this listeners observing mediaListeners nextObject
       window_eJuuzApp backToTopAttached historyPatched].
  rewrite orb_false_r, Nat.add_0_r, !filter_app, !map_app.
  split.
  { split; [repeat (apply Forall_app; split);
            [apply Forall_lt_S, Hl | repeat constructor..]|].
    split; [apply Forall_lt_S, He|].
    split; [apply Forall_lt_S, Ho|].
    split; [apply Forall_observer_S, Hr | exact Hm]. }
  split.
  { cbn [filter].
    rewrite !(recorded_fresh (this c) (nextObject (browser c)) _ He)
      by apply Nat.le_refl.
    now rewrite <- app_assoc. }
  split; [reflexivity|]. split; [reflexivity|]. split; reflexivity.
Qed.

Lemma adds_fold (f : nat -> Build -> Build) (items : list nat) :
  (forall i, adds (f i) [] 0 false) ->
  adds (fun c => fold_left (fun c i => f i c) items c) [] 0 false.
Proof.
  intros Hf. induction items as [|i items IH]; [apply adds_id|].
  intros c Hc. cbn [fold_left].
  destruct (Hf i c Hc) as (F1 & T1 & O1 & W1 & B1 & P1).
  destruct (IH (f i c) F1) as (F2 & T2 & O2 & W2 & B2 & P2).
  rewrite app_nil_r in *. rewrite Nat.add_0_r in *. rewrite orb_false_r in *.
  refine (conj F2 (conj _ (conj _ (conj _ (conj _ _))))); congruence.
Qed.

Lemma adds_forEach (n : nat) (f : nat -> Build -> Build) :
  (forall i, adds (f i) [] 0 false) -> adds (forEach n f) [] 0 false.
Proof. intros Hf. apply (adds_fold f (seq 0 n) Hf). Qed.

Lemma keeps_refl (c : Build) : fresh c -> keeps c c.
Proof. intros Hc. refine (conj Hc _). repeat split. Qed.

Lemma keeps_step (f : Build -> Build) (c0 c : Build) :
  adds f [] 0 false -> keeps c0 c -> keeps c0 (f c).
Proof.
  intros Hf (F1 & T1 & O1 & W1 & B1 & P1).
  destruct (Hf c F1) as (F2 & T2 & O2 & W2 & B2 & P2).
  rewrite app_nil_r in T2. rewrite Nat.add_0_r in O2.
  rewrite orb_false_r in P2.
  refine (conj F2 (conj _ (conj _ (conj _ (conj _ _))))); congruence.
Qed.

Lemma keeps_adds (f : Build -> Build) :
  (forall c, fresh c -> keeps c (f c)) -> adds f [] 0 false.
Proof.
  intros H c Hc. destruct (H c Hc) as (F & T & O & W & B & P).
  rewrite app_nil_r, Nat.add_0_r, orb_false_r.
  refine (conj F (conj _ (conj _ (conj _ (conj _ _))))); assumption.
Qed.

Lemma adds_wireChatForm (inputs : nat) :
  adds (wireChatForm inputs) [] 0 false.
Proof.
  apply keeps_adds. intros c Hc. unfold wireChatForm.
  apply (keeps_step (forEach inputs _)).
  - apply adds_forEach. intros i. apply keeps_adds. intros c' Hc'.
    do 2 (apply (keeps_step (listen true _ _ _)); [apply (adds_listen true)|]).
    apply keeps_refl, Hc'.
  - apply (keeps_step (listen true _ _ _)); [apply (adds_listen true)|].
    apply keeps_refl, Hc.
Qed.

Lemma adds_wireForms (ids : list string) :
  forall i, adds (wireForms i ids) [] 0 false.
Proof.
  induction ids as [|formId ids IH]; intros i; [apply adds_id|].
  apply keeps_adds. intros c Hc. cbn [wireForms].
  apply (keeps_step (wireForms (S i) ids)); [apply IH|].
  destruct (String.eqb formId "signup-form"
            || String.eqb formId "login-form").
  - apply keeps_refl, Hc.
  - apply (keeps_step (listen true _ _ _)); [apply (adds_listen true)|].
    apply keeps_refl, Hc.
Qed.

Ltac keeps_walk :=
  lazymatch goal with
  | |- keeps _ (listen true _ _ _ _) =>
      apply (keeps_step (listen true _ _ _));
      [apply (adds_listen true) | keeps_walk]
  | |- keeps _ (when ?b ?f _) =>
      apply (keeps_step (when b f));
      [apply adds_when_quiet, (adds_listen true) | keeps_walk]
  | |- keeps _ (forEach ?n ?f _) =>
      apply (keeps_step (forEach n f));
      [apply adds_forEach; intros ?; apply (adds_listen true) | keeps_walk]
  | |- keeps _ (wireForms ?i ?ids _) =>
      apply (keeps_step (wireForms i ids)); [apply adds_wireForms | keeps_walk]
  | |- keeps _ (wireChatForm ?n _) =>
      apply (keeps_step (wireChatForm n));
      [apply adds_wireChatForm | keeps_walk]
  | |- keeps ?c ?c => apply keeps_refl; assumption
  end.

Lemma adds_setupEventListeners (p : Page) :
  adds (setupEventListeners p) [] 0 false.
Proof.
  apply keeps_adds. intros c Hc. unfold setupEventListeners. cbv zeta.
  destruct (page_chatForm p); keeps_walk.
Qed.

Lemma adds_initModules (p : Page) :
  adds (initModules p)
       (if page_serviceWorkerHttps p
        then [(TWindow, "load", "navigator.serviceWorker.register")] else [])
       0 false.
Proof.
  unfold initModules.
  eapply adds_eq;
    [eapply (adds_let (initIntersectionObserver p) (initServiceWorker p));
     [apply adds_when_quiet, (adds_observe true)
     | apply adds_when, (adds_listen false)]
    | reflexivity | now destruct (page_serviceWorkerHttps p)
    | now rewrite andb_false_r].
Qed.

Lemma adds_observeNavigationState (p : Page) :
  adds (observeNavigationState p) [] 0 (page_pushState p).
Proof.
  unfold observeNavigationState.
  eapply adds_eq;
    [apply adds_when;
     eapply (adds_let patchHistory
               (fun c =>
                  let c := listen true TWindow "popstate"
                             "dispatch locationchange" c in
                  listen true TWindow "locationchange" "updateActiveNavLink"
                    c));
     [apply adds_patchHistory
     | eapply (adds_let (listen true _ _ _) (listen true _ _ _));
       apply (adds_listen true)]
    | now destruct (page_pushState p)
    | now destruct (page_pushState p)
    | now destruct (page_pushState p)].
Qed.

Lemma adds_observeSystemPreferences :
  adds observeSystemPreferences [] 0 false.
Proof.
  unfold observeSystemPreferences.
  apply (adds_let_quiet (watchMedia _ _) (watchMedia _ _));
    apply adds_watchMedia.
Qed.

Lemma adds_setupObservers (p : Page) :
  adds (setupObservers p)
       (if page_connection p
        then [(TConnection, "change", "updateNetworkStatus")] else [])
       0 (page_pushState p).
Proof.
  unfold setupObservers.
  eapply adds_eq;
    [eapply (adds_let observeSystemPreferences
               (fun c => let c := observeNavigationState p c in
                         observeNetworkStatus p c));
     [apply adds_observeSystemPreferences
     | eapply (adds_let (observeNavigationState p) (observeNetworkStatus p));
       [apply adds_observeNavigationState
       | apply adds_when, (adds_listen false)]]
    | reflexivity | now destruct (page_connection p)
    | cbn [orb]; now rewrite andb_false_r, orb_false_r].
Qed.

Lemma adds_setupLazyLoading (p : Page) :
  adds (setupLazyLoading p) []
       (if page_IntersectionObserver p && negb (page_nativeLazyLoading p)
        then 1 else 0)
       false.
Proof.
  unfold setupLazyLoading, setupLazyLoadFallback.
  destruct (page_nativeLazyLoading p).
  - rewrite andb_false_r. apply adds_id.
  - rewrite andb_true_r.
    eapply adds_eq; [apply adds_when, (adds_observe false) | ..];
      now destruct (page_IntersectionObserver p).
Qed.

Lemma adds_optimizePerformance (p : Page) :
  adds (optimizePerformance p)
       [(TDocument, "touchstart", "noop"); (TDocument, "touchmove", "noop")]
       (if page_IntersectionObserver p && negb (page_nativeLazyLoading p)
        then 1 else 0)
       false.
Proof.
  unfold optimizePerformance.
  eapply adds_eq;
    [eapply (adds_let setupPassiveEventListeners (setupLazyLoading p));
     [apply adds_setupPassiveEventListeners | apply adds_setupLazyLoading]
    | reflexivity | reflexivity | reflexivity].
Qed.

Lemma adds_construct (p : Page) :
  adds (fun c => optimizePerformance p
                   (setupObservers p
                      (initModules p (setupEventListeners p c))))
       ((if page_serviceWorkerHttps p
         then [(TWindow, "load", "navigator.serviceWorker.register")] else [])
        ++ (if page_connection p
            then [(TConnection, "change", "updateNetworkStatus")] else [])
        ++ [(TDocument, "touchstart", "noop");
            (TDocument, "touchmove", "noop")])
       (if page_IntersectionObserver p && negb (page_nativeLazyLoading p)
        then 1 else 0)
       (page_pushState p).
Proof.
  intros c Hc.
  destruct (adds_setupEventListeners p c Hc) as (F1 & T1 & O1 & W1 & B1 & P1).
  destruct (adds_initModules p _ F1) as (F2 & T2 & O2 & W2 & B2 & P2).
  destruct (adds_setupObservers p _ F2) as (F3 & T3 & O3 & W3 & B3 & P3).
  destruct (adds_optimizePerformance p _ F3) as (F4 & T4 & O4 & W4 & B4 & P4).
  split; [exact F4|].
  split; [rewrite T4, T3, T2, T1, app_nil_r, <- !app_assoc; reflexivity|].
  split; [rewrite O4, O3, O2, O1; lia|].
  split; [congruence|]. split; [congruence|].
  rewrite P4, P3, P2, P1, !orb_false_r. reflexivity.
Qed.

Lemma forallb_negb_existsb {A : Type} (f : A -> bool) (xs : list A) :
  forallb (fun x => negb (f x)) xs = negb (existsb f xs).
Proof.
  induction xs as [|x xs IH]; [reflexivity|].
  cbn [forallb existsb]. rewrite IH. now destruct (f x).
Qed.

(** Stopping the recorded observers disconnects exactly those. *)
Lemma stop_all_observing (os : list Observer) :
  forall b,
    observing (fold_left (fun b o => stopObserver o b) os b)
    = filter (fun id => negb (existsb
                                (fun o => match o with
                                          | IntersectionObs j => Nat.eqb id j
                                          | MediaObs _ _ => false
                                          end) os))
             (observing b).
Proof.
  induction os as [|o os IH]; intros b; cbn [fold_left existsb].
  - induction (observing b) as [|x xs IHx];
      [reflexivity | cbn [filter negb]; f_equal; exact IHx].
  - rewrite IH. destruct o as [j|m h]; cbn [stopObserver observing orb].
    + induction (observing b) as [|x xs IHx]; [reflexivity|].
      cbn [filter]. destruct (Nat.eqb x j); cbn [negb orb filter];
        [exact IHx|].
      destruct (existsb _ os); cbn [negb]; [exact IHx | now rewrite IHx].
    + reflexivity.
Qed.

Lemma stop_all_history (os : list Observer) :
  forall b,
    let b' := fold_left (fun b o => stopObserver o b) os b in
    historyPatched b' = historyPatched b.
Proof.
  induction os as [|o os IH]; intros b; [reflexivity|].
  cbn [fold_left]. cbv zeta in IH. rewrite IH. now destruct o.
Qed.

Lemma detach_all_history (rs : list Listener) :
  forall b,
    let b' := fold_left (fun b l => removeEventListener l b) rs b in
    historyPatched b' = historyPatched b.
Proof.
  induction rs as [|r rs IH]; intros b; [reflexivity|].
  cbn [fold_left]. cbv zeta in IH. now rewrite IH.
Qed.

(** [initApp] with and without an instance on [window]. *)
Lemma initApp_Some (p : Page) (b : Browser) (a : App) :
  window_eJuuzApp b = Some a ->
  initApp p b
  = mkBrowser
      ((listeners b
          ++ [mkListener TWindow "error"
                (mkHandler (nextObject b) "window.eJuuzApp.handleError")])
         ++ [mkListener TWindow "unhandledrejection"
               (mkHandler (S (nextObject b)) "window.eJuuzApp.handleError")])
      (mediaListeners b) (observing b) (backToTopAttached b)
      (historyPatched b) (S (S (nextObject b))) (Some a).
Proof. intros H. unfold initApp. rewrite H. unfold listen. cbn. now rewrite H. Qed.

Lemma initApp_None (p : Page) (b : Browser) :
  window_eJuuzApp b = None ->
  let c := construct p b in
  initApp p b
  = mkBrowser
      ((listeners (browser c)
          ++ [mkListener TWindow "error"
                (mkHandler (nextObject (browser c))
                   "window.eJuuzApp.handleError")])
         ++ [mkListener TWindow "unhandledrejection"
               (mkHandler (S (nextObject (browser c)))
                  "window.eJuuzApp.handleError")])
      (mediaListeners (browser c)) (observing (browser c))
      (backToTopAttached (browser c)) (historyPatched (browser c))
      (S (S (nextObject (browser c)))) (Some (this c)).
Proof.
  intros H c. unfold initApp. rewrite H. fold c.
  unfold listen, allocate, addEventListener, set_window_eJuuzApp.
  reflexivity.
Qed.

(** What is attached once a page has been set up in a new browser and torn
    down again. *)
Lemma destroy_initApp_pristine (p : Page) :
  let after := destroy (initApp p pristine) in
  map triple (listeners after) = leaked p
  /\ mediaListeners after = []
  /\ List.length (observing after)
     = (if page_IntersectionObserver p && negb (page_nativeLazyLoading p)
        then 1 else 0)%nat
  /\ historyPatched after = page_pushState p
  /\ backToTopAttached after = false
  /\ window_eJuuzApp after = Some (mkApp [] []).
Proof.
  intros after. subst after.
  rewrite (initApp_None p pristine eq_refl).
  set (c0 := mkBuild (mkBrowser [] [] [] true false 0 None) (mkApp [] [])).
  assert (F0 : fresh c0).
  { unfold fresh. cbn. repeat split; try constructor. intros m h []. }
  destruct (adds_construct p c0 F0) as (F & T & O & W & B & P).
  assert (E : optimizePerformance p
                (setupObservers p (initModules p (setupEventListeners p c0)))
              = construct p pristine) by reflexivity.
  rewrite E in F, T, O, W, B, P. clear E. cbv zeta.
  remember (construct p pristine) as c eqn:Ec. clear Ec.
  assert (T0 : map triple (unrecorded c0) = []) by reflexivity.
  assert (O0 : List.length (unrecordedObservers c0) = 0%nat) by reflexivity.
  assert (P0 : historyPatched (browser c0) = false) by reflexivity.
  rewrite T0 in T. rewrite O0 in O. rewrite P0 in P.
  clear T0 O0 P0 W B F0. clearbody c0.
  destruct F as (Hl & He & Ho & Hr & Hm).
  match goal with |- context [destroy ?x] => set (b := x) end.
  unfold destroy. change (window_eJuuzApp b) with (Some (this c)).
  cbv beta iota zeta.
  set (b1 := fold_left (fun b l => removeEventListener l b)
                       (eventListeners (this c)) b).
  set (b2 := fold_left (fun b o => stopObserver o b) (observers (this c)) b1).
  destruct (detach_all (eventListeners (this c)) b) as (L1 & M1 & O1 & _).
  fold b1 in L1, M1, O1.
  destruct (stop_all (observers (this c)) b1) as (L2 & _ & _ & M2).
  fold b2 in L2, M2.
  pose proof (stop_all_observing (observers (this c)) b1) as O2. fold b2 in O2.
  pose proof (stop_all_history (observers (this c)) b1) as P2.
  pose proof (detach_all_history (eventListeners (this c)) b) as P1.
  cbv zeta in P1, P2. fold b1 in P1, P2. fold b2 in P2.
  unfold set_window_eJuuzApp.
  cbn [listeners mediaListeners observing historyPatched backToTopAttached
       window_eJuuzApp].
  split.
  { rewrite L2, L1. unfold b. cbn [listeners].
    rewrite (filter_ext _ (fun x => negb (recorded (this c) x)))
      by (intros x; apply forallb_negb_existsb).
    rewrite !filter_app. cbn [filter].
    rewrite !(recorded_fresh (this c) (nextObject (browser c)) _ He)
      by (cbn; lia).
    cbn [negb]. rewrite !map_app. fold (unrecorded c). rewrite T.
    unfold leaked. cbn [map triple l_target l_type l_handler h_code app].
    rewrite <- !app_assoc. reflexivity. }
  split.
  { destruct (mediaListeners b2) as [|[m h] rest] eqn:E; [reflexivity|].
    exfalso. destruct (M2 m h) as [Hin Hnot]; [left; reflexivity|].
    rewrite M1 in Hin. apply Hnot, Hm, Hin. }
  split.
  { rewrite O2, O1. unfold b. cbn [observing].
    exact O. }
  split.
  { rewrite P2, P1. unfold b. cbn [historyPatched]. exact P. }
  split; reflexivity.
Qed.

(** X19: on every page, what [destroy()] leaves attached in a new browser
    is exactly what the constructor and [initApp] never recorded: the
    service-worker registration on [load], the [change] listener of the
    connection, the two passive touch listeners and the two global error
    handlers; no media-query listener remains; the observer of the lazy-load
    fallback, where one was made, stays connected; the patched
    [history.pushState] stays patched; the back-to-top button is gone. *)
Theorem destroy_leaves (p : Page) :
  let after := destroy (initApp p pristine) in
  map triple (listeners after) = leaked p
  /\ mediaListeners after = []
  /\ List.length (observing after)
     = (if page_IntersectionObserver p && negb (page_nativeLazyLoading p)
        then 1 else 0)%nat
  /\ historyPatched after = page_pushState p
  /\ backToTopAttached after = false.
Proof.
  intros after.
  destruct (destroy_initApp_pristine p) as (L & M & O & P & B & _).
  auto.
Qed.

(** X20: the guard of [initApp] only looks at [window.eJuuzApp], which
    [destroy()] leaves set: a second [initApp] after a teardown builds no
    instance and wires no widget of whatever page it finds, it only puts the
    two global error handlers on [window] once more, so that an [error] event
    then runs two of them. *)
Theorem initApp_after_destroy (p q : Page) :
  let again := initApp q (destroy (initApp p pristine)) in
  window_eJuuzApp again = Some (mkApp [] [])
  /\ map triple (listeners again)
     = (leaked p
          ++ [(TWindow, "error", "window.eJuuzApp.handleError");
              (TWindow, "unhandledrejection",
               "window.eJuuzApp.handleError")])%list
  /\ List.length (invoked TWindow "error" again) = 2%nat
  /\ historyPatched again = page_pushState p
  /\ backToTopAttached again = false.
Proof.
  intros again. subst again.
  destruct (destroy_initApp_pristine p) as (L & _ & _ & P & B & W).
  cbv zeta in L, P, B, W. revert L P B W.
  generalize (destroy (initApp p pristine)) as d. intros d L P B W.
  rewrite (initApp_Some q d _ W).
  cbn [window_eJuuzApp listeners historyPatched backToTopAttached].
  assert (T : map triple
                ((listeners d
                    ++ [mkListener TWindow "error"
                          (mkHandler (nextObject d)
                             "window.eJuuzApp.handleError")])
                   ++ [mkListener TWindow "unhandledrejection"
                         (mkHandler (S (nextObject d))
                            "window.eJuuzApp.handleError")])
              = (leaked p
                   ++ [(TWindow, "error", "window.eJuuzApp.handleError");
                       (TWindow, "unhandledrejection",
                        "window.eJuuzApp.handleError")])%list).
  { rewrite !map_app, L, <- app_assoc. reflexivity. }
  split; [reflexivity|]. split; [exact T|].
  split; [|split; assumption].
  unfold invoked. cbn [listeners].
  rewrite length_map.
  set (f := fun l => Target_eqb (l_target l) TWindow
                     && String.eqb (l_type l) "error").
  set (g := fun t : Target * string * string =>
              Target_eqb (fst (fst t)) TWindow
              && String.eqb (snd (fst t)) "error").
  assert (G : forall xs, List.length (filter f xs)
                         = List.length (filter g (map triple xs))).
  { induction xs as [|x xs IH]; [reflexivity|].
    cbn [map filter]. change (g (triple x)) with (f x).
    destruct (f x); cbn [List.length]; now rewrite IH. }
  rewrite G, T. unfold leaked.
  destruct (page_serviceWorkerHttps p), (page_connection p); reflexivity.
Qed.

(* ================================================================== *)
(** * Announcements for screen readers *)
(* ================================================================== *)

Lemma tidy_view (w w' : World) : liveView w' = liveView w -> tidy w -> tidy w'.
Proof.
  unfold liveView, tidy, live, waiting. intros [= -> -> -> -> ->]. auto.
Qed.

Lemma liveView_updateNavState w : liveView (updateNavState w) = liveView w.
Proof. unfold updateNavState. same_view. Qed.
Lemma liveView_updateChatState w : liveView (updateChatState w) = liveView w.
Proof. unfold updateChatState. same_view. Qed.
Lemma liveView_showChatStatus m t w :
  liveView (showChatStatus m t w) = liveView w.
Proof. unfold showChatStatus. same_view. Qed.
Lemma liveView_clearChatStatus w : liveView (clearChatStatus w) = liveView w.
Proof. unfold clearChatStatus. same_view. Qed.
Lemma liveView_addChatMessage m s w :
  liveView (addChatMessage m s w) = liveView w.
Proof. unfold addChatMessage. same_view. Qed.
Lemma liveView_focusChatToggle w : liveView (focusChatToggle w) = liveView w.
Proof. unfold focusChatToggle. same_view. Qed.
Lemma liveView_focusNavToggle w : liveView (focusNavToggle w) = liveView w.
Proof. unfold focusNavToggle. same_view. Qed.
Lemma liveView_focus t w : liveView (focus t w) = liveView w.
Proof. reflexivity. Qed.
Lemma liveView_with_state f w : liveView (with_state f w) = liveView w.
Proof. reflexivity. Qed.
Lemma liveView_with_elements f w : liveView (with_elements f w) = liveView w.
Proof. reflexivity. Qed.
Lemma liveView_update_chatForm f w :
  liveView (update_chatForm f w) = liveView w.
Proof. reflexivity. Qed.
Lemma liveView_console_error m w : liveView (console_error m w) = liveView w.
Proof. reflexivity. Qed.

Create Rewrite HintDb live_db.
#[local] Hint Rewrite liveView_updateNavState liveView_updateChatState
  liveView_showChatStatus liveView_clearChatStatus liveView_addChatMessage
  liveView_focusChatToggle liveView_focusNavToggle liveView_focus
  liveView_with_state liveView_with_elements liveView_update_chatForm
  liveView_console_error : live_db.

Ltac live_simpl :=
  unfold openNav, closeNav, openChat, closeChat, handleChatClose,
    setSubmitLoading;
  autorewrite with live_db; try reflexivity.

Ltac keep_tidy :=
  eapply tidy_view; [live_simpl | eassumption].

(** A timer for anything but a removal. *)
Lemma tidy_setTimeout (cb : Callback) (delay : Z) (w : World) :
  (forall node, cb <> CbRemoveAnnouncement node) ->
  tidy w -> tidy (setTimeout cb delay w).
Proof.
  intros Hcb (E & N & B & NT & BT & D).
  assert (R : forall id d, removing (mkTimer id d cb) = []).
  { intros id d. unfold removing. cbn [callback].
    destruct cb; try reflexivity. exfalso. now apply (Hcb node). }
  unfold tidy, live, waiting, setTimeout.
  cbn [document timers nextTimer now].
  rewrite flat_map_app, map_app. cbn [flat_map map tid].
  rewrite R, !app_nil_r.
  split; [exact E|]. split; [exact N|]. split; [exact B|].
  split.
  { apply NoDup_app; [exact NT | repeat constructor; intros [] |].
    intros x Hx [<- | []]. apply in_map_iff in Hx as (t & Et & Ht).
    rewrite Forall_forall in BT. specialize (BT t Ht). lia. }
  split.
  { apply Forall_app. split;
      [eapply Forall_impl; [|exact BT]; cbn; intros; lia
      | repeat constructor]. }
  apply Forall_app. split; [exact D|].
  constructor; [|constructor]. intros X. now rewrite R in X.
Qed.

Lemma tidy_announceStateChange (message : string) (w : World) :
  tidy w -> tidy (announceStateChange message w).
Proof.
  intros (E & N & B & NT & BT & D).
  unfold tidy, live, waiting, announceStateChange, setTimeout, with_document.
  cbn [document timers nextTimer now body_announcements nextNode].
  rewrite flat_map_app, !map_app.
  cbn [flat_map map tid fst removing callback app].
  fold (live w). fold (waiting w).
  split; [now rewrite E|].
  split.
  { apply NoDup_app; [exact N | repeat constructor; intros [] |].
    intros x Hx [<- | []]. rewrite Forall_forall in B. specialize (B _ Hx).
    lia. }
  split.
  { apply Forall_app. split;
      [eapply Forall_impl; [|exact B]; cbn; intros; lia
      | repeat constructor]. }
  split.
  { apply NoDup_app; [exact NT | repeat constructor; intros [] |].
    intros x Hx [<- | []]. apply in_map_iff in Hx as (t & Et & Ht).
    rewrite Forall_forall in BT. specialize (BT t Ht). lia. }
  split.
  { apply Forall_app. split;
      [eapply Forall_impl; [|exact BT]; cbn; intros; lia
      | repeat constructor]. }
  apply Forall_app. split; [exact D|].
  constructor; [|constructor]. intros _. cbn [due]. lia.
Qed.

Lemma tidy_handleNavToggle w : tidy w -> tidy (handleNavToggle w).
Proof.
  intros T. unfold handleNavToggle. apply tidy_announceStateChange. keep_tidy.
Qed.

Lemma tidy_handleChatToggle w : tidy w -> tidy (handleChatToggle w).
Proof.
  intros T. unfold handleChatToggle. apply tidy_announceStateChange.
  set (w1 := updateChatState _).
  assert (T1 : tidy w1) by (subst w1; keep_tidy).
  destruct (chatForm (elements w1)); [|exact T1].
  destruct (isChatOpen (state w1)); [|exact T1].
  apply tidy_setTimeout; [discriminate | exact T1].
Qed.

Lemma liveView_handleKeyDownEscape w :
  liveView (handleKeyDownEscape w) = liveView w.
Proof.
  unfold handleKeyDownEscape.
  destruct (isNavOpen (state w)).
  - match goal with
    | |- context [if ?b then _ else _] => destruct b
    end; live_simpl.
  - destruct (isChatOpen (state w)); live_simpl.
Qed.

Lemma liveView_handleClickOutside target w :
  liveView (handleClickOutside target w) = liveView w.
Proof.
  unfold handleClickOutside.
  match goal with
  | |- context [updateNavState ?x] =>
      assert (E : liveView (updateNavState x) = liveView w) by live_simpl
  end.
  repeat match goal with
         | |- context [if ?b then _ else _] => destruct b
         end; live_simpl; auto.
Qed.

Lemma tidy_handleChatSubmit random w :
  tidy w -> tidy (handleChatSubmit random w).
Proof.
  intros T. unfold handleChatSubmit.
  destruct (chatForm (elements w)) as [form|]; [|exact T].
  destruct (validateChatForm (FormData_of form)); cbn [negb].
  - unfold awaitChatSubmit. apply tidy_setTimeout; [discriminate|]. keep_tidy.
  - keep_tidy.
Qed.

Lemma tidy_resumeChatSubmit s w : tidy w -> tidy (resumeChatSubmit s w).
Proof.
  intros T. unfold resumeChatSubmit.
  apply tidy_setTimeout; [discriminate|].
  destruct s as [|reason].
  - destruct (shadowed _).
    + unfold catchChatSubmit. keep_tidy.
    + eapply tidy_view; [live_simpl|].
      apply tidy_setTimeout; [discriminate|]. keep_tidy.
  - unfold catchChatSubmit. keep_tidy.
Qed.

Lemma tidy_runCallback cb w :
  (forall node, cb <> CbRemoveAnnouncement node) ->
  tidy w -> tidy (runCallback cb w).
Proof.
  intros Hcb T. destruct cb as [s| | | |node]; cbn [runCallback].
  - now apply tidy_resumeChatSubmit.
  - keep_tidy.
  - keep_tidy.
  - destruct (chatForm (elements w)) as [form|]; [|exact T].
    destruct (hasInput form); [keep_tidy | exact T].
  - exfalso. now apply (Hcb node).
Qed.

Lemma tidy_dispatch i w : tidy w -> tidy (dispatch i w).
Proof.
  intros T. destruct i; cbn [dispatch].
  - destruct (navToggle (elements w));
      [now apply tidy_handleNavToggle | exact T].
  - destruct (chatToggle (elements w));
      [now apply tidy_handleChatToggle | exact T].
  - destruct (chatClose (elements w)); [keep_tidy | exact T].
  - eapply tidy_view; [apply liveView_handleKeyDownEscape | exact T].
  - eapply tidy_view; [apply liveView_handleClickOutside | exact T].
  - destruct (chatForm (elements w));
      [now apply tidy_handleChatSubmit | exact T].
  - keep_tidy.
  - keep_tidy.
  - keep_tidy.
  - keep_tidy.
Qed.

Lemma earliest_None (ts : list Timer) : earliest ts = None -> ts = [].
Proof.
  destruct ts as [|a ts]; [reflexivity|]. cbn [earliest].
  destruct (earliest ts) as [t'|]; [destruct (due t' <? due a)|];
    discriminate.
Qed.

Lemma earliest_min (ts : list Timer) (t : Timer) :
  earliest ts = Some t -> Forall (fun t' => due t <= due t') ts.
Proof.
  revert t. induction ts as [|a ts IH]; intros t H; [constructor|].
  cbn [earliest] in H. destruct (earliest ts) as [t'|] eqn:E.
  - specialize (IH t' eq_refl).
    destruct (due t' <? due a) eqn:C; injection H as <-.
    + apply Z.ltb_lt in C. constructor; [lia | exact IH].
    + apply Z.ltb_ge in C. constructor; [lia|].
      eapply Forall_impl; [|exact IH]. cbn. intros; lia.
  - injection H as <-. rewrite (earliest_None ts E).
    constructor; [lia | constructor].
Qed.

Lemma removeTimer_split (l1 l2 : list Timer) (t : Timer) :
  NoDup (map tid (l1 ++ t :: l2)) ->
  removeTimer (tid t) (l1 ++ t :: l2) = (l1 ++ l2)%list.
Proof.
  intros N. unfold removeTimer. rewrite filter_app. cbn [filter].
  rewrite Nat.eqb_refl. cbn [negb].
  rewrite map_app in N. cbn [map] in N.
  pose proof (NoDup_remove_2 _ _ _ N) as Hnot.
  assert (K : forall l, (forall x, In x l -> tid x <> tid t) ->
                        filter (fun x => negb (Nat.eqb (tid x) (tid t))) l = l).
  { induction l as [|x l IHl]; intros H; [reflexivity|]. cbn [filter].
    replace (Nat.eqb (tid x) (tid t)) with false
      by (symmetry; apply Nat.eqb_neq, H; now left).
    cbn [negb]. f_equal. apply IHl. intros y Hy. apply H. now right. }
  rewrite !K; [reflexivity | |];
    intros x Hx E; apply Hnot, in_or_app;
    [right | left]; apply in_map_iff; exists x; auto.
Qed.

(** A turn of the loop keeps the announcements tidy. *)
Lemma step_tidy (e : Event) (w w' : World) :
  tidy w -> step e w = Some w' -> tidy w'.
Proof.
  intros T H. destruct e as [id | t i]; cbn [step] in H.
  - destruct (earliest (timers w)) as [tm|] eqn:E; [|discriminate].
    destruct (Nat.eqb (tid tm) id && (now w <=? due tm)) eqn:C;
      [|discriminate].
    injection H as <-. apply andb_prop in C as [C1 C2].
    apply Nat.eqb_eq in C1. subst id. apply Z.leb_le in C2.
    pose proof (earliest_min _ _ E) as Hmin.
    apply earliest_In in E. apply in_split in E as (l1 & l2 & Ets).
    destruct T as (EL & N & B & NT & BT & D).
    unfold live, waiting in EL, N, B. rewrite Ets in NT, BT, D, Hmin, EL.
    rewrite Ets, (removeTimer_split l1 l2 tm NT).
    rewrite flat_map_app in EL. cbn [flat_map] in EL.
    assert (NT' : NoDup (map tid (l1 ++ l2))).
    { rewrite map_app in *. cbn [map] in NT. now apply NoDup_remove_1 in NT. }
    assert (BT' : Forall (fun x => (tid x < nextTimer w)%nat) (l1 ++ l2)).
    { apply Forall_app in BT as [B1 B2]. apply Forall_app.
      split; [exact B1 | now inversion B2]. }
    assert (D' : Forall (fun x => removing x <> [] ->
                                  due tm <= due x <= due tm + 1000)
                        (l1 ++ l2)).
    { apply Forall_app in D as [D1 D2]. apply Forall_app in Hmin as [M1 M2].
      inversion D2 as [|? ? _ D3]. inversion M2 as [|? ? _ M3]. subst.
      apply Forall_app. split.
      - rewrite Forall_forall in *. intros x Hx R.
        specialize (D1 x Hx R). specialize (M1 x Hx). lia.
      - rewrite Forall_forall in *. intros x Hx R.
        specialize (D3 x Hx R). specialize (M3 x Hx). lia. }
    destruct (callback tm) as [s| | | |node] eqn:Ecb.
    5: {
      (* the removal of an announcement *)
      assert (R : removing tm = [node]) by (unfold removing; now rewrite Ecb).
      rewrite R in EL.
      unfold tidy, live, waiting, runCallback, removeAnnouncement,
        with_document, at_time.
      cbn [document timers nextTimer now body_announcements nextNode].
      rewrite flat_map_app.
      assert (F : forall anns : list (nat * string),
                    map fst (filter (fun a => negb (Nat.eqb (fst a) node)) anns)
                    = filter (fun n => negb (Nat.eqb n node)) (map fst anns)).
      { induction anns as [|a anns IHa]; [reflexivity|]. cbn [filter map].
        destruct (Nat.eqb (fst a) node); cbn [negb map]; now rewrite IHa. }
      rewrite F, EL.
      rewrite EL in N.
      assert (K : forall l, ~ In node l ->
                            filter (fun n => negb (Nat.eqb n node)) l = l).
      { induction l as [|x l IHl]; intros Hn; [reflexivity|]. cbn [filter].
        replace (Nat.eqb x node) with false
          by (symmetry; apply Nat.eqb_neq; intros ->; apply Hn; now left).
        cbn [negb]. f_equal. apply IHl. intros Hl. apply Hn. now right. }
      pose proof (NoDup_remove_2 _ _ _ N) as Hnot.
      rewrite !filter_app. cbn [app filter]. rewrite Nat.eqb_refl. cbn [negb].
      rewrite !K by (intros X; apply Hnot, in_or_app; auto).
      split; [reflexivity|].
      split; [now apply NoDup_remove_1 in N|].
      split.
      { rewrite EL in B. apply Forall_app in B as [B1 B2].
        apply Forall_app. split; [exact B1 | now inversion B2]. }
      split; [exact NT'|]. split; [exact BT' | exact D']. }
    all: assert (R : removing tm = []) by (unfold removing; now rewrite Ecb).
    all: rewrite R in EL; cbn [app] in EL.
    all: apply tidy_runCallback; [discriminate|].
    all: unfold tidy, live, waiting, at_time.
    all: cbn [document timers nextTimer now].
    all: rewrite flat_map_app.
    all: refine (conj EL (conj N (conj B (conj NT' (conj BT' D'))))).
  - destruct ((now w <=? t) && forallb (fun tm => t <=? due tm) (timers w))
      eqn:C; [|discriminate].
    injection H as <-. apply andb_prop in C as [C1 C2].
    apply Z.leb_le in C1. rewrite forallb_forall in C2.
    apply tidy_dispatch.
    destruct T as (EL & N & B & NT & BT & D).
    unfold tidy, live, waiting, at_time.
    cbn [document timers nextTimer now].
    refine (conj EL (conj N (conj B (conj NT (conj BT _))))).
    rewrite Forall_forall in *. intros x Hx R.
    specialize (D x Hx R). specialize (C2 x Hx). apply Z.leb_le in C2. lia.
Qed.

Lemma run_tidy (evs : list Event) :
  forall w w', tidy w -> run evs w = Some w' -> tidy w'.
Proof.
  induction evs as [|e evs IH]; intros w w' T H; cbn [run] in H.
  - now injection H as <-.
  - destruct (step e w) as [w1|] eqn:E; [|discriminate].
    apply (IH w1 w' (step_tidy e w w1 T E) H).
Qed.

(** X23: the live regions that [announceStateChange] appends for screen
    readers do not pile up: after any inputs and timers, the regions in the
    document are exactly those whose removal is pending, each removal is due
    within the next second, and once no timer is pending no region is left. *)
Theorem announcements_tidy (evs : list Event) (w w' : World) :
  tidy w -> run evs w = Some w' ->
  live w' = waiting w'
  /\ Forall (fun t => removing t <> [] -> now w' <= due t <= now w' + 1000)
            (timers w')
  /\ NoDup (live w')
  /\ (timers w' = [] -> body_announcements (document w') = []).
Proof.
  intros T H. destruct (run_tidy evs w w' T H) as (EL & N & _ & _ & _ & D).
  split; [exact EL|]. split; [exact D|]. split; [exact N|].
  intros Ht. unfold live, waiting in EL. rewrite Ht in EL. cbn in EL.
  now apply map_eq_nil in EL.
Qed.

(** X23 on the sample page: the chat is toggled, the menu is toggled, the
    focus timer fires and Escape is pressed; the two announcements are in
    the document, with their removals pending. *)
Lemma announcements_tidy_witness :
  live Sample.afterToggles = waiting Sample.afterToggles
  /\ live Sample.afterToggles = [0%nat; 1%nat].
Proof.
  assert (T : tidy Sample.settledWorld).
  { unfold tidy. cbn. repeat split; constructor. }
  assert (R : run Sample.toggles Sample.settledWorld
              = Some Sample.afterToggles) by (vm_compute; reflexivity).
  split; [|vm_compute; reflexivity].
  exact (proj1 (announcements_tidy Sample.toggles Sample.settledWorld
                  Sample.afterToggles T R)).
Defined.

(* ================================================================== *)
(** * Scrolling *)
(* ================================================================== *)

Import Pages.

Lemma lazyLoadImages_twice (window : utils.Viewport) (imgs : list LazyImg) :
  lazyLoadImages window (lazyLoadImages window imgs)
  = lazyLoadImages window imgs.
Proof.
  unfold lazyLoadImages. rewrite map_map. apply map_ext. intros img.
  destruct (img_loaded img) eqn:L; cbn [negb andb].
  - now rewrite L.
  - destruct (utils.isInViewport (Some (img_rect img)) 200 window) eqn:V;
      cbn [img_loaded img_rect negb andb]; [reflexivity|].
    now rewrite L, V.
Qed.

Lemma lazyLoadImages_spec (window : utils.Viewport) (imgs : list LazyImg) :
  Forall2
    (fun img img' =>
       img_rect img' = img_rect img
       /\ (img_loaded img' = true
           <-> img_loaded img = true
               \/ utils.isInViewport (Some (img_rect img)) 200 window = true))
    imgs (lazyLoadImages window imgs).
Proof.
  induction imgs as [|img imgs IH]; cbn [lazyLoadImages map];
    constructor; [|exact IH].
  destruct (img_loaded img) eqn:L; cbn [negb andb].
  - rewrite L. split; [reflexivity | tauto].
  - destruct (utils.isInViewport (Some (img_rect img)) 200 window) eqn:V;
      cbn [img_loaded img_rect].
    + split; [reflexivity | tauto].
    + rewrite L. split; [reflexivity|]. split; [discriminate|].
      intros [X | X]; discriminate X.
Qed.

(** The tracker finds its own result again. *)
Lemma updateActiveNavLink_twice (w : World) :
  updateActiveNavLink (updateActiveNavLink w) = updateActiveNavLink w.
Proof.
  destruct w as [[no co cs sp dt] [n nt nl lk hd ct cp cc cf st cm secs]
                   d c t ts k].
  destruct lk as [|l ls]; [reflexivity|].
  unfold updateActiveNavLink at 2. cbn -[markLink scanSections].
  unfold updateActiveNavLink. cbn -[markLink scanSections].
  unfold headerHeight. cbn -[markLink scanSections].
  set (cur := fst (scanSections _ secs)).
  unfold with_state, with_elements, set_currentSection, set_navLinks.
  cbn -[markLink].
  rewrite markLink_idempotent, map_map.
  do 3 f_equal. apply map_ext. intros a. apply markLink_idempotent.
Qed.

Lemma set_scrollPosition_same (scrollTop : Z) (w : World) :
  scrollPosition (state w) = scrollTop ->
  with_state (set_scrollPosition scrollTop) w = w.
Proof.
  destruct w as [[no co cs sp dt] e d c t ts k]. cbn [state scrollPosition].
  intros ->. reflexivity.
Qed.

(** The tracker run again at the same scroll position changes nothing. *)
Lemma updateActiveNavLink_at_twice (scrollTop : Z) (w : World) :
  let w1 := updateActiveNavLink (with_state (set_scrollPosition scrollTop) w) in
  updateActiveNavLink (with_state (set_scrollPosition scrollTop) w1) = w1.
Proof.
  intros w1.
  assert (Hpos : scrollPosition (state w1) = scrollTop).
  { subst w1. unfold updateActiveNavLink.
    destruct (navLinks (elements (with_state _ w))); reflexivity. }
  rewrite (set_scrollPosition_same scrollTop w1 Hpos).
  apply updateActiveNavLink_twice.
Qed.

(** X24: after a scroll event the state holds the scroll offset, the header
    is marked as scrolled above 80 px and the back-to-top button shown above
    300 px, so the button is never shown over an unmarked header; with links
    cached, [currentSection] names a section around the point
    [offset + header height + 100] whose top is nearest to it, or "home";
    a lazy image gets the class [loaded] when it passes the viewport test and
    never loses it; and the same event once more changes nothing. *)
Theorem handleScroll_effects (pageYOffset documentScrollTop : Z)
    (window : utils.Viewport) (w : World) (c : ScrollChrome) :
  let scrollTop := scrollTopOf pageYOffset documentScrollTop in
  let w' := fst (handleScroll pageYOffset documentScrollTop window w c) in
  let c' := snd (handleScroll pageYOffset documentScrollTop window w c) in
  scrollPosition (state w') = scrollTop
  /\ (header (elements w) <> None ->
      (header_scrolled c' = true <-> 80 < scrollTop))
  /\ (backToTop_visible c' = true <-> 300 < scrollTop)
  /\ (header (elements w) <> None -> backToTop_visible c' = true ->
      header_scrolled c' = true)
  /\ (navLinks (elements w) <> [] ->
      let p := scrollTop + headerHeight w + 100 in
      (exists s, Spec.nearestAround (sections (elements w)) p s
                 /\ (section_id s <> "" ->
                     currentSection (state w') = section_id s))
      \/ ((forall s, In s (sections (elements w)) -> ~ Spec.contains p s)
          /\ currentSection (state w') = "home"))
  /\ Forall2
       (fun img img' =>
          img_rect img' = img_rect img
          /\ (img_loaded img' = true
              <-> img_loaded img = true
                  \/ utils.isInViewport (Some (img_rect img)) 200 window
                     = true))
       (lazyImages c) (lazyImages c')
  /\ handleScroll pageYOffset documentScrollTop window w' c' = (w', c').
Proof.
  intros scrollTop w' c'. subst w' c'. unfold handleScroll.
  fold scrollTop. cbn [fst snd header_scrolled backToTop_visible lazyImages].
  set (w0 := with_state (set_scrollPosition scrollTop) w).
  assert (Hpos : scrollPosition (state (updateActiveNavLink w0)) = scrollTop).
  { unfold updateActiveNavLink. destruct (navLinks (elements w0));
      reflexivity. }
  assert (Hhd : header (elements (updateActiveNavLink w0))
                = header (elements w)).
  { unfold updateActiveNavLink. destruct (navLinks (elements w0));
      reflexivity. }
  change (header (elements w0)) with (header (elements w)).
  split; [exact Hpos|].
  split.
  { intros Hh. destruct (header (elements w)); [|congruence].
    unfold CONFIG.SCROLL_THRESHOLD. rewrite Z.gtb_ltb, Z.ltb_lt. reflexivity. }
  split; [rewrite Z.gtb_ltb, Z.ltb_lt; reflexivity|].
  split.
  { intros Hh. destruct (header (elements w)); [|congruence].
    unfold CONFIG.SCROLL_THRESHOLD. rewrite !Z.gtb_ltb, !Z.ltb_lt. lia. }
  split.
  { intros Hlinks. set (p := scrollTop + headerHeight w + 100).
    unfold updateActiveNavLink.
    change (navLinks (elements w0)) with (navLinks (elements w)).
    destruct (navLinks (elements w)) as [|l ls]; [congruence|].
    cbn [state with_state with_elements set_currentSection currentSection].
    change (scrollPosition (state w0) + headerHeight w0 + 100) with p.
    change (sections (elements w0)) with (sections (elements w)).
    pose proof (scanSections_scanned p (sections (elements w))) as H.
    destruct (scanSections p (sections (elements w))) as [[id|] [d|]];
      cbn [fst orHome Inv.scanned] in *; try contradiction.
    - left. destruct H as (s & Hs & -> & _). exists s. split; [exact Hs|].
      intros E. apply truthy_true in E. now rewrite E.
    - right. split; [exact H | reflexivity]. }
  split; [apply lazyLoadImages_spec|].
  change (header (elements (with_state (set_scrollPosition scrollTop)
                              (updateActiveNavLink w0))))
    with (header (elements (updateActiveNavLink w0))).
  rewrite Hhd, lazyLoadImages_twice.
  unfold w0. rewrite (updateActiveNavLink_at_twice scrollTop w).
  destruct (header (elements w)); reflexivity.
Qed.

(** X24 on the sample page in a phone window, scrolled to 500: the button
    is shown and "about", from 500 to 1200, is the current section. *)
Lemma handleScroll_effects_witness :
  backToTop_visible
    (snd (handleScroll 500 500 phone Sample.world gallery)) = true
  /\ currentSection
       (state (fst (handleScroll 500 500 phone Sample.world gallery)))
     = "about".
Proof.
  destruct (handleScroll_effects 500 500 phone Sample.world gallery)
    as (_ & _ & V & _).
  split; [apply V; reflexivity | vm_compute; reflexivity].
Defined.

(* ================================================================== *)
(** * Toasts *)
(* ================================================================== *)

Import Toast.

Lemma setShow_length (node : nat) (v : bool) (ts : list ToastEl) :
  List.length (setShow node v ts) = List.length ts.
Proof. apply length_map. Qed.

Lemma setShow_In (node : nat) (v : bool) (ts : list ToastEl) (x : ToastEl) :
  In x (setShow node v ts) ->
  exists y, In y ts /\ toast_node x = toast_node y
            /\ toast_content x = toast_content y
            /\ toast_className x = toast_className y.
Proof.
  unfold setShow. intros H. apply in_map_iff in H as (y & E & Hin).
  exists y. split; [exact Hin|].
  destruct (Nat.eqb (toast_node y) node); subst x; auto.
Qed.

Lemma setShow_nodes (node : nat) (v : bool) (ts : list ToastEl) :
  map toast_node (setShow node v ts) = map toast_node ts.
Proof.
  unfold setShow. rewrite map_map. apply map_ext. intros x.
  now destruct (Nat.eqb (toast_node x) node).
Qed.

Lemma removeNode_length (node : nat) (ts : list ToastEl) :
  (List.length (removeNode node ts) <= List.length ts)%nat.
Proof. apply filter_length_le. Qed.

Lemma frames_length (ns : list nat) :
  forall ts,
    List.length (fold_left (fun ts node => setShow node true ts) ns ts)
    = List.length ts.
Proof.
  induction ns as [|n ns IH]; intros ts; [reflexivity|].
  cbn [fold_left]. now rewrite IH, setShow_length.
Qed.

Lemma frames_In (ns : list nat) :
  forall ts x,
    In x (fold_left (fun ts node => setShow node true ts) ns ts) ->
    exists y, In y ts /\ toast_node x = toast_node y
              /\ toast_content x = toast_content y
              /\ toast_className x = toast_className y.
Proof.
  induction ns as [|n ns IH]; intros ts x H.
  - exists x. auto.
  - cbn [fold_left] in H. apply IH in H as (y & Hy & E1 & E2 & E3).
    apply setShow_In in Hy as (z & Hz & F1 & F2 & F3).
    exists z. repeat split; congruence.
Qed.

Lemma frames_nodes (ns : list nat) :
  forall ts,
    map toast_node (fold_left (fun ts node => setShow node true ts) ns ts)
    = map toast_node ts.
Proof.
  induction ns as [|n ns IH]; intros ts; [reflexivity|].
  cbn [fold_left]. now rewrite IH, setShow_nodes.
Qed.

Lemma single_sub (c : option (string * string)) (b b' : Body) :
  (List.length (toasts b') <= List.length (toasts b))%nat ->
  (forall x, In x (toasts b') ->
             exists y, In y (toasts b)
                       /\ toast_node x = toast_node y
                       /\ toast_content x = toast_content y
                       /\ toast_className x = toast_className y) ->
  single c b -> single c b'.
Proof.
  intros Hlen Hsub (L & C). split; [lia|].
  intros m ty E x Hx. destruct (Hsub x Hx) as (y & Hy & _ & E1 & E2).
  destruct (C m ty E y Hy) as [C1 C2]. split; congruence.
Qed.

Lemma step_single (e : ToastEvent) (c : option (string * string))
    (b b' : Body) :
  single c b -> step e b = Some b' -> single (lastShown c [e]) b'.
Proof.
  intros S H. destruct e as [t m ty|t node|t|i]; cbn [step] in H.
  - destruct (idle t b); [|discriminate]. injection H as <-.
    destruct S as (L & _). cbn [lastShown fold_left].
    unfold showToast. cbn [toasts at_clock].
    destruct (toasts b) as [|x [|y rest]]; cbn [List.length] in L; try lia.
    + split; [cbn; lia|]. intros m' ty' [= <- <-] z [<- | []]. auto.
    + split; [cbn; lia|]. intros m' ty' [= <- <-] z [<- | []]. auto.
  - destruct (idle t b && _); [|discriminate]. injection H as <-.
    revert S. apply single_sub; cbn [hideToast toasts at_clock].
    + now rewrite setShow_length.
    + apply setShow_In.
  - destruct (idle t b); [|discriminate]. injection H as <-.
    revert S. apply single_sub; cbn [runFrames toasts at_clock frames].
    + now rewrite frames_length.
    + apply frames_In.
  - destruct (nth_error (timeouts b) i) as [[due task]|]; [|discriminate].
    destruct (idle due b); [|discriminate]. injection H as <-.
    revert S. apply single_sub; destruct task as [node|node];
      cbn [runTask hideToast toasts at_clock dropTimeout].
    + now rewrite setShow_length.
    + apply removeNode_length.
    + apply setShow_In.
    + intros x Hx. apply filter_In in Hx as [Hx _]. exists x. auto.
Qed.

Lemma run_single (evs : list ToastEvent) :
  forall c b b',
    single c b -> run evs b = Some b' -> single (lastShown c evs) b'.
Proof.
  induction evs as [|e evs IH]; intros c b b' S H; cbn [run] in H.
  - injection H as <-. exact S.
  - destruct (step e b) as [b1|] eqn:E; [|discriminate].
    apply (IH _ b1 b' (step_single e c b b1 S E) H).
Qed.

(** X21: if the page starts with at most one toast, then after any calls of
    [showToast], clicks on close buttons, animation frames and timeouts the
    document holds at most one toast, and that one carries the message and
    the type of the last call. *)
Theorem showToast_single (evs : list ToastEvent) (b b' : Body) :
  (List.length (toasts b) <= 1)%nat ->
  run evs b = Some b' ->
  (List.length (toasts b') <= 1)%nat
  /\ forall message type,
       lastShown None evs = Some (message, type) ->
       forall x, In x (toasts b') ->
                 toast_content x = message
                 /\ toast_className x = "toast-message toast-" ++ type.
Proof.
  intros L H. apply (run_single evs None b b'); [|exact H].
  split; [exact L | discriminate].
Qed.


(** X21 on an empty page: after two calls the document holds one toast. *)
Lemma showToast_single_witness :
  (List.length (toasts afterTwoCalls) <= 1)%nat.
Proof.
  assert (L : (List.length (toasts blank) <= 1)%nat) by (cbn; lia).
  assert (R : run twoCalls blank = Some afterTwoCalls)
    by (vm_compute; reflexivity).
  exact (proj1 (showToast_single twoCalls blank afterTwoCalls L R)).
Defined.

Lemma idle_spec (t : Z) (b : Body) :
  idle t b = true ->
  clock b <= t /\ Forall (fun x => t <= fst x) (timeouts b).
Proof.
  unfold idle. intros H. apply andb_prop in H as [H1 H2].
  split; [lia|]. apply Forall_forall. intros x Hx.
  rewrite forallb_forall in H2. specialize (H2 x Hx). lia.
Qed.

Lemma In_dropTimeout (i : nat) (ts : list (Z * Task)) (x : Z * Task) :
  In x (firstn i ts ++ skipn (S i) ts)%list -> In x ts.
Proof.
  intros H. apply in_app_or in H as [H | H].
  - rewrite <- (firstn_skipn i ts). apply in_or_app. now left.
  - rewrite <- (firstn_skipn (S i) ts). apply in_or_app. now right.
Qed.

Lemma dropTimeout_other (i : nat) (ts : list (Z * Task)) (x y : Z * Task) :
  nth_error ts i = Some y -> In x ts -> x <> y ->
  In x (firstn i ts ++ skipn (S i) ts)%list.
Proof.
  revert i. induction ts as [|z ts IH]; intros i Hn Hin Hne; [contradiction|].
  destruct i as [|i]; cbn in *.
  - injection Hn as ->. destruct Hin as [-> | Hin]; [congruence | exact Hin].
  - destruct Hin as [-> | Hin]; [now left | right; now apply IH].
Qed.

Lemma removeNode_nodes (node n : nat) (ts : list ToastEl) :
  n <> node ->
  In n (map toast_node ts) -> In n (map toast_node (removeNode node ts)).
Proof.
  intros Hne H. apply in_map_iff in H as (x & E & Hx).
  apply in_map_iff. exists x. split; [exact E|].
  apply filter_In. split; [exact Hx|].
  apply negb_true_iff, Nat.eqb_neq. congruence.
Qed.

Lemma removeNode_gone (node : nat) (ts : list ToastEl) :
  ~ In node (map toast_node (removeNode node ts)).
Proof.
  intros H. apply in_map_iff in H as (x & E & Hx).
  apply filter_In in Hx as [_ Hx].
  apply negb_true_iff, Nat.eqb_neq in Hx. contradiction.
Qed.

Lemma removeNode_sub (node n : nat) (ts : list ToastEl) :
  In n (map toast_node (removeNode node ts)) -> In n (map toast_node ts).
Proof.
  intros H. apply in_map_iff in H as (x & E & Hx).
  apply filter_In in Hx as [Hx _]. apply in_map_iff. eauto.
Qed.

Lemma step_lingering (node : nat) (t : Z) (e : ToastEvent) (b b' : Body) :
  passive e = true -> lingering node t b -> step e b = Some b' ->
  lingering node t b'.
Proof.
  intros Hp (Hpun & Hshape & Hatt & Hpend) H.
  destruct e as [t' m ty|t' n|t'|i]; try discriminate Hp; cbn [step] in H.
  - destruct (idle t' b) eqn:Hi; [|discriminate]. injection H as <-.
    apply idle_spec in Hi as [Hc Hd].
    unfold lingering, punctual, attached.
    cbn [runFrames at_clock toasts timeouts clock frames].
    rewrite frames_nodes.
    split; [exact Hd|]. split; [exact Hshape|].
    split; [destruct Hatt as [A | A]; [now left | right; lia]|].
    exact Hpend.
  - destruct (nth_error (timeouts b) i) as [[due task]|] eqn:Hn;
      [|discriminate].
    destruct (idle due b) eqn:Hi; [|discriminate]. injection H as <-.
    apply idle_spec in Hi as [Hc Hd].
    pose proof (nth_error_In _ _ Hn) as Hfired.
    assert (Hdrop : Forall (fun x => due <= fst x)
                           (firstn i (timeouts b) ++ skipn (S i) (timeouts b))).
    { apply Forall_forall. intros x Hx. apply In_dropTimeout in Hx.
      rewrite Forall_forall in Hd. now apply Hd. }
    destruct task as [m|m]; unfold lingering, punctual, attached;
      cbn [runTask hideToast at_clock dropTimeout toasts timeouts clock
           frames nextToast].
    + rewrite setShow_nodes.
      split.
      { apply Forall_app. split; [exact Hdrop|].
        constructor; [cbn; lia | constructor]. }
      split.
      { intros d tk Hin Hnode. apply in_app_or in Hin as [Hin | [E | []]].
        - apply In_dropTimeout in Hin. now apply Hshape.
        - injection E as <- <-. cbn [taskNode] in Hnode. subst m.
          destruct (Hshape due (HideToast node) Hfired eq_refl)
            as [[_ ->] | [X _]]; [|discriminate X].
          right. split; [reflexivity | lia]. }
      split; [destruct Hatt as [A | A]; [now left | right; lia]|].
      intros A. destruct (Nat.eq_dec m node) as [-> | Hne].
      * exists (due + 300), (RemoveToast node).
        split; [apply in_or_app; right; now left | reflexivity].
      * destruct (Hpend A) as (d & tk & Hin & Hnode).
        exists d, tk. split; [|exact Hnode].
        apply in_or_app. left.
        apply (dropTimeout_other i _ _ _ Hn Hin).
        intros E. injection E as -> ->. cbn [taskNode] in Hnode. congruence.
    + split; [exact Hdrop|].
      split.
      { intros d tk Hin Hnode. apply In_dropTimeout in Hin.
        now apply Hshape. }
      split.
      { destruct (Nat.eq_dec m node) as [-> | Hne].
        - right.
          destruct (Hshape due (RemoveToast node) Hfired eq_refl)
            as [[X _] | [_ ->]]; [discriminate X | lia].
        - destruct Hatt as [A | A]; [left | right; lia].
          apply removeNode_nodes; [congruence | exact A]. }
      intros A. destruct (Nat.eq_dec m node) as [-> | Hne].
      * exfalso. apply (removeNode_gone _ _ A).
      * apply removeNode_sub in A.
        destruct (Hpend A) as (d & tk & Hin & Hnode).
        exists d, tk. split; [|exact Hnode].
        apply (dropTimeout_other i _ _ _ Hn Hin).
        intros E. injection E as -> ->. cbn [taskNode] in Hnode. congruence.
Qed.

Lemma run_lingering (node : nat) (t : Z) (evs : list ToastEvent) :
  forall b b',
    forallb passive evs = true -> lingering node t b ->
    run evs b = Some b' -> lingering node t b'.
Proof.
  induction evs as [|e evs IH]; intros b b' Hp L H; cbn [run] in H.
  - injection H as <-. exact L.
  - cbn [forallb] in Hp. apply andb_prop in Hp as [Hp1 Hp2].
    destruct (step e b) as [b1|] eqn:E; [|discriminate].
    apply (IH b1 b' Hp2 (step_lingering node t e b b1 Hp1 L E) H).
Qed.

Lemma showToast_lingering (t : Z) (message type : string) (b b1 : Body) :
  older b -> step (Show t message type) b = Some b1 ->
  lingering (nextToast b) t b1.
Proof.
  intros Hold H. cbn [step] in H.
  destruct (idle t b) eqn:Hi; [|discriminate]. injection H as <-.
  apply idle_spec in Hi as [Hc Hd].
  unfold lingering, punctual, attached.
  cbn [showToast at_clock toasts timeouts clock frames nextToast].
  split.
  { apply Forall_app. split; [exact Hd|].
    constructor; [cbn; lia | constructor]. }
  split.
  { intros d tk Hin Hnode. apply in_app_or in Hin as [Hin | [E | []]].
    - unfold older in Hold. rewrite Forall_forall in Hold.
      specialize (Hold _ Hin). cbn [snd] in Hold. lia.
    - injection E as <- <-. left. split; reflexivity. }
  split.
  { left. rewrite map_app. apply in_or_app. right. now left. }
  intros _. exists (t + 5000), (HideToast (nextToast b)).
  split; [apply in_or_app; right; now left | reflexivity].
Qed.

(** X22: a toast shown at [t] that is neither replaced nor closed is in the
    document as long as the clock is before [t + 5300] and is out of it once
    the clock is past [t + 5300], whatever timers of earlier toasts are still
    pending. *)
Theorem showToast_lingers (t : Z) (message type : string)
    (evs : list ToastEvent) (b b1 b2 : Body) :
  older b ->
  step (Show t message type) b = Some b1 ->
  forallb passive evs = true ->
  run evs b1 = Some b2 ->
  (clock b2 < t + 5300 -> attached (nextToast b) b2)
  /\ (t + 5300 < clock b2 -> ~ attached (nextToast b) b2).
Proof.
  intros Hold Hshow Hp Hrun.
  pose proof (run_lingering _ t evs b1 b2 Hp
                (showToast_lingering t message type b b1 Hold Hshow) Hrun)
    as (Hpun & Hshape & Hatt & Hpend).
  split.
  - intros Hc. destruct Hatt as [A | A]; [exact A | lia].
  - intros Hc A. destruct (Hpend A) as (d & tk & Hin & Hnode).
    unfold punctual in Hpun. rewrite Forall_forall in Hpun.
    specialize (Hpun _ Hin). cbn [fst] in Hpun.
    destruct (Hshape d tk Hin Hnode) as [[_ ->] | [_ ->]]; lia.
Qed.

(** X22 on an empty page: at 5000, after its [hideToast], the toast shown at
    0 is still in the document. *)
Lemma showToast_lingers_witness : attached 0 hidden.
Proof.
  assert (O : older blank) by constructor.
  assert (S : step (Show 0 "Saved" "success") blank = Some shown)
    by reflexivity.
  assert (R : run [AnimationFrame 16; TimerDue 0%nat] shown = Some hidden)
    by (vm_compute; reflexivity).
  apply (proj1 (showToast_lingers 0 "Saved" "success"
                  [AnimationFrame 16; TimerDue 0%nat] blank shown hidden
                  O S eq_refl R)).
  vm_compute. reflexivity.
Defined.
